(** * Galois runtime: storage and coordination substrate

    A shallow embedding of the pieces of the Galois shared-memory runtime
    that its specification makes claims about:

    - [FileGraph]       : the on-disk graph image and its accessors
                          (src/FileGraph.cpp)
    - [LCGraph]         : the four in-memory graph layouts
                          (include/Galois/Graphs/LCGraph.h)
    - [InsBag]          : the per-worker insert bag
                          (include/Galois/Runtime/InsBag.h)
    - [GAlgs]           : [safe_advance] (include/Galois/util/GAlgs.h)
    - [StaticInstance]  : lazily constructed globals
                          (include/Galois/Runtime/ll/StaticInstance.h)
    - [Termination]     : token state of the ring termination detector
                          (include/Galois/Runtime/Termination.h)

    Conventions.  Pointers are integers ([Z]); the null pointer is [0].
    Fixed-width integers are [Z] with the wrap-around written out where the
    source truncates.  A computation that the C++ standard leaves undefined,
    or that does not return, is an explicit outcome of the model. *)

From Stdlib Require Import ZArith Lia List Bool String.
From Stdlib.Strings Require Import Byte.
From stdpp Require Import base tactics option list.

Local Open Scope Z_scope.

(* ===================================================================== *)
(** ** GAlgs.h : [safe_advance] *)
(* ===================================================================== *)

Module GAlgs.

(** Iterators over a sequence are positions in it.  The two overloads of
    [safe_advance_dispatch] are selected by the iterator category tag. *)
Inductive iterator_category :=
| random_access_iterator_tag
| input_iterator_tag.

(** [safe_advance_dispatch(b, e, n, std::random_access_iterator_tag)]:
<<
  if (std::distance(b,e) < n) return b + n; else return e;
>> *)
Definition safe_advance_dispatch_random_access (b e n : Z) : Z :=
  if (e - b) <? n then b + n else e.

(** [safe_advance_dispatch(b, e, n, std::input_iterator_tag)]:
<<
  while (b != e && n--) ++b;
  return b;
>>
    One unfolding of the loop per unit of fuel; [None] when the fuel is
    exhausted before the loop exits. *)
Fixpoint safe_advance_dispatch_input (fuel : nat) (b e n : Z) : option Z :=
  match fuel with
  | O => None
  | S fuel' =>
      if b =? e then Some b
      else if n =? 0 then Some b
      else safe_advance_dispatch_input fuel' (b + 1) e (n - 1)
  end.

(** [safe_advance(b, e, n)] dispatches on the category of [IterTy]. *)
Definition safe_advance (category : iterator_category) (b e n : Z) : option Z :=
  match category with
  | random_access_iterator_tag => Some (safe_advance_dispatch_random_access b e n)
  | input_iterator_tag =>
      safe_advance_dispatch_input (S (Z.to_nat (Z.max (e - b) n))) b e n
  end.

(** What the header comment asks for: [b + n], capped at [e]. *)
Definition advance_capped (b e n : Z) : Z := Z.min (b + n) e.

Lemma safe_advance_dispatch_input_spec (fuel : nat) (b e n : Z) :
  b <= e -> 0 <= n -> (Z.min (e - b) n < Z.of_nat fuel) ->
  safe_advance_dispatch_input fuel b e n = Some (advance_capped b e n).
Proof.
  revert b n. induction fuel as [|fuel IH]; intros b n Hbe Hn Hf.
  - lia.
  - cbn [safe_advance_dispatch_input]. unfold advance_capped in *.
    destruct (Z.eqb_spec b e) as [->|Hne].
    + f_equal. lia.
    + destruct (Z.eqb_spec n 0) as [->|Hn0].
      * f_equal. lia.
      * rewrite IH by lia. f_equal. lia.
Qed.

(** The forward-iterator overload does what the comment says. *)
Lemma safe_advance_input_capped (b e n : Z) :
  b <= e -> 0 <= n ->
  safe_advance input_iterator_tag b e n = Some (advance_capped b e n).
Proof.
  intros Hbe Hn. unfold safe_advance.
  apply safe_advance_dispatch_input_spec; lia.
Qed.

(** The random-access overload has the two branches exchanged: it is
    correct only when the distance equals [n]. *)
Lemma safe_advance_random_access_branches (b e n : Z) :
  safe_advance random_access_iterator_tag b e n
  = Some (if (e - b) <? n then b + n else e).
Proof. reflexivity. Qed.

Lemma safe_advance_random_access_overshoots (b e n : Z) :
  e - b < n ->
  exists r, safe_advance random_access_iterator_tag b e n = Some r /\ e < r.
Proof.
  intros H. exists (b + n). split; [|lia].
  unfold safe_advance, safe_advance_dispatch_random_access.
  destruct (Z.ltb_spec (e - b) n); [done | lia].
Qed.

(** C8 (evaluation at the failing inputs): on the range [0, 3) with
    [n = 5] the random-access [safe_advance] returns position 5, past the
    end 3, where the forward-iterator overload returns 3; and on [0, 10)
    with [n = 2] it returns the end 10 instead of position 2. *)
Theorem safe_advance_random_access_inverted :
  safe_advance random_access_iterator_tag 0 3 5 = Some 5
  /\ safe_advance input_iterator_tag 0 3 5 = Some 3
  /\ safe_advance random_access_iterator_tag 0 10 2 = Some 10
  /\ safe_advance input_iterator_tag 0 10 2 = Some 2.
Proof. repeat split; reflexivity. Qed.

(** *** The forward overload and [split_range] *)

(** With a negative count the test [n--] never fails, and the loop runs to
    the end of the range. *)
Lemma safe_advance_dispatch_input_negative (fuel : nat) (b e n : Z) :
  b <= e -> n < 0 -> e - b < Z.of_nat fuel ->
  safe_advance_dispatch_input fuel b e n = Some e.
Proof.
  revert b n. induction fuel as [|fuel IH]; intros b n Hbe Hn Hf; [lia|].
  cbn [safe_advance_dispatch_input].
  destruct (Z.eqb_spec b e) as [->|Hne]; [reflexivity|].
  destruct (Z.eqb_spec n 0) as [->|Hn0]; [lia|].
  apply IH; lia.
Qed.

(** X1: on a range that is not reversed, the overload of [safe_advance]
    for forward iterators returns, and never returns a position behind
    the end: it returns [b + n] when that lies in the range, and the end
    [e] when [n] is larger than the range or negative. *)
Theorem safe_advance_input_stops_at_end (b e n : Z) :
  b <= e ->
  safe_advance input_iterator_tag b e n
  = Some (if n <? 0 then e else Z.min (b + n) e).
Proof.
  intros Hbe. unfold safe_advance.
  destruct (Z.ltb_spec n 0) as [Hn|Hn].
  - apply safe_advance_dispatch_input_negative; lia.
  - apply safe_advance_dispatch_input_spec; lia.
Qed.

Lemma safe_advance_input_stops_at_end_witness :
  safe_advance input_iterator_tag 2 7 (-1) = Some (if -1 <? 0 then 7 else Z.min (2 + -1) 7).
Proof. apply (safe_advance_input_stops_at_end 2 7 (-1)). lia. Defined.

(** [split_range(b, e)]:
<<
  std::advance(b, (std::distance(b,e) + 1) / 2);
  return b;
>>
    The division is the one of C++, which truncates. *)
Definition split_range (b e : Z) : Z := b + Z.quot (e - b + 1) 2.

(** X2: [split_range] returns a position [m] of the range; the first half
    [b, m) is as long as the second half [m, e) or longer by one, so that
    the first half of a range of odd length is the bigger one; and the
    first half of a range that is not empty is not empty. *)
Theorem split_range_first_half_bigger (b e : Z) :
  b <= e ->
  let m := split_range b e in
  b <= m <= e
  /\ 0 <= (m - b) - (e - m) <= 1
  /\ (b < e -> b < m).
Proof.
  intros Hbe m. unfold m, split_range.
  pose proof (Z.quot_div_nonneg (e - b + 1) 2 ltac:(lia) ltac:(lia)) as Hq.
  rewrite Hq.
  pose proof (Z.div_mod (e - b + 1) 2 ltac:(lia)) as Hd.
  pose proof (Z.mod_pos_bound (e - b + 1) 2 ltac:(lia)) as Hm.
  lia.
Qed.

Lemma split_range_first_half_bigger_witness :
  let m := split_range 10 15 in
  10 <= m <= 15 /\ 0 <= (m - 10) - (15 - m) <= 1 /\ (10 < 15 -> 10 < m).
Proof. apply (split_range_first_half_bigger 10 15). lia. Defined.

End GAlgs.

(* ===================================================================== *)
(** ** StaticInstance.h : lazily constructed global *)
(* ===================================================================== *)

Module StaticInstance.

(** [struct StaticInstance { volatile T* V; int _lock; }].  An instance is
    a global, hence zero-initialised. *)
Record StaticInstance := mkSI { V : Z; _lock : Z }.

Definition zero_initialized : StaticInstance := {| V := 0; _lock := 0 |}.

(** The free store: [objects] counts the [T] objects constructed so far
    by [new T()]. *)
Record store := mkStore { objects : nat }.

Section Get.

(** [new T()] returns the address of a fresh object; which address is the
    allocator's business.  It never returns null (it throws instead). *)
Variable address_of : nat -> Z.
Hypothesis address_of_nonnull : forall k, address_of k <> 0.

Definition new_T (h : store) : Z * store :=
  (address_of (objects h), {| objects := S (objects h) |}).

(** [lock()]:
<<
  do {
    while (_lock != 0) asmPause();
    oldval = __sync_fetch_and_or(&_lock, 1);
  } while (oldval & 1);
>>
    With a single thread nobody else releases the lock: if it is held the
    inner loop spins forever ([None]); otherwise the fetch-and-or takes
    it on the first round. *)
Definition lock (s : StaticInstance) : option StaticInstance :=
  if _lock s =? 0 then
    let oldval := _lock s in
    let s' := {| V := V s; _lock := Z.lor (_lock s) 1 |} in
    if Z.land oldval 1 =? 0 then Some s' else None
  else None.

(** [unlock()]: [_lock = 0]. *)
Definition unlock (s : StaticInstance) : StaticInstance :=
  {| V := V s; _lock := 0 |}.

(** [get()]:
<<
  volatile T* val = V;
  if (val) return val;
  lock();
  val = V;
  if (!val) V = val = new T();
  unlock();
  return val;
>> *)
Definition get (st : StaticInstance * store) : option (Z * (StaticInstance * store)) :=
  let '(s, h) := st in
  let val := V s in
  if negb (val =? 0) then Some (val, (s, h))
  else
    s1 ← lock s;
    let val := V s1 in
    let '(val, s2, h2) :=
      if val =? 0 then
        let '(p, h') := new_T h in (p, {| V := p; _lock := _lock s1 |}, h')
      else (val, s1, h) in
    Some (val, (unlock s2, h2)).

(** [k] calls to [get()] in sequence, collecting the returned pointers. *)
Fixpoint gets (k : nat) (st : StaticInstance * store)
  : option (list Z * (StaticInstance * store)) :=
  match k with
  | O => Some ([], st)
  | S k' =>
      '(p, st1) ← get st;
      '(ps, st2) ← gets k' st1;
      Some (p :: ps, st2)
  end.

Lemma get_constructed (s : StaticInstance) (h : store) :
  V s <> 0 -> get (s, h) = Some (V s, (s, h)).
Proof.
  intros Hv. unfold get.
  destruct (Z.eqb_spec (V s) 0); [contradiction | reflexivity].
Qed.

Lemma get_first (s : StaticInstance) (h : store) :
  V s = 0 -> _lock s = 0 ->
  get (s, h) = Some (address_of (objects h),
                     ({| V := address_of (objects h); _lock := 0 |},
                      {| objects := S (objects h) |})).
Proof.
  intros Hv Hl. unfold get, lock. rewrite Hv, Hl. reflexivity.
Qed.

Lemma gets_constructed (k : nat) (s : StaticInstance) (h : store) :
  V s <> 0 -> gets k (s, h) = Some (repeat (V s) k, (s, h)).
Proof.
  intros Hv. induction k as [|k IH]; [reflexivity|].
  cbn [gets]. rewrite get_constructed by assumption. cbn.
  rewrite IH. reflexivity.
Qed.

(** No call returns null, from any state whatever. *)
Lemma get_nonnull (st st' : StaticInstance * store) (p : Z) :
  get st = Some (p, st') -> p <> 0.
Proof.
  destruct st as [s h]. unfold get.
  destruct (Z.eqb_spec (V s) 0) as [Hv|Hv]; cbn [negb].
  - unfold lock. destruct (_lock s =? 0); [|discriminate].
    destruct (Z.land (_lock s) 1 =? 0); [|discriminate]. cbn.
    rewrite Hv. cbn. intros [= <- _]. apply address_of_nonnull.
  - intros [= <- _]. exact Hv.
Qed.

(** C10: starting from the zero-initialised instance, any number [k] of
    sequential calls to [get()] all return, and return one and the same
    non-null pointer [p]; the object is constructed by the first call only
    (one allocation in total when [k >= 1], none when [k = 0]); afterwards
    [V] holds [p], the lock is free, and a further call returns [p]
    without changing the instance or the store. *)
Theorem get_allocates_once (k : nat) (h : store) :
  exists (p : Z) (s' : StaticInstance) (h' : store),
    gets k (zero_initialized, h) = Some (repeat p k, (s', h'))
    /\ p <> 0
    /\ objects h' = (objects h + Nat.min k 1)%nat
    /\ _lock s' = 0
    /\ (k <> O -> V s' = p /\ get (s', h') = Some (p, (s', h'))).
Proof.
  destruct k as [|k].
  - exists (address_of 0), zero_initialized, h. cbn.
    repeat split; try done; lia.
  - set (p := address_of (objects h)).
    exists p, {| V := p; _lock := 0 |}, {| objects := S (objects h) |}.
    assert (Hp : p <> 0) by apply address_of_nonnull.
    cbn [gets]. rewrite get_first by reflexivity. cbn [mbind option_bind].
    fold p.
    rewrite (gets_constructed k {| V := p; _lock := 0 |}) by exact Hp.
    cbn. repeat split; try done; try lia.
    apply (get_constructed {| V := p; _lock := 0 |}). exact Hp.
Qed.

End Get.

(** Objects handed out at addresses 4096, 4097, ... *)
Lemma get_allocates_once_witness :
  exists (p : Z) (s' : StaticInstance) (h' : store),
    gets (fun k => 4096 + Z.of_nat k) 3 (zero_initialized, {| objects := 0 |})
      = Some (repeat p 3, (s', h'))
    /\ p <> 0
    /\ objects h' = (0 + Nat.min 3 1)%nat
    /\ _lock s' = 0
    /\ (3%nat <> O ->
        V s' = p /\ get (fun k => 4096 + Z.of_nat k) (s', h') = Some (p, (s', h'))).
Proof.
  apply (get_allocates_once (fun k => 4096 + Z.of_nat k)).
  intros k. lia.
Defined.

End StaticInstance.

(* ===================================================================== *)
(** ** Termination.h : token state of the termination detector *)
(* ===================================================================== *)

Module Termination.

(** [class TokenHolder]: three [volatile long] flags that only ever hold
    [true] or [false]. *)
Record TokenHolder := mkTokenHolder {
  tokenIsBlack : bool;
  hasToken : bool;
  processIsBlack : bool
}.

(** [TokenHolder() : tokenIsBlack(false), hasToken(false), processIsBlack(true) {}] *)
Definition TokenHolder_ctor : TokenHolder :=
  {| tokenIsBlack := false; hasToken := false; processIsBlack := true |}.

(** [TokenHolder::workHappened()] *)
Definition TokenHolder_workHappened (t : TokenHolder) : TokenHolder :=
  {| tokenIsBlack := tokenIsBlack t; hasToken := hasToken t; processIsBlack := true |}.

(** [class TerminationDetection]: one [TokenHolder] per worker
    ([PerThreadStorage<TokenHolder> data], indexed by worker id), and the
    two flags of the detector. *)
Record TerminationDetection := mkTD {
  data : list TokenHolder;
  globalTerm : bool;
  lastWasWhite : bool
}.

(** Modelled from the spec: the body of [TerminationDetection::TerminationDetection()]
    is defined outside the header.  Construction of the [data] member
    default-constructs one [TokenHolder] per worker; the detector starts
    with no termination declared. *)
Definition TerminationDetection_ctor (workers : nat) : TerminationDetection :=
  {| data := replicate workers TokenHolder_ctor;
     globalTerm := false;
     lastWasWhite := false |}.

(** [initializeThread()], called by the worker with id [tid]:
<<
  if (LL::getTID() == 0) {
    data.getLocal()->hasToken = true;
    data.getLocal()->tokenIsBlack = true;
  }
>> *)
Definition initializeThread (tid : nat) (td : TerminationDetection) : TerminationDetection :=
  if Nat.eqb tid 0 then
    {| data := alter (fun t => {| tokenIsBlack := true;
                                  hasToken := true;
                                  processIsBlack := processIsBlack t |})
                     tid (data td);
       globalTerm := globalTerm td;
       lastWasWhite := lastWasWhite td |}
  else td.

(** [workHappened()], called by the worker with id [tid]. *)
Definition workHappened (tid : nat) (td : TerminationDetection) : TerminationDetection :=
  {| data := alter TokenHolder_workHappened tid (data td);
     globalTerm := globalTerm td;
     lastWasWhite := lastWasWhite td |}.

(** [globalTermination()] *)
Definition globalTermination (td : TerminationDetection) : bool := globalTerm td.

(** The workers call [initializeThread] in the order [order]. *)
Definition initializeThreads (order : list nat) (td : TerminationDetection)
  : TerminationDetection :=
  foldl (fun td tid => initializeThread tid td) td order.

(** The state of worker [tid] that the claim describes. *)
Definition initial_holder (tid : nat) : TokenHolder :=
  {| tokenIsBlack := Nat.eqb tid 0;
     hasToken := Nat.eqb tid 0;
     processIsBlack := true |}.

Definition initialized (seen0 : bool) (workers : nat) (td : TerminationDetection) : Prop :=
  length (data td) = workers
  /\ globalTerm td = false
  /\ forall tid, (tid < workers)%nat ->
       data td !! tid
       = Some (if seen0 then initial_holder tid else TokenHolder_ctor).

Lemma initialized_ctor (workers : nat) :
  initialized false workers (TerminationDetection_ctor workers).
Proof.
  unfold initialized, TerminationDetection_ctor; cbn.
  split; [apply length_replicate|]. split; [reflexivity|].
  intros tid Hlt. by apply lookup_replicate_2.
Qed.

Lemma initialized_step (seen0 : bool) (workers tid : nat) (td : TerminationDetection) :
  initialized seen0 workers td ->
  initialized (seen0 || Nat.eqb tid 0) workers (initializeThread tid td).
Proof.
  intros (Hlen & Hg & Hd). unfold initializeThread.
  destruct (Nat.eqb_spec tid 0) as [->|Hne].
  - rewrite orb_true_r. unfold initialized; cbn.
    split; [by rewrite length_alter|]. split; [exact Hg|].
    intros t Ht. destruct (decide (t = 0%nat)) as [->|Hne].
    + rewrite list_lookup_alter_eq, (Hd 0%nat Ht).
      by destruct seen0.
    + rewrite list_lookup_alter_ne by done. rewrite (Hd t Ht).
      destruct seen0; [done|]. unfold initial_holder.
      destruct (Nat.eqb_spec t 0); [contradiction | reflexivity].
  - rewrite orb_false_r. by repeat split.
Qed.

Lemma initialized_fold (order : list nat) (seen0 : bool) (workers : nat)
    (td : TerminationDetection) :
  initialized seen0 workers td ->
  initialized (seen0 || existsb (Nat.eqb 0) order) workers (initializeThreads order td).
Proof.
  revert seen0 td. induction order as [|tid order IH]; intros seen0 td Hi; cbn.
  - by rewrite orb_false_r.
  - apply (initialized_step _ _ tid) in Hi. apply IH in Hi.
    rewrite (Nat.eqb_sym tid 0), <- orb_assoc in Hi. exact Hi.
Qed.

(** C7: construct the detector for [workers] workers, then let the workers
    call [initializeThread] in any order in which worker 0 takes part.
    Before any work is performed, worker 0 and only worker 0 has
    [hasToken = true] and [tokenIsBlack = true]; every other worker has
    both false; every worker has [processIsBlack = true]; and no global
    termination has been declared. *)
Theorem initial_token_state (workers : nat) (order : list nat) :
  (0 < workers)%nat ->
  In 0%nat order ->
  let td := initializeThreads order (TerminationDetection_ctor workers) in
  length (data td) = workers
  /\ globalTermination td = false
  /\ forall tid, (tid < workers)%nat ->
       exists t, data td !! tid = Some t
         /\ hasToken t = Nat.eqb tid 0
         /\ tokenIsBlack t = Nat.eqb tid 0
         /\ processIsBlack t = true.
Proof.
  intros Hw H0 td.
  pose proof (initialized_fold order false workers _ (initialized_ctor workers))
    as (Hlen & Hg & Hd).
  fold td in Hlen, Hg, Hd.
  assert (Hex : existsb (Nat.eqb 0) order = true).
  { apply existsb_exists. exists 0%nat. split; [exact H0 | reflexivity]. }
  rewrite Hex in Hd. cbn in Hd.
  split; [exact Hlen|]. split; [exact Hg|].
  intros tid Ht. exists (initial_holder tid). by rewrite (Hd tid Ht).
Qed.

(** Four workers initialising in the order 2, 0, 3, 1. *)
Lemma initial_token_state_witness :
  let td := initializeThreads [2; 0; 3; 1]%nat (TerminationDetection_ctor 4) in
  length (data td) = 4%nat
  /\ globalTermination td = false
  /\ forall tid, (tid < 4)%nat ->
       exists t, data td !! tid = Some t
         /\ hasToken t = Nat.eqb tid 0
         /\ tokenIsBlack t = Nat.eqb tid 0
         /\ processIsBlack t = true.
Proof.
  apply (initial_token_state 4 [2; 0; 3; 1]%nat).
  - lia.
  - cbn. tauto.
Defined.

End Termination.

(* ===================================================================== *)
(** ** Outcomes of a call *)
(* ===================================================================== *)

(** A call either returns, or ends the process ([abort()], a failed
    [assert]), or has undefined behaviour (a read outside the mapped
    image). *)
Inductive outcome (A : Type) : Type :=
| Returns (a : A)
| Aborts
| Undefined.
Arguments Returns {A} a.
Arguments Aborts {A}.
Arguments Undefined {A}.

#[global] Instance outcome_ret : MRet outcome := fun A a => Returns a.
#[global] Instance outcome_bind : MBind outcome := fun A B f o =>
  match o with
  | Returns a => f a
  | Aborts => Aborts
  | Undefined => Undefined
  end.

(** A memory read: undefined behaviour when it misses the image. *)
Definition deref {A : Type} (o : option A) : outcome A :=
  match o with
  | Some a => Returns a
  | None => Undefined
  end.

(* ===================================================================== *)
(** ** FileGraph.cpp : the on-disk graph image *)
(* ===================================================================== *)

Module FileGraph.

(** A run of [size] bytes: the contents of a file, or of a mapping. *)
Record region := mkRegion { bytes : Z -> byte; size : Z }.

Definition byte_val (b : byte) : Z := Z.of_N (Byte.to_N b).

Definition load8 (m : region) (a : Z) : option Z :=
  if (0 <=? a) && (a <? size m) then Some (byte_val (bytes m a)) else None.

(** The [n] bytes at [a, a + n), all inside the region. *)
Fixpoint load_bytes (m : region) (a : Z) (n : nat) : option (list Z) :=
  match n with
  | O => Some []
  | S n' =>
      b ← load8 m a;
      bs ← load_bytes m (a + 1) n';
      Some (b :: bs)
  end.

(** Little-endian value of a byte string. *)
Fixpoint le_decode (bs : list Z) : Z :=
  match bs with
  | [] => 0
  | b :: bs' => b + 256 * le_decode bs'
  end.

(** [le64toh( *(uint64_t* )(m + a))] and [le32toh( *(uint32_t* )(m + a))]. *)
Definition le64 (m : region) (a : Z) : option Z := le_decode <$> load_bytes m a 8.
Definition le32 (m : region) (a : Z) : option Z := le_decode <$> load_bytes m a 4.

(** The fields of [class FileGraph].  The three table pointers point into
    the mapping and are kept as byte offsets from its base; a null
    [masterMapping] is [None]. *)
Record FileGraph := mkFileGraph {
  masterMapping : option region;
  masterLength : Z;
  sizeEdgeTy : Z;
  masterFD : Z;
  outIdx : Z;
  outs : Z;
  edgeData : Z;
  numEdges : Z;
  numNodes : Z
}.

(** [FileGraph::FileGraph()] zeroes every field it mentions ([sizeEdgeTy]
    is left out of the initialiser list). *)
Definition FileGraph_ctor : FileGraph :=
  {| masterMapping := None; masterLength := 0; sizeEdgeTy := 0; masterFD := 0;
     outIdx := 0; outs := 0; edgeData := 0; numEdges := 0; numNodes := 0 |}.

(** [FileGraph::parse(void* m)]:
<<
  uint64_t* fptr = (uint64_t* )m;
  uint64_t version = le64toh( *fptr++);
  assert(version == 1);
  sizeEdgeTy = le64toh( *fptr++);
  numNodes = le64toh( *fptr++);
  numEdges = le64toh( *fptr++);
  outIdx = fptr;
  fptr += numNodes;
  uint32_t* fptr32 = (uint32_t* )fptr;
  outs = fptr32;
  fptr32 += numEdges;
  if (numEdges % 2) fptr32 += 1;
  edgeData = (char* )fptr32;
>>
    [assertions] tells whether [assert] is compiled in (no [NDEBUG]). *)
Definition parse (assertions : bool) (g : FileGraph) (m : region) : outcome FileGraph :=
  let fptr := 0 in
  version ← deref (le64 m fptr);
  let fptr := fptr + 8 in
  if assertions && negb (version =? 1) then Aborts else
  sizeEdgeTy' ← deref (le64 m fptr);
  let fptr := fptr + 8 in
  numNodes' ← deref (le64 m fptr);
  let fptr := fptr + 8 in
  numEdges' ← deref (le64 m fptr);
  let fptr := fptr + 8 in
  let outIdx' := fptr in
  let fptr := fptr + 8 * numNodes' in
  let fptr32 := fptr in
  let outs' := fptr32 in
  let fptr32 := fptr32 + 4 * numEdges' in
  let fptr32 := if negb (numEdges' mod 2 =? 0) then fptr32 + 4 else fptr32 in
  Returns {| masterMapping := masterMapping g; masterLength := masterLength g;
             sizeEdgeTy := sizeEdgeTy'; masterFD := masterFD g;
             outIdx := outIdx'; outs := outs'; edgeData := fptr32;
             numEdges := numEdges'; numNodes := numNodes' |}.

Definition set_masterMapping (m : region) (g : FileGraph) : FileGraph :=
  {| masterMapping := Some m; masterLength := masterLength g;
     sizeEdgeTy := sizeEdgeTy g; masterFD := masterFD g;
     outIdx := outIdx g; outs := outs g; edgeData := edgeData g;
     numEdges := numEdges g; numNodes := numNodes g |}.

Definition set_masterLength (n : Z) (g : FileGraph) : FileGraph :=
  {| masterMapping := masterMapping g; masterLength := n;
     sizeEdgeTy := sizeEdgeTy g; masterFD := masterFD g;
     outIdx := outIdx g; outs := outs g; edgeData := edgeData g;
     numEdges := numEdges g; numNodes := numNodes g |}.

Definition set_masterFD (fd : Z) (g : FileGraph) : FileGraph :=
  {| masterMapping := masterMapping g; masterLength := masterLength g;
     sizeEdgeTy := sizeEdgeTy g; masterFD := fd;
     outIdx := outIdx g; outs := outs g; edgeData := edgeData g;
     numEdges := numEdges g; numNodes := numNodes g |}.

(** The bytes [0, n) of [m], as [memcpy] and [write] transfer them. *)
Definition copy_bytes (m : region) (n : Z) : region :=
  {| bytes := fun a => if (0 <=? a) && (a <? n) then bytes m a else "000"%byte;
     size := n |}.

(** [FileGraph::structureFromMem(void* mem, size_t len, bool clone)].  An
    anonymous mapping of length 0 cannot be created ([mmap] fails, the
    code aborts). *)
Definition structureFromMem (assertions : bool) (g : FileGraph)
    (mem : region) (len : Z) (clone : bool) : outcome FileGraph :=
  let g := set_masterLength len g in
  if clone then
    if len =? 0 then Aborts else
    if size mem <? len then Undefined else
    let m := copy_bytes mem len in
    g ← parse assertions g m;
    Returns (set_masterMapping m g)
  else
    g ← parse assertions g mem;
    Returns (set_masterMapping mem g).

(** The process and its files, as [open], [mmap], [write] and [close]
    see them: the contents of the files by name; the names that [open]
    accepts for reading, and those it accepts for writing (creating or
    truncating the file); the descriptors that are open; the files that
    mappings of the process are backed by; and the number of bytes that
    one [write] transfers at most ([0x7ffff000] on Linux). *)
Record filesystem := mkFilesystem {
  contents : string -> option region;
  can_read : string -> bool;
  can_write : string -> bool;
  open_fds : list Z;
  mapped_files : list string;
  write_limit : Z
}.

(** [open] returns the lowest descriptor that is not open. *)
Definition lowest_free (fds : list Z) : Z :=
  default 0 (head (List.filter (fun n => forallb (fun d => negb (d =? n)) fds)
                               (seqZ 0 (Z.of_nat (length fds) + 1)))).

(** [open(filename, O_RDONLY)]: the descriptor and the file behind it. *)
Definition open_rdonly (fs : filesystem) (filename : string) : option (Z * region) :=
  if can_read fs filename
  then f ← contents fs filename; Some (lowest_free (open_fds fs), f)
  else None.

Definition is_mapped (fs : filesystem) (file : string) : bool :=
  existsb (String.eqb file) (mapped_files fs).

(** [FileGraph::structureFromFile(const std::string& filename)]:
<<
  masterFD = open(filename.c_str(), O_RDONLY);
  if (masterFD == -1) abort();
  fstat(masterFD, &buf);
  masterLength = buf.st_size;
  void* m = mmap(0, masterLength, PROT_READ, MAP_PRIVATE, masterFD, 0);
  if (m == MAP_FAILED) abort();
  parse(m);
  masterMapping = m;
>>
    [mmap] fails on an empty file.  The mapping of the model holds the
    bytes of the file and nothing else: the rest of the last page, which
    [mmap] fills with zeros, is left out, and a read there counts as a
    read outside the image. *)
Definition structureFromFile (assertions : bool) (fs : filesystem) (g : FileGraph)
    (filename : string) : outcome FileGraph :=
  match open_rdonly fs filename with
  | None => Aborts
  | Some (fd, f) =>
      let g := set_masterFD fd g in
      let g := set_masterLength (size f) g in
      if size f <=? 0 then Aborts else
      let m := f in
      g ← parse assertions g m;
      Returns (set_masterMapping m g)
  end.

(** The process after [structureFromFile(filename)] returned: the
    descriptor stays open and the file stays mapped for as long as the
    object lives. *)
Definition after_load (fs : filesystem) (filename : string) : filesystem :=
  {| contents := contents fs; can_read := can_read fs; can_write := can_write fs;
     open_fds := lowest_free (open_fds fs) :: open_fds fs;
     mapped_files := filename :: mapped_files fs;
     write_limit := write_limit fs |}.

Definition set_contents (file : string) (c : region) (fs : filesystem) : filesystem :=
  {| contents := fun name => if String.eqb name file then Some c else contents fs name;
     can_read := can_read fs; can_write := can_write fs;
     open_fds := open_fds fs; mapped_files := mapped_files fs;
     write_limit := write_limit fs |}.

(** [FileGraph::structureToFile(char* file)]:
<<
  int fd = open(file, O_WRONLY | O_CREAT | O_TRUNC, mode);
  retval = write(fd, masterMapping, masterLength);
  if (retval == -1) abort();
  close(fd);
>>
    When [open] fails, [write] on descriptor -1 fails and the call aborts.
    [O_TRUNC] empties the file before the write: when the file backs a
    mapping of the process, what the mapping then holds is unspecified.
    [write] transfers [masterLength] bytes or, when that is more than one
    call transfers, only the first [write_limit] of them; the code does
    not look at the count.  The descriptor is closed again. *)
Definition structureToFile (g : FileGraph) (file : string) (fs : filesystem)
  : outcome filesystem :=
  if negb (can_write fs file) then Aborts else
  if is_mapped fs file then Undefined else
  let count := Z.min (masterLength g) (Z.max 0 (write_limit fs)) in
  let data := default (mkRegion (fun _ => "000"%byte) 0) (masterMapping g) in
  if size data <? count then Undefined
  else Returns (set_contents file (copy_bytes data count) fs).

(** [FileGraph::clone(FileGraph& other)] *)
Definition clone (assertions : bool) (g other : FileGraph) : outcome FileGraph :=
  match masterMapping other with
  | Some m => structureFromMem assertions g m (masterLength other) true
  | None => structureFromMem assertions g (mkRegion (fun _ => "000"%byte) 0)
              (masterLength other) true
  end.

(** [outIdx[N]] and [outs[i]], through [le64toh] and [le32toh]. *)
Definition outIdx_at (g : FileGraph) (N : Z) : outcome Z :=
  match masterMapping g with
  | Some m => deref (le64 m (outIdx g + 8 * N))
  | None => Undefined
  end.

Definition outs_at (g : FileGraph) (i : Z) : outcome Z :=
  match masterMapping g with
  | Some m => deref (le32 m (outs g + 4 * i))
  | None => Undefined
  end.

(** [raw_neighbor_begin(N)] and [raw_neighbor_end(N)] return pointers
    [&outs[k]]; the model keeps the index [k]. *)
Definition raw_neighbor_begin (g : FileGraph) (N : Z) : outcome Z :=
  if N =? 0 then Returns 0 else outIdx_at g (N - 1).

Definition raw_neighbor_end (g : FileGraph) (N : Z) : outcome Z :=
  outIdx_at g N.

(** [neighborsSize(N)]: the distance, converted to [size_t]. *)
Definition neighborsSize (g : FileGraph) (N : Z) : outcome Z :=
  b ← raw_neighbor_begin g N;
  e ← raw_neighbor_end g N;
  Returns ((e - b) mod 2 ^ 64).

(** [edge_begin(N)], [edge_end(N)]: an [edge_iterator] counts edge indices. *)
Definition edge_begin (g : FileGraph) (N : Z) : outcome Z :=
  if N =? 0 then Returns 0 else outIdx_at g (N - 1).

Definition edge_end (g : FileGraph) (N : Z) : outcome Z :=
  outIdx_at g N.

(** [getEdgeDst(it)]: [le32toh(outs[*it])]. *)
Definition getEdgeDst (g : FileGraph) (it : Z) : outcome Z := outs_at g it.

(** The value [~static_cast<uint64_t>(0)]. *)
Definition no_edge : Z := 2 ^ 64 - 1.

(** The loop of [getEdgeIdx]:
<<
  for (ii = raw_neighbor_begin(src), ee = raw_neighbor_end(src); ii != ee; ++ii)
    if (le32toh( *ii) == dst) return std::distance(outs, ii);
  return ~static_cast<uint64_t>(0);
>> *)
Fixpoint getEdgeIdx_loop (fuel : nat) (g : FileGraph) (ii ee dst : Z) : outcome Z :=
  match fuel with
  | O => Undefined
  | S fuel' =>
      if ii =? ee then Returns no_edge
      else
        d ← outs_at g ii;
        if d =? dst then Returns ii
        else getEdgeIdx_loop fuel' g (ii + 1) ee dst
  end.

(** Every round reads four more bytes of the mapping, so the loop cannot
    make more rounds than the mapping has bytes. *)
Definition getEdgeIdx (g : FileGraph) (src dst : Z) : outcome Z :=
  ii ← raw_neighbor_begin g src;
  ee ← raw_neighbor_end g src;
  getEdgeIdx_loop (S (Z.to_nat (masterLength g))) g ii ee dst.

(** [hasNeighbor(N1, N2)] *)
Definition hasNeighbor (g : FileGraph) (N1 N2 : Z) : outcome bool :=
  i ← getEdgeIdx g N1 N2;
  Returns (negb (i =? no_edge)).

(** [size()] and [sizeEdges()] return [unsigned int]. *)
Definition size_ (g : FileGraph) : Z := numNodes g mod 2 ^ 32.
Definition sizeEdges (g : FileGraph) : Z := numEdges g mod 2 ^ 32.

(** [containsNode(n)] *)
Definition containsNode (g : FileGraph) (n : Z) : bool := n <? numNodes g.

(** The destinations of the edges [b, b + 1, ..., e - 1], in that order:
    what a caller sees who walks an [edge_iterator] from [edge_begin] to
    [edge_end] and applies [getEdgeDst]. *)
Fixpoint edge_dsts (g : FileGraph) (b : Z) (count : nat) : outcome (list Z) :=
  match count with
  | O => Returns []
  | S count' =>
      d ← getEdgeDst g b;
      ds ← edge_dsts g (b + 1) count';
      Returns (d :: ds)
  end.

Definition neighbors (g : FileGraph) (N : Z) : outcome (list Z) :=
  b ← edge_begin g N;
  e ← edge_end g N;
  if e <? b then Undefined else edge_dsts g b (Z.to_nat (e - b)).


(** *** Writing an image (for the examples)

    The layout of the format comment at the head of FileGraph.cpp:
    version, edge-payload size, node count, edge count (64-bit each), the
    64-bit offset table, the 32-bit destination table, four bytes of
    padding when the edge count is odd, the payload. *)

Definition byte_of (z : Z) : byte :=
  default "000"%byte (Byte.of_N (Z.to_N (z mod 256))).

Fixpoint le_encode (n : nat) (v : Z) : list byte :=
  match n with
  | O => []
  | S n' => byte_of v :: le_encode n' (v / 256)
  end.

Definition region_of_list (l : list byte) : region :=
  {| bytes := fun a => nth (Z.to_nat a) l "000"%byte;
     size := Z.of_nat (length l) |}.

Definition graph_image (version edge_size : Z) (offsets dests : list Z)
    (payload : list byte) : region :=
  region_of_list
    (le_encode 8 version ++ le_encode 8 edge_size
     ++ le_encode 8 (Z.of_nat (length offsets))
     ++ le_encode 8 (Z.of_nat (length dests))
     ++ flat_map (le_encode 8) offsets
     ++ flat_map (le_encode 4) dests
     ++ (if Nat.odd (length dests) then le_encode 4 0 else [])
     ++ payload).

(** The graph of the specification's example scenario: four nodes, edges
    (0,1), (0,2), (1,2), (2,3), no payload. *)
Definition example_image : region := graph_image 1 0 [2; 3; 4; 4] [1; 2; 2; 3] [].

(** A process with the standard descriptors open, in a directory that
    holds the example graph and in which files can be created. *)
Definition example_fs : filesystem :=
  {| contents := fun name =>
       if String.eqb name "example.gr" then Some example_image else None;
     can_read := fun _ => true; can_write := fun _ => true;
     open_fds := [0; 1; 2]; mapped_files := [];
     write_limit := 2147479552 |}.

(** *** Reading the image *)

(** The little-endian word of [n] bytes at offset [a]. *)
Definition word_at (m : region) (a : Z) (n : nat) : Z :=
  le_decode (map (fun i => byte_val (bytes m (a + Z.of_nat i))) (seq 0 n)).

Lemma byte_val_range (b : byte) : 0 <= byte_val b < 256.
Proof.
  unfold byte_val. pose proof (Byte.to_N_bounded b) as H. lia.
Qed.

Lemma load8_Some (m : region) (a v : Z) :
  load8 m a = Some v <-> (0 <= a < size m /\ v = byte_val (bytes m a)).
Proof.
  unfold load8.
  destruct (Z.leb_spec 0 a), (Z.ltb_spec a (size m)); cbn;
    split; try (intros [= <-]); try (intros [? ->]); try done; try lia.
Qed.

Lemma load_bytes_in_range (m : region) (n : nat) (a : Z) :
  0 <= a -> a + Z.of_nat n <= size m ->
  load_bytes m a n
  = Some (map (fun i => byte_val (bytes m (a + Z.of_nat i))) (seq 0 n)).
Proof.
  revert a. induction n as [|n IH]; intros a Ha Hn; [reflexivity|].
  cbn [load_bytes seq map].
  assert (H8 : load8 m a = Some (byte_val (bytes m a))) by (apply load8_Some; lia).
  rewrite H8. cbn [mbind option_bind]. rewrite IH by lia. cbn [mbind option_bind].
  f_equal. f_equal; [f_equal; f_equal; cbn; lia|].
  rewrite <- seq_shift, map_map. apply map_ext. intros i. do 2 f_equal. lia.
Qed.

Lemma load_bytes_inv (m : region) (n : nat) (a : Z) (l : list Z) :
  load_bytes m a n = Some l -> n <> O ->
  0 <= a /\ a + Z.of_nat n <= size m.
Proof.
  revert a l. induction n as [|n IH]; intros a l H Hn; [done|].
  cbn [load_bytes] in H.
  destruct (load8 m a) as [b|] eqn:Hb; [|discriminate]. cbn in H.
  apply load8_Some in Hb as [Hb _].
  destruct (load_bytes m (a + 1) n) as [bs|] eqn:Hbs; [|discriminate].
  destruct n as [|n']; [lia|].
  apply IH in Hbs; [lia | done].
Qed.

Lemma le_decode_range (bs : list Z) :
  Forall (fun b => 0 <= b < 256) bs ->
  0 <= le_decode bs < 256 ^ Z.of_nat (length bs).
Proof.
  induction 1 as [|b bs Hb _ IH]; [cbn; lia|].
  cbn [le_decode length]. rewrite Nat2Z.inj_succ, Z.pow_succ_r by lia. lia.
Qed.

Lemma word_at_range (m : region) (a : Z) (n : nat) :
  0 <= word_at m a n < 256 ^ Z.of_nat n.
Proof.
  unfold word_at.
  set (l := map _ _).
  assert (Hl : length l = n) by (unfold l; by rewrite length_map, length_seq).
  assert (Hr : Forall (fun b => 0 <= b < 256) l).
  { unfold l. apply Forall_map, Forall_forall. intros i _. apply byte_val_range. }
  apply le_decode_range in Hr. rewrite Hl in Hr. exact Hr.
Qed.

Lemma le64_in_range (m : region) (a : Z) :
  0 <= a -> a + 8 <= size m -> le64 m a = Some (word_at m a 8).
Proof.
  intros Ha Hs. unfold le64. rewrite load_bytes_in_range by lia. reflexivity.
Qed.

Lemma le32_in_range (m : region) (a : Z) :
  0 <= a -> a + 4 <= size m -> le32 m a = Some (word_at m a 4).
Proof.
  intros Ha Hs. unfold le32. rewrite load_bytes_in_range by lia. reflexivity.
Qed.

Lemma le64_Some (m : region) (a v : Z) :
  le64 m a = Some v <-> (0 <= a /\ a + 8 <= size m /\ v = word_at m a 8).
Proof.
  split.
  - intros H. unfold le64 in H.
    destruct (load_bytes m a 8) as [l|] eqn:Hl; [|discriminate].
    apply load_bytes_inv in Hl as Hr; [|done]. destruct Hr as [H0 H8].
    rewrite load_bytes_in_range in Hl by lia.
    injection Hl as <-. injection H as <-. done.
  - intros (H0 & H8 & ->). by apply le64_in_range.
Qed.

Lemma le32_Some (m : region) (a v : Z) :
  le32 m a = Some v <-> (0 <= a /\ a + 4 <= size m /\ v = word_at m a 4).
Proof.
  split.
  - intros H. unfold le32 in H.
    destruct (load_bytes m a 4) as [l|] eqn:Hl; [|discriminate].
    apply load_bytes_inv in Hl as Hr; [|done]. destruct Hr as [H0 H8].
    rewrite load_bytes_in_range in Hl by lia.
    injection Hl as <-. injection H as <-. done.
  - intros (H0 & H8 & ->). by apply le32_in_range.
Qed.

Lemma deref_Returns {A : Type} (o : option A) (a : A) :
  deref o = Returns a <-> o = Some a.
Proof. destruct o; cbn; split; congruence. Qed.

(** What [parse] leaves in the object for the header words [s], [n], [e]. *)
Definition parsed (g : FileGraph) (s n e : Z) : FileGraph :=
  {| masterMapping := masterMapping g; masterLength := masterLength g;
     sizeEdgeTy := s; masterFD := masterFD g;
     outIdx := 32; outs := 32 + 8 * n;
     edgeData := 32 + 8 * n + 4 * e + (if e mod 2 =? 0 then 0 else 4);
     numEdges := e; numNodes := n |}.

Lemma parse_header (assertions : bool) (g : FileGraph) (m : region) :
  32 <= size m ->
  parse assertions g m
  = if assertions && negb (word_at m 0 8 =? 1) then Aborts
    else Returns (parsed g (word_at m 8 8) (word_at m 16 8) (word_at m 24 8)).
Proof.
  intros Hs. unfold parse.
  change (0 + 8 + 8 + 8 + 8) with 32. change (0 + 8 + 8 + 8) with 24.
  change (0 + 8 + 8) with 16. change (0 + 8) with 8.
  rewrite !le64_in_range by lia. cbn [deref mbind outcome_bind].
  destruct (assertions && negb (word_at m 0 8 =? 1)); [reflexivity|].
  unfold parsed.
  destruct (word_at m 24 8 mod 2 =? 0); cbn [negb]; do 2 f_equal; lia.
Qed.

Lemma parse_Returns_inv (assertions : bool) (g g' : FileGraph) (m : region) :
  parse assertions g m = Returns g' ->
  32 <= size m
  /\ g' = parsed g (word_at m 8 8) (word_at m 16 8) (word_at m 24 8)
  /\ (assertions = true -> word_at m 0 8 = 1).
Proof.
  intros H.
  assert (Hs : 32 <= size m).
  { unfold parse in H.
    change (0 + 8 + 8 + 8) with 24 in H.
    destruct (le64 m 0) as [v|]; cbn [deref mbind outcome_bind] in H; [|discriminate].
    destruct (assertions && negb (v =? 1)); [discriminate|].
    destruct (le64 m (0 + 8)) as [v1|]; cbn [deref mbind outcome_bind] in H; [|discriminate].
    destruct (le64 m (0 + 8 + 8)) as [v2|]; cbn [deref mbind outcome_bind] in H; [|discriminate].
    destruct (le64 m 24) as [v3|] eqn:H3; cbn [deref mbind outcome_bind] in H; [|discriminate].
    apply le64_Some in H3. lia. }
  split; [exact Hs|]. rewrite parse_header in H by exact Hs.
  destruct assertions; cbn [andb] in H.
  - destruct (Z.eqb_spec (word_at m 0 8) 1); cbn [negb] in H; [|discriminate].
    injection H as <-. done.
  - injection H as <-. done.
Qed.

(** *** Loading performs no validation (C1) *)

(** Three malformed files: an offset table that decreases, a header that
    announces 1000 nodes and 1000 edges in a file of 32 bytes, and a
    version field of 7. *)
Definition nonmonotone_image : region := graph_image 1 0 [1; 0] [0] [].

Definition truncated_image : region :=
  region_of_list (le_encode 8 1 ++ le_encode 8 0 ++ le_encode 8 1000 ++ le_encode 8 1000).

Definition version7_image : region := graph_image 7 0 [1] [0] [].

Definition malformed_fs : filesystem :=
  {| contents := fun name =>
       if String.eqb name "nonmonotone.gr" then Some nonmonotone_image
       else if String.eqb name "truncated.gr" then Some truncated_image
       else if String.eqb name "version7.gr" then Some version7_image
       else None;
     can_read := fun _ => true; can_write := fun _ => false;
     open_fds := [0; 1; 2; 3]; mapped_files := ["example.gr"%string];
     write_limit := 2147479552 |}.

(** What a successful load leaves in the object. *)
Definition loaded_from (g0 : FileGraph) (fd : Z) (m : region) : FileGraph :=
  set_masterMapping m
    (parsed (set_masterLength (size m) (set_masterFD fd g0))
            (word_at m 8 8) (word_at m 16 8) (word_at m 24 8)).

Lemma structureFromFile_header (assertions : bool) (fs : filesystem)
    (g0 : FileGraph) (name : string) (f : region) :
  can_read fs name = true -> contents fs name = Some f -> 32 <= size f ->
  structureFromFile assertions fs g0 name
  = if assertions && negb (word_at f 0 8 =? 1) then Aborts
    else Returns (loaded_from g0 (lowest_free (open_fds fs)) f).
Proof.
  intros Hr Hf Hs. unfold structureFromFile, open_rdonly. rewrite Hr, Hf.
  cbn [mbind option_bind].
  destruct (Z.leb_spec (size f) 0); [lia|].
  rewrite parse_header by exact Hs.
  by destruct (assertions && negb (word_at f 0 8 =? 1)).
Qed.

(** C1 (counterexample): with assertions compiled in, the load returns a
    FileGraph for a file whose offset table decreases (offsets 1, 0) and
    for a 32-byte file whose header announces 1000 nodes and 1000 edges;
    with assertions compiled out it also returns one for a file of
    version 7. *)
Lemma load_accepts_malformed_images :
  (exists g, structureFromFile true malformed_fs FileGraph_ctor "nonmonotone.gr" = Returns g
     /\ numNodes g = 2 /\ numEdges g = 1
     /\ outIdx_at g 0 = Returns 1 /\ outIdx_at g 1 = Returns 0)
  /\ (exists g, structureFromFile true malformed_fs FileGraph_ctor "truncated.gr" = Returns g
     /\ numNodes g = 1000 /\ numEdges g = 1000 /\ masterLength g = 32)
  /\ (exists g, structureFromFile false malformed_fs FileGraph_ctor "version7.gr" = Returns g
     /\ numNodes g = 1 /\ numEdges g = 1).
Proof.
  split; [|split]; eexists; (split; [vm_compute; reflexivity|]);
    repeat split; vm_compute; reflexivity.
Qed.

(** C1 (amended): the load validates nothing but the version field, and
    that by [assert] only.  For a file that holds the four header words
    it returns the FileGraph whose counts and table pointers are computed
    from the header, with the descriptor that [open] returned, whatever
    the offset table and the size of the file are, unless the version
    field differs from 1 and assertions are compiled in, in which case
    the process is aborted. *)
Theorem load_checks_version_only (assertions : bool) (fs : filesystem)
    (g0 : FileGraph) (name : string) (f : region) :
  can_read fs name = true -> contents fs name = Some f -> 32 <= size f ->
  structureFromFile assertions fs g0 name
  = if assertions && negb (word_at f 0 8 =? 1) then Aborts
    else Returns (loaded_from g0 (lowest_free (open_fds fs)) f).
Proof.
  intros Hr Hf Hs. unfold structureFromFile, open_rdonly. rewrite Hr, Hf.
  cbn [mbind option_bind].
  destruct (Z.leb_spec (size f) 0); [lia|].
  rewrite parse_header by exact Hs.
  by destruct (assertions && negb (word_at f 0 8 =? 1)).
Qed.

(** The file with the decreasing offset table, loaded by a process that
    holds the descriptors 0 to 3: the graph gets descriptor 4. *)
Lemma load_checks_version_only_witness :
  structureFromFile true malformed_fs FileGraph_ctor "nonmonotone.gr"
  = if true && negb (word_at nonmonotone_image 0 8 =? 1) then Aborts
    else Returns (loaded_from FileGraph_ctor (lowest_free (open_fds malformed_fs))
                              nonmonotone_image).
Proof.
  apply (load_checks_version_only true malformed_fs FileGraph_ctor "nonmonotone.gr");
    [reflexivity | reflexivity | vm_compute; discriminate].
Defined.

(** *** Loaded graphs and the write-then-load round trip (C5) *)

(** A graph is loaded when a load from a file, or from a buffer given with
    its true length, returned it. *)
Inductive loaded (assertions : bool) : FileGraph -> Prop :=
| loaded_from_file (fs : filesystem) (g0 : FileGraph) (name : string) (g : FileGraph) :
    structureFromFile assertions fs g0 name = Returns g -> loaded assertions g
| loaded_from_mem (g0 : FileGraph) (mem : region) (cl : bool) (g : FileGraph) :
    structureFromMem assertions g0 mem (size mem) cl = Returns g -> loaded assertions g.

(** The fields of a loaded graph, read off its mapping [m]. *)
Record image_of (assertions : bool) (g : FileGraph) (m : region) : Prop := {
  io_mapping : masterMapping g = Some m;
  io_length : masterLength g = size m;
  io_header : 32 <= size m;
  io_version : assertions = true -> word_at m 0 8 = 1;
  io_sizeEdgeTy : sizeEdgeTy g = word_at m 8 8;
  io_numNodes : numNodes g = word_at m 16 8;
  io_numEdges : numEdges g = word_at m 24 8;
  io_outIdx : outIdx g = 32;
  io_outs : outs g = 32 + 8 * numNodes g;
  io_edgeData : edgeData g = 32 + 8 * numNodes g + 4 * numEdges g
                             + (if numEdges g mod 2 =? 0 then 0 else 4)
}.




Lemma image_of_loaded_from (assertions : bool) (g0 : FileGraph) (fd : Z) (m : region) :
  32 <= size m -> (assertions = true -> word_at m 0 8 = 1) ->
  image_of assertions (loaded_from g0 fd m) m.
Proof. intros Hs Hv. by split. Qed.

Lemma loaded_image_of (assertions : bool) (g : FileGraph) :
  loaded assertions g -> exists m, image_of assertions g m.
Proof.
  intros [fs g0 name g' H | g0 mem cl g' H].
  - unfold structureFromFile, open_rdonly in H.
    destruct (can_read fs name); [|discriminate].
    destruct (contents fs name) as [f|]; [|discriminate].
    cbn [mbind option_bind] in H.
    destruct (size f <=? 0); [discriminate|].
    destruct (parse assertions _ f) as [g1| |] eqn:Hp; cbn in H; try discriminate.
    injection H as <-. apply parse_Returns_inv in Hp as (Hs & -> & Hv).
    exists f. by apply (image_of_loaded_from assertions g0 (lowest_free (open_fds fs)) f).
  - unfold structureFromMem in H. destruct cl.
    + destruct (size mem =? 0); [discriminate|].
      destruct (size mem <? size mem); [discriminate|].
      destruct (parse assertions _ _) as [g1| |] eqn:Hp; cbn in H; try discriminate.
      injection H as <-. apply parse_Returns_inv in Hp as (Hs & -> & Hv).
      exists (copy_bytes mem (size mem)). by split.
    + destruct (parse assertions _ _) as [g1| |] eqn:Hp; cbn in H; try discriminate.
      injection H as <-. apply parse_Returns_inv in Hp as (Hs & -> & Hv).
      exists mem. by split.
Qed.







(** The file that a load mapped is a mapped file of the process for as
    long as the model follows the process. *)
Lemma after_load_is_mapped (fs : filesystem) (name : string) :
  is_mapped (after_load fs name) name = true.
Proof. unfold is_mapped, after_load. cbn. by rewrite String.eqb_refl. Qed.

(** Writing a graph onto the file it was just loaded from is outside the
    model: the file is emptied under the mapping that [write] reads. *)
Lemma structureToFile_onto_source (assertions : bool) (fs : filesystem)
    (g0 g : FileGraph) (name : string) :
  structureFromFile assertions fs g0 name = Returns g ->
  structureToFile g name (after_load fs name)
  = if can_write fs name then Undefined else Aborts.
Proof.
  intros _. unfold structureToFile. rewrite after_load_is_mapped.
  cbn [after_load can_write]. by destruct (can_write fs name).
Qed.





(** *** Edge ranges and [hasNeighbor] on valid graphs (C6) *)

(** The invariants of the image: the offset table lies in the image and
    does not decrease, its last entry is the edge count, and the
    destination table lies in the image and names nodes of the graph. *)
Record wf_tables (g : FileGraph) : Prop := {
  wf_offsets : forall N, 0 <= N < numNodes g -> exists o, outIdx_at g N = Returns o;
  wf_monotone : forall N o o', 0 <= N -> N + 1 < numNodes g ->
      outIdx_at g N = Returns o -> outIdx_at g (N + 1) = Returns o' -> o <= o';
  wf_last : 0 < numNodes g -> outIdx_at g (numNodes g - 1) = Returns (numEdges g);
  wf_dests : forall e, 0 <= e < numEdges g ->
      exists d, outs_at g e = Returns d /\ d < numNodes g
}.

Definition valid (assertions : bool) (g : FileGraph) : Prop :=
  loaded assertions g /\ wf_tables g.

Lemma outIdx_at_Returns (assertions : bool) (g : FileGraph) (m : region) (N o : Z) :
  image_of assertions g m ->
  outIdx_at g N = Returns o <->
  (0 <= 32 + 8 * N /\ 32 + 8 * N + 8 <= size m /\ o = word_at m (32 + 8 * N) 8).
Proof.
  intros []. unfold outIdx_at. rewrite io_mapping0, io_outIdx0, deref_Returns.
  apply le64_Some.
Qed.

Lemma outs_at_Returns (assertions : bool) (g : FileGraph) (m : region) (i d : Z) :
  image_of assertions g m ->
  outs_at g i = Returns d <->
  (0 <= outs g + 4 * i /\ outs g + 4 * i + 4 <= size m
   /\ d = word_at m (outs g + 4 * i) 4).
Proof.
  intros []. unfold outs_at. rewrite io_mapping0, deref_Returns.
  apply le32_Some.
Qed.

Lemma wf_offsets_le (g : FileGraph) (k : nat) (N o o' : Z) :
  wf_tables g -> 0 <= N -> N + Z.of_nat k < numNodes g ->
  outIdx_at g N = Returns o -> outIdx_at g (N + Z.of_nat k) = Returns o' -> o <= o'.
Proof.
  intros Hwf HN. revert o'. induction k as [|k IH]; intros o' Hk Ho Ho'.
  - rewrite Z.add_0_r in Ho'. rewrite Ho in Ho'. injection Ho' as <-. lia.
  - destruct (wf_offsets g Hwf (N + Z.of_nat k)) as [o1 Ho1]; [lia|].
    assert (o <= o1) by (apply IH; [lia | done | done]).
    assert (o1 <= o'); [|lia].
    apply (wf_monotone g Hwf (N + Z.of_nat k)); [lia | lia | done |].
    rewrite <- Ho'. f_equal. lia.
Qed.

Lemma wf_offset_le_numEdges (g : FileGraph) (N o : Z) :
  wf_tables g -> 0 <= N < numNodes g -> outIdx_at g N = Returns o -> o <= numEdges g.
Proof.
  intros Hwf HN Ho.
  apply (wf_offsets_le g (Z.to_nat (numNodes g - 1 - N)) N); [done | lia | lia | done |].
  rewrite <- (wf_last g Hwf) by lia. f_equal. lia.
Qed.

Lemma edge_dsts_Returns (g : FileGraph) (count : nat) (b : Z) (f : Z -> Z) :
  (forall i, b <= i < b + Z.of_nat count -> outs_at g i = Returns (f i)) ->
  edge_dsts g b count = Returns (map f (seqZ b (Z.of_nat count))).
Proof.
  revert b. induction count as [|count IH]; intros b H; [reflexivity|].
  cbn [edge_dsts]. unfold getEdgeDst. rewrite H by lia. cbn [mbind outcome_bind].
  rewrite IH by (intros i Hi; apply H; lia). cbn [mbind outcome_bind].
  rewrite Nat2Z.inj_succ, (seqZ_cons b) by lia. cbn [map].
  rewrite Z.pred_succ. reflexivity.
Qed.

Lemma getEdgeIdx_loop_spec (g : FileGraph) (dst : Z) (fuel : nat) (ii ee : Z) :
  ii <= ee -> ee - ii < Z.of_nat fuel ->
  (forall i, ii <= i < ee -> exists d, outs_at g i = Returns d) ->
  exists r, getEdgeIdx_loop fuel g ii ee dst = Returns r
    /\ ((r = no_edge /\ forall i, ii <= i < ee -> outs_at g i <> Returns dst)
        \/ (ii <= r < ee /\ outs_at g r = Returns dst
            /\ forall i, ii <= i < r -> outs_at g i <> Returns dst)).
Proof.
  revert ii. induction fuel as [|fuel IH]; intros ii Hle Hf Hr; [lia|].
  cbn [getEdgeIdx_loop]. destruct (Z.eqb_spec ii ee) as [->|Hne].
  - exists no_edge. split; [reflexivity|]. left. split; [reflexivity | lia].
  - destruct (Hr ii) as [d Hd]; [lia|]. rewrite Hd. cbn [mbind outcome_bind].
    destruct (Z.eqb_spec d dst) as [->|Hdd].
    + exists ii. split; [reflexivity|]. right. repeat split; try done; lia.
    + destruct (IH (ii + 1)) as (r & Hl & Hcase); [lia | lia | intros; apply Hr; lia |].
      exists r. split; [exact Hl|].
      assert (Hii : outs_at g ii <> Returns dst) by (rewrite Hd; congruence).
      destruct Hcase as [[-> Hno] | (Hrange & Hfound & Hno)].
      * left. split; [reflexivity|]. intros i Hi.
        destruct (decide (i = ii)) as [->|]; [done | apply Hno; lia].
      * right. split; [lia|]. split; [done|]. intros i Hi.
        destruct (decide (i = ii)) as [->|]; [done | apply Hno; lia].
Qed.

(** The tables of a valid graph, read off its mapping [m]: entry [i] of
    the offset table, entry [k] of the destination table, and the first
    edge of node [i]. *)
Definition offset_of (m : region) (i : Z) : Z := word_at m (32 + 8 * i) 8.
Definition dest_of (m : region) (n k : Z) : Z := word_at m (32 + 8 * n + 4 * k) 4.
Definition first_edge (m : region) (i : Z) : Z :=
  if i =? 0 then 0 else offset_of m (i - 1).

Record tables (g : FileGraph) (m : region) : Prop := {
  tb_mapping : masterMapping g = Some m;
  tb_length : masterLength g = size m;
  tb_nodes : 0 <= numNodes g < 2 ^ 64;
  tb_edges : 0 <= numEdges g < 2 ^ 64;
  tb_off : forall i, 0 <= i < numNodes g -> outIdx_at g i = Returns (offset_of m i);
  tb_dst : forall k, 0 <= k < numEdges g ->
      outs_at g k = Returns (dest_of m (numNodes g) k);
  tb_range : forall i, 0 <= i < numNodes g ->
      0 <= first_edge m i <= offset_of m i /\ offset_of m i <= numEdges g;
  tb_last : 0 < numNodes g -> offset_of m (numNodes g - 1) = numEdges g;
  tb_dst_range : forall k, 0 <= k < numEdges g ->
      0 <= dest_of m (numNodes g) k < numNodes g;
  tb_fits : 4 * numEdges g <= size m
}.

Lemma valid_tables (assertions : bool) (g : FileGraph) :
  valid assertions g -> exists m, tables g m.
Proof.
  intros [Hl Hwf]. apply loaded_image_of in Hl as [m Him]. exists m.
  pose proof Him as [].
  assert (Hoff : forall i, 0 <= i < numNodes g -> outIdx_at g i = Returns (offset_of m i)).
  { intros i Hi. destruct (wf_offsets g Hwf i Hi) as [o Ho]. rewrite Ho.
    apply (outIdx_at_Returns _ _ _ _ _ Him) in Ho as (_ & _ & ->). done. }
  assert (Hdst : forall k, 0 <= k < numEdges g ->
            outs_at g k = Returns (dest_of m (numNodes g) k)).
  { intros k Hk. destruct (wf_dests g Hwf k Hk) as (d & Hd & _).
    rewrite Hd. apply (outs_at_Returns _ _ _ _ _ Him) in Hd as (_ & _ & ->).
    unfold dest_of. by rewrite io_outs0. }
  assert (Hn : 0 <= numNodes g < 2 ^ 64).
  { rewrite io_numNodes0. apply (word_at_range m 16 8). }
  assert (He : 0 <= numEdges g < 2 ^ 64).
  { rewrite io_numEdges0. apply (word_at_range m 24 8). }
  split; try done.
  - intros i Hi. split.
    + unfold first_edge. destruct (Z.eqb_spec i 0) as [->|Hne].
      * split; [lia | apply word_at_range].
      * split; [apply word_at_range|].
        apply (wf_offsets_le g 1 (i - 1)); [done | lia | lia | apply Hoff; lia |].
        rewrite <- Hoff by lia. f_equal. lia.
    + apply (wf_offset_le_numEdges g i); [done | done | by apply Hoff].
  - intros Hpos. pose proof (wf_last g Hwf Hpos) as Hlast.
    rewrite Hoff in Hlast by lia. by injection Hlast.
  - intros k Hk. destruct (wf_dests g Hwf k Hk) as (d & Hd & Hlt).
    rewrite Hdst in Hd by done. injection Hd as <-.
    split; [apply word_at_range | done].
  - destruct (decide (numEdges g = 0)) as [->|Hne]; [lia|].
    destruct (wf_dests g Hwf (numEdges g - 1)) as (d & Hd & _); [lia|].
    apply (outs_at_Returns _ _ _ _ _ Him) in Hd as (_ & Hd & _). lia.
Qed.

Lemma tables_neighbors (g : FileGraph) (m : region) (i : Z) :
  tables g m -> 0 <= i < numNodes g ->
  neighbors g i
  = Returns (map (dest_of m (numNodes g))
                 (seqZ (first_edge m i) (offset_of m i - first_edge m i))).
Proof.
  intros Ht Hi. destruct (tb_range g m Ht i Hi) as [Hr He].
  unfold neighbors, edge_end. rewrite (tb_off g m Ht i Hi).
  assert (Hb : edge_begin g i = Returns (first_edge m i)).
  { unfold edge_begin, first_edge. destruct (Z.eqb_spec i 0); [done|].
    apply (tb_off g m Ht). lia. }
  rewrite Hb. cbn [mbind outcome_bind].
  destruct (Z.ltb_spec (offset_of m i) (first_edge m i)); [lia|].
  rewrite (edge_dsts_Returns g _ _ (dest_of m (numNodes g))).
  - by rewrite Z2Nat.id by lia.
  - intros k Hk. apply (tb_dst g m Ht). lia.
Qed.

(** The example graph, loaded, is valid. *)
Lemma example_valid :
  valid true (loaded_from FileGraph_ctor 3 example_image).
Proof.
  split.
  - apply (loaded_from_file true example_fs FileGraph_ctor "example.gr").
    vm_compute. reflexivity.
  - split.
    + intros N HN. change (numNodes _) with 4 in HN.
      assert (N = 0 \/ N = 1 \/ N = 2 \/ N = 3) as [->|[->|[->| ->]]] by lia;
        eexists; vm_compute; reflexivity.
    + intros N o o' H0 HN. change (numNodes _) with 4 in HN.
      assert (N = 0 \/ N = 1 \/ N = 2) as [->|[->| ->]] by lia;
        vm_compute; intros [= <-] [= <-]; discriminate.
    + intros _. vm_compute. reflexivity.
    + intros e He. change (numEdges _) with 4 in He. change (numNodes _) with 4.
      assert (e = 0 \/ e = 1 \/ e = 2 \/ e = 3) as [->|[->|[->| ->]]] by lia;
        eexists; split; try (vm_compute; reflexivity); lia.
Qed.




(** C6: in a valid graph with mapping [m], the out-edges of a node [N]
    below the node count are the indices from [b] (0 for node 0, the
    offset-table entry [N - 1] otherwise) up to but excluding [e] (the
    entry [N]); [edge_begin] returns [b] and [edge_end] returns [e], with
    [0 <= b <= e <= numEdges]; walking the range yields the destination
    words in stored order; and [hasNeighbor(N, dst)] returns true exactly
    when some index of the range has destination [dst].  For the graph
    with four nodes and edges (0,1), (0,2), (1,2), (2,3), written and
    loaded again: [size()] is 4, [sizeEdges()] is 4, the destinations of
    node 0 are 1 then 2, [hasNeighbor(2,3)] is true and [hasNeighbor(3,0)]
    is false. *)
Theorem edge_range_and_hasNeighbor :
  (forall (assertions : bool) (g : FileGraph) (m : region) (N : Z),
     valid assertions g -> masterMapping g = Some m -> 0 <= N < numNodes g ->
     let b := if N =? 0 then 0 else word_at m (32 + 8 * (N - 1)) 8 in
     let e := word_at m (32 + 8 * N) 8 in
     edge_begin g N = Returns b
     /\ edge_end g N = Returns e
     /\ 0 <= b <= e /\ e <= numEdges g
     /\ neighbors g N
        = Returns (map (fun i => word_at m (32 + 8 * numNodes g + 4 * i) 4)
                       (seqZ b (e - b)))
     /\ forall dst, exists r, hasNeighbor g N dst = Returns r
          /\ (r = true <-> exists i, b <= i < e /\ getEdgeDst g i = Returns dst))
  /\ (exists (g : FileGraph) (fs' : filesystem) (g' : FileGraph),
        structureFromFile true example_fs FileGraph_ctor "example.gr" = Returns g
        /\ structureToFile g "copy.gr" example_fs = Returns fs'
        /\ structureFromFile true fs' FileGraph_ctor "copy.gr" = Returns g'
        /\ size_ g' = 4 /\ sizeEdges g' = 4
        /\ neighbors g' 0 = Returns [1; 2]
        /\ hasNeighbor g' 2 3 = Returns true
        /\ hasNeighbor g' 3 0 = Returns false).
Proof.
  split.
  - intros assertions g m N Hv Hm HN b e.
    destruct (valid_tables assertions g Hv) as [m' Ht].
    assert (m' = m) as -> by (destruct Ht; congruence).
    destruct (tb_range g m Ht N HN) as [Hbe HeE].
    change (0 <= b <= e) in Hbe. change (e <= numEdges g) in HeE.
    assert (He : outIdx_at g N = Returns e) by (by apply (tb_off g m Ht)).
    assert (Hb : edge_begin g N = Returns b).
    { unfold edge_begin, b. destruct (Z.eqb_spec N 0); [done|].
      apply (tb_off g m Ht). lia. }
    split; [exact Hb|]. split; [exact He|]. split; [exact Hbe|]. split; [exact HeE|].
    split; [by apply tables_neighbors|].
    intros dst. unfold hasNeighbor, getEdgeIdx, raw_neighbor_end.
    change (raw_neighbor_begin g N) with (edge_begin g N). rewrite Hb, He.
    cbn [mbind outcome_bind].
    destruct (getEdgeIdx_loop_spec g dst (S (Z.to_nat (masterLength g))) b e)
      as (r & Hloop & Hcase).
    + lia.
    + pose proof (tb_fits g m Ht). rewrite (tb_length g m Ht). lia.
    + intros i Hi. eexists. apply (tb_dst g m Ht). lia.
    + rewrite Hloop. cbn [mbind outcome_bind]. eexists. split; [reflexivity|].
      unfold getEdgeDst.
      destruct Hcase as [[-> Hno] | (Hrange & Hfound & _)].
      * rewrite Z.eqb_refl. cbn. split; [discriminate|].
        intros (i & Hi & Hd). by apply Hno in Hd.
      * assert (r <> no_edge).
        { pose proof (tb_edges g m Ht). unfold no_edge. lia. }
        destruct (Z.eqb_spec r no_edge); [contradiction|]. cbn.
        split; [|reflexivity]. intros _. exists r. done.
  - eexists. eexists. eexists.
    split; [vm_compute; reflexivity|].
    split; [vm_compute; reflexivity|].
    split; [vm_compute; reflexivity|].
    repeat split; vm_compute; reflexivity.
Qed.

(** Node 2 of the example graph. *)
Lemma edge_range_and_hasNeighbor_witness :
  let g := loaded_from FileGraph_ctor 3 example_image in
  let m := example_image in
  let b := if 2 =? 0 then 0 else word_at m (32 + 8 * (2 - 1)) 8 in
  let e := word_at m (32 + 8 * 2) 8 in
  edge_begin g 2 = Returns b
  /\ edge_end g 2 = Returns e
  /\ 0 <= b <= e /\ e <= numEdges g
  /\ neighbors g 2
     = Returns (map (fun i => word_at m (32 + 8 * numNodes g + 4 * i) 4)
                    (seqZ b (e - b)))
  /\ forall dst, exists r, hasNeighbor g 2 dst = Returns r
       /\ (r = true <-> exists i, b <= i < e /\ getEdgeDst g i = Returns dst).
Proof.
  apply (proj1 edge_range_and_hasNeighbor true).
  - exact example_valid.
  - reflexivity.
  - vm_compute. split; [discriminate | reflexivity].
Defined.

(** *** The edge ranges of a valid graph, taken together *)

Section Tables.

Variable g : FileGraph.
Variable m : region.
Hypothesis Ht : tables g m.

Lemma first_edge_succ (i : Z) : 0 <= i -> first_edge m (i + 1) = offset_of m i.
Proof.
  intros Hi. unfold first_edge. destruct (Z.eqb_spec (i + 1) 0); [lia|].
  f_equal. lia.
Qed.

Lemma tables_edge_begin (i : Z) :
  0 <= i <= numNodes g -> edge_begin g i = Returns (first_edge m i).
Proof.
  intros Hi. unfold edge_begin, first_edge. destruct (Z.eqb_spec i 0); [done|].
  apply (tb_off g m Ht). lia.
Qed.

Lemma first_edge_mono (k : nat) (i : Z) :
  0 <= i -> i + Z.of_nat k <= numNodes g ->
  0 <= first_edge m i <= first_edge m (i + Z.of_nat k).
Proof.
  intros Hi. induction k as [|k IH]; intros Hk.
  - rewrite Z.add_0_r. destruct (Z.eqb_spec i 0) as [->|Hne]; [done|].
    destruct (tb_range g m Ht (i - 1)) as [[H0 H1] _]; [lia|].
    rewrite <- (first_edge_succ (i - 1)) in H1 by lia.
    replace (i - 1 + 1) with i in H1 by lia. lia.
  - destruct (tb_range g m Ht (i + Z.of_nat k)) as [[H0 H1] _]; [lia|].
    rewrite <- first_edge_succ in H1 by lia.
    replace (i + Z.of_nat (S k)) with (i + Z.of_nat k + 1) by lia. lia.
Qed.

Lemma first_edge_last : first_edge m (numNodes g) = numEdges g.
Proof.
  pose proof (tb_nodes g m Ht) as Hn. pose proof (tb_edges g m Ht) as He.
  destruct (decide (numNodes g = 0)) as [Hz|Hz].
  - rewrite Hz. change (first_edge m 0) with 0.
    destruct (decide (numEdges g = 0)) as [|HE]; [done|].
    destruct (tb_dst_range g m Ht 0); lia.
  - replace (numNodes g) with (numNodes g - 1 + 1) at 1 by lia.
    rewrite first_edge_succ by lia. apply (tb_last g m Ht). lia.
Qed.

Lemma tables_neighborsSize (i : Z) :
  0 <= i < numNodes g ->
  neighborsSize g i = Returns (offset_of m i - first_edge m i).
Proof.
  intros Hi. destruct (tb_range g m Ht i Hi) as [Hr He].
  pose proof (tb_edges g m Ht).
  unfold neighborsSize, raw_neighbor_end.
  change (raw_neighbor_begin g i) with (edge_begin g i).
  rewrite tables_edge_begin, (tb_off g m Ht i Hi) by lia.
  cbn [mbind outcome_bind]. f_equal. apply Z.mod_small. lia.
Qed.

Lemma degrees_telescope (k : nat) (i : Z) :
  0 <= i -> i + Z.of_nat k <= numNodes g ->
  foldr Z.add 0 ((fun j => offset_of m j - first_edge m j) <$> seqZ i (Z.of_nat k))
  = first_edge m (i + Z.of_nat k) - first_edge m i.
Proof.
  revert i. induction k as [|k IH]; intros i Hi Hk.
  - rewrite seqZ_nil by lia. cbn [fmap list_fmap foldr]. rewrite Z.add_0_r. lia.
  - rewrite seqZ_cons by lia. cbn [fmap list_fmap foldr].
    replace (Z.pred (Z.of_nat (S k))) with (Z.of_nat k) by lia.
    replace (Z.succ i) with (i + 1) by lia.
    rewrite IH by lia. rewrite first_edge_succ by lia.
    replace (i + 1 + Z.of_nat k) with (i + Z.of_nat (S k)) by lia. lia.
Qed.

(** The node whose range holds the edge [e], among the first [k]. *)
Lemma edge_owner (e : Z) (k : nat) :
  Z.of_nat k <= numNodes g -> 0 <= e < first_edge m (Z.of_nat k) ->
  exists N, 0 <= N < Z.of_nat k /\ first_edge m N <= e < offset_of m N.
Proof.
  induction k as [|k IH]; intros Hk He.
  - change (first_edge m (Z.of_nat 0)) with 0 in He. lia.
  - destruct (Z.lt_ge_cases e (first_edge m (Z.of_nat k))) as [Hlt|Hge].
    + destruct IH as (N & HN & Hr); [lia | lia |]. exists N. split; [lia | done].
    + exists (Z.of_nat k). split; [lia|]. split; [done|].
      rewrite <- first_edge_succ by lia.
      replace (Z.of_nat k + 1) with (Z.of_nat (S k)) by lia. lia.
Qed.

Lemma edge_ranges_ordered (N N' : Z) :
  0 <= N -> N < N' -> N' <= numNodes g -> offset_of m N <= first_edge m N'.
Proof.
  intros H0 Hlt Hn. rewrite <- first_edge_succ by lia.
  pose proof (first_edge_mono (Z.to_nat (N' - (N + 1))) (N + 1) ltac:(lia) ltac:(lia)) as H.
  replace (N + 1 + Z.of_nat (Z.to_nat (N' - (N + 1)))) with N' in H by lia. lia.
Qed.

End Tables.

(** X3: in a valid graph the sizes of the neighbour lists of all nodes,
    as [neighborsSize] returns them, add up to the edge count. *)
Theorem degrees_sum_to_numEdges (assertions : bool) (g : FileGraph) :
  valid assertions g ->
  exists ds : list Z,
    Forall2 (fun N d => neighborsSize g N = Returns d) (seqZ 0 (numNodes g)) ds
    /\ foldr Z.add 0 ds = numEdges g.
Proof.
  intros Hv. destruct (valid_tables assertions g Hv) as [m Ht].
  pose proof (tb_nodes g m Ht) as Hn.
  exists ((fun j => offset_of m j - first_edge m j) <$> seqZ 0 (numNodes g)). split.
  - apply Forall2_fmap_r, Forall_Forall2_diag, Forall_forall.
    intros N HN%elem_of_seqZ. apply (tables_neighborsSize g m Ht). lia.
  - pose proof (degrees_telescope g m (Z.to_nat (numNodes g)) 0) as H.
    rewrite Z2Nat.id, Z.add_0_l in H by lia. rewrite H by lia.
    rewrite (first_edge_last g m Ht). change (first_edge m 0) with 0. lia.
Qed.

Lemma degrees_sum_to_numEdges_witness :
  let g := loaded_from FileGraph_ctor 3 example_image in
  exists ds : list Z,
    Forall2 (fun N d => neighborsSize g N = Returns d) (seqZ 0 (numNodes g)) ds
    /\ foldr Z.add 0 ds = numEdges g.
Proof. apply (degrees_sum_to_numEdges true). exact example_valid. Defined.

(** X4: in a valid graph every edge index below the edge count lies in
    the range from [edge_begin] to [edge_end] of exactly one node. *)
Theorem edge_ranges_partition (assertions : bool) (g : FileGraph) (e : Z) :
  valid assertions g -> 0 <= e < numEdges g ->
  exists N, 0 <= N < numNodes g
    /\ (exists b e', edge_begin g N = Returns b /\ edge_end g N = Returns e'
                     /\ b <= e < e')
    /\ forall N' b e', 0 <= N' < numNodes g ->
         edge_begin g N' = Returns b -> edge_end g N' = Returns e' ->
         b <= e < e' -> N' = N.
Proof.
  intros Hv He. destruct (valid_tables assertions g Hv) as [m Ht].
  pose proof (tb_nodes g m Ht) as Hn.
  destruct (edge_owner g m e (Z.to_nat (numNodes g))) as (N & HN & Hr).
  { lia. }
  { rewrite Z2Nat.id by lia. rewrite (first_edge_last g m Ht). lia. }
  exists N. split; [lia|]. split.
  - exists (first_edge m N), (offset_of m N).
    split; [apply (tables_edge_begin g m Ht); lia|].
    split; [apply (tb_off g m Ht); lia | done].
  - intros N' b e' HN' Hb He' Hr'.
    rewrite (tables_edge_begin g m Ht) in Hb by lia. injection Hb as <-.
    unfold edge_end in He'. rewrite (tb_off g m Ht) in He' by lia. injection He' as <-.
    destruct (Z.lt_trichotomy N' N) as [Hlt | [Heq | Hgt]]; [|done|].
    + pose proof (edge_ranges_ordered g m Ht N' N ltac:(lia) Hlt ltac:(lia)). lia.
    + pose proof (edge_ranges_ordered g m Ht N N' ltac:(lia) Hgt ltac:(lia)). lia.
Qed.

Lemma edge_ranges_partition_witness :
  let g := loaded_from FileGraph_ctor 3 example_image in
  exists N, 0 <= N < numNodes g
    /\ (exists b e', edge_begin g N = Returns b /\ edge_end g N = Returns e'
                     /\ b <= 2 < e')
    /\ forall N' b e', 0 <= N' < numNodes g ->
         edge_begin g N' = Returns b -> edge_end g N' = Returns e' ->
         b <= 2 < e' -> N' = N.
Proof.
  apply (edge_ranges_partition true).
  - exact example_valid.
  - vm_compute. split; [discriminate | reflexivity].
Defined.

(** X5: on a node of a valid graph [getEdgeIdx(src, dst)] returns the
    index of the first edge of the range of [src] whose destination is
    [dst], and the value [~0], which is no edge index, when the range has
    no such edge. *)
Theorem getEdgeIdx_first_match (assertions : bool) (g : FileGraph) (src dst : Z) :
  valid assertions g -> 0 <= src < numNodes g ->
  exists b e r,
    edge_begin g src = Returns b /\ edge_end g src = Returns e
    /\ getEdgeIdx g src dst = Returns r
    /\ ((r = no_edge /\ forall i, b <= i < e -> getEdgeDst g i <> Returns dst)
        \/ (b <= r < e /\ r <> no_edge /\ getEdgeDst g r = Returns dst
            /\ forall i, b <= i < r -> getEdgeDst g i <> Returns dst)).
Proof.
  intros Hv HN. destruct (valid_tables assertions g Hv) as [m Ht].
  destruct (tb_range g m Ht src HN) as [Hbe HeE].
  pose proof (tb_edges g m Ht) as HE.
  exists (first_edge m src), (offset_of m src).
  assert (Hb : edge_begin g src = Returns (first_edge m src))
    by (apply (tables_edge_begin g m Ht); lia).
  assert (He : outIdx_at g src = Returns (offset_of m src)) by (by apply (tb_off g m Ht)).
  destruct (getEdgeIdx_loop_spec g dst (S (Z.to_nat (masterLength g)))
              (first_edge m src) (offset_of m src)) as (r & Hloop & Hcase).
  - lia.
  - pose proof (tb_fits g m Ht). rewrite (tb_length g m Ht). lia.
  - intros i Hi. eexists. apply (tb_dst g m Ht). lia.
  - exists r. split; [exact Hb|]. split; [exact He|]. split.
    + unfold getEdgeIdx, raw_neighbor_end.
      change (raw_neighbor_begin g src) with (edge_begin g src).
      rewrite Hb, He. exact Hloop.
    + unfold getEdgeDst. destruct Hcase as [[-> Hno] | (Hrange & Hfound & Hfirst)].
      * by left.
      * right. split; [done|]. split; [unfold no_edge; lia | done].
Qed.

Lemma getEdgeIdx_first_match_witness :
  let g := loaded_from FileGraph_ctor 3 example_image in
  exists b e r,
    edge_begin g 0 = Returns b /\ edge_end g 0 = Returns e
    /\ getEdgeIdx g 0 2 = Returns r
    /\ ((r = no_edge /\ forall i, b <= i < e -> getEdgeDst g i <> Returns 2)
        \/ (b <= r < e /\ r <> no_edge /\ getEdgeDst g r = Returns 2
            /\ forall i, b <= i < r -> getEdgeDst g i <> Returns 2)).
Proof.
  apply (getEdgeIdx_first_match true).
  - exact example_valid.
  - vm_compute. split; [discriminate | reflexivity].
Defined.

(** *** Copies, graphs that were never loaded, and the payload table *)






(** X7: a FileGraph that was never loaded has no image: [clone] of it
    aborts ([mmap] of length 0 fails), and [structureToFile], on a name
    that can be opened for writing and backs no mapping, returns and
    leaves an empty file, whatever the file held before; no graph can be
    loaded from that file. *)
Theorem unloaded_graph_has_no_image (assertions : bool) (fs : filesystem)
    (g0 : FileGraph) (file : string) :
  can_write fs file = true -> is_mapped fs file = false ->
  clone assertions g0 FileGraph_ctor = Aborts
  /\ exists fs' f, structureToFile FileGraph_ctor file fs = Returns fs'
       /\ contents fs' file = Some f /\ size f = 0
       /\ forall assertions' g1, structureFromFile assertions' fs' g1 file = Aborts.
Proof.
  intros Hw Hm. split; [reflexivity|].
  eexists. eexists. split.
  { unfold structureToFile. rewrite Hw, Hm. cbn [negb FileGraph_ctor masterLength].
    replace (Z.min 0 (Z.max 0 (write_limit fs))) with 0 by lia. reflexivity. }
  cbn [set_contents contents]. rewrite String.eqb_refl.
  split; [reflexivity|]. split; [reflexivity|].
  intros assertions' g1. unfold structureFromFile, open_rdonly. cbn [set_contents contents can_read].
  rewrite String.eqb_refl. by destruct (can_read fs file).
Qed.

Lemma unloaded_graph_has_no_image_witness :
  clone true FileGraph_ctor FileGraph_ctor = Aborts
  /\ exists fs' f, structureToFile FileGraph_ctor "example.gr" example_fs = Returns fs'
       /\ contents fs' "example.gr" = Some f /\ size f = 0
       /\ forall assertions' g1,
            structureFromFile assertions' fs' g1 "example.gr" = Aborts.
Proof.
  apply (unloaded_graph_has_no_image true example_fs FileGraph_ctor "example.gr");
    reflexivity.
Defined.

(** X8: in a loaded graph the offset table starts behind the four header
    words, the destination table behind the offset table, and the payload
    table behind the destination table, after four bytes of padding if
    the edge count is odd; the payload table starts at a multiple of
    eight bytes from the start of the image. *)
Theorem payload_table_aligned (assertions : bool) (g : FileGraph) :
  loaded assertions g ->
  outIdx g = 32
  /\ outs g = outIdx g + 8 * numNodes g
  /\ edgeData g = outs g + 4 * numEdges g + (if Z.odd (numEdges g) then 4 else 0)
  /\ edgeData g mod 8 = 0.
Proof.
  intros Hl. apply loaded_image_of in Hl as [m []].
  split; [done|]. split; [lia|].
  pose proof (Z.div_mod (numEdges g) 2 ltac:(lia)) as Hd.
  pose proof (Zmod_odd (numEdges g)) as Ho.
  rewrite io_edgeData0, io_outs0.
  destruct (Z.odd (numEdges g)); rewrite Ho; cbn [Z.eqb Pos.eqb].
  - split; [lia|].
    replace (32 + 8 * numNodes g + 4 * numEdges g + 4)
      with ((5 + numNodes g + numEdges g / 2) * 8) by lia.
    apply Z_mod_mult.
  - split; [lia|].
    replace (32 + 8 * numNodes g + 4 * numEdges g + 0)
      with ((4 + numNodes g + numEdges g / 2) * 8) by lia.
    apply Z_mod_mult.
Qed.

Lemma payload_table_aligned_witness :
  let g := loaded_from FileGraph_ctor 3 example_image in
  outIdx g = 32
  /\ outs g = outIdx g + 8 * numNodes g
  /\ edgeData g = outs g + 4 * numEdges g + (if Z.odd (numEdges g) then 4 else 0)
  /\ edgeData g mod 8 = 0.
Proof. apply (payload_table_aligned true). exact (proj1 example_valid). Defined.

End FileGraph.

(* ===================================================================== *)
(** ** InsBag.h : the insert bag *)
(* ===================================================================== *)

Module InsBag.

(** A [header*] is the number of the page it heads ([None] for null): the
    page allocator hands out page [0], [1], ...  A [T*] into a page is the
    index [k] of [&a[k]], where [a] is the page seen as an array of [T];
    the byte at which slot [k] starts is [k * sizeof(T)] from the page's
    base. *)

(** [struct header { header* next; T* dbegin; T* dend; T* dlast; }] *)
Record header := mkHeader {
  next : option nat;
  dbegin : Z;
  dend : Z;
  dlast : Z
}.

Section Bag.

(** The element type, and the three sizes the layout depends on:
    [MM::pageSize], [sizeof(T)] and [sizeof(header)]. *)
Variable T : Type.
Variables pageSize sizeof_T sizeof_header : Z.

(** A page from [MM::pageAlloc()]: the header at its start, the [T]
    objects constructed in it (by slot), and whether [MM::pageFree] took it
    back. *)
Record page := mkPage {
  hdr : header;
  cells : Z -> option T;
  freed : bool
}.

(** [class galois_insert_bag]: [PerCPU<header*> heads], one slot per
    worker.  With it, the pages allocated so far and the log of
    destructor calls [ii->~T()]. *)
Record bag := mkBag {
  heads : list (option nat);
  pages : list page;
  destroyed : list T
}.

(** [galois_insert_bag()]: every worker's head is null. *)
Definition galois_insert_bag_ctor (workers : nat) : bag :=
  {| heads := replicate workers None; pages := []; destroyed := [] |}.

Definition set_next (n : option nat) (pg : page) : page :=
  {| hdr := {| next := n; dbegin := dbegin (hdr pg);
               dend := dend (hdr pg); dlast := dlast (hdr pg) |};
     cells := cells pg; freed := freed pg |}.

(** [insHeader(h)], on worker [tid]:
<<
  header*& H = heads.get();
  h->next = H;
  H = h;
>> *)
Definition insHeader (tid : nat) (h : nat) (b : bag) : option bag :=
  H ← heads b !! tid;
  pg ← pages b !! h;
  Some {| heads := <[tid := Some h]> (heads b);
          pages := <[h := set_next H pg]> (pages b);
          destroyed := destroyed b |}.

(** [newHeader()]:
<<
  void* m = MM::pageAlloc();
  header* H = new (m) header();
  int offset = 1;
  if (sizeof(T) < sizeof(header)) offset += sizeof(header)/sizeof(T);
  T* a = reinterpret_cast<T*>(m);
  H->dbegin = &a[offset];
  H->dend = H->dbegin;
  H->dlast = &a[(MM::pageSize / sizeof(T))];
  H->next = 0;
  return H;
>> *)
Definition first_slot : Z :=
  let offset := 1 in
  if sizeof_T <? sizeof_header then offset + sizeof_header / sizeof_T else offset.

Definition last_slot : Z := pageSize / sizeof_T.

Definition fresh_header : header :=
  {| next := None; dbegin := first_slot; dend := first_slot; dlast := last_slot |}.

Definition newHeader (b : bag) : nat * bag :=
  let m := length (pages b) in
  (m, {| heads := heads b;
         pages := pages b ++ [{| hdr := fresh_header; cells := fun _ => None; freed := false |}];
         destroyed := destroyed b |}).

(** [new (H->dend) T(val); H->dend++] on the page [pg].  The object is
    recorded under its slot index whether or not the slot lies inside the
    page: the code does not compare [dend] with the end of the page here,
    and [objects_in_pages] below says when the slots do lie inside. *)
Definition construct_at_dend (val : T) (pg : page) : page :=
  {| hdr := {| next := next (hdr pg); dbegin := dbegin (hdr pg);
               dend := dend (hdr pg) + 1; dlast := dlast (hdr pg) |};
     cells := fun k => if k =? dend (hdr pg) then Some val else cells pg k;
     freed := freed pg |}.

(** [push(val)], on worker [tid]:
<<
  header* H = heads.get();
  T* rv;
  if (!H || H->dend == H->dlast) {
    H = newHeader();
    insHeader(H);
  }
  rv = new (H->dend) T(val);
  H->dend++;
  return *rv;
>>
    [None] when the worker has no slot in [heads] or a pointer dangles. *)
Definition needs_segment (b : bag) (H : option nat) : option bool :=
  match H with
  | None => Some true
  | Some h => pg ← pages b !! h; Some (dend (hdr pg) =? dlast (hdr pg))
  end.

Definition push (tid : nat) (val : T) (b : bag) : option bag :=
  H ← heads b !! tid;
  full ← needs_segment b H;
  '(H, b) ← (if (full : bool) then
               let '(h, b1) := newHeader b in
               b2 ← insHeader tid h b1;
               Some (Some h, b2)
             else Some (H, b));
  h ← H;
  pg ← pages b !! h;
  Some {| heads := heads b;
          pages := <[h := construct_at_dend val pg]> (pages b);
          destroyed := destroyed b |}.

(** The inner loop of [destruct()],
    [for (T* ii = h->dbegin, *ee = h->dend; ii != ee; ++ii) ii->~T();]
    over the slots [ks]. *)
Fixpoint destroy_slots (ks : list Z) (c : Z -> option T) (log : list T)
  : option ((Z -> option T) * list T) :=
  match ks with
  | [] => Some (c, log)
  | k :: ks' =>
      x ← c k;
      destroy_slots ks' (fun j => if j =? k then None else c j) (log ++ [x])
  end.

(** One round of the outer loop of [destruct()], for worker [x]:
<<
  header* h = heads.get(x);
  if (h) {
    heads.get(x) = h->next;
    for (T* ii = h->dbegin, *ee = h->dend; ii != ee; ++ii) ii->~T();
    MM::pageFree(h);
  }
>> *)
Definition destruct_worker (x : nat) (b : bag) : option bag :=
  h ← heads b !! x;
  match h with
  | None => Some b
  | Some h =>
      pg ← pages b !! h;
      if freed pg then None else
      if dend (hdr pg) <? dbegin (hdr pg) then None else
      '(c, log) ← destroy_slots
                    (seqZ (dbegin (hdr pg)) (dend (hdr pg) - dbegin (hdr pg)))
                    (cells pg) (destroyed b);
      Some {| heads := <[x := next (hdr pg)]> (heads b);
              pages := <[h := {| hdr := hdr pg; cells := c; freed := true |}]> (pages b);
              destroyed := log |}
  end.

Fixpoint for_each (f : nat -> bag -> option bag) (xs : list nat) (b : bag) : option bag :=
  match xs with
  | [] => Some b
  | x :: xs' => b' ← f x b; for_each f xs' b'
  end.

(** [destruct()]: [for (unsigned x = 0; x < heads.size(); ++x) ...] *)
Definition destruct_ (b : bag) : option bag :=
  for_each destruct_worker (seq 0 (length (heads b))) b.

(** [clear()]:
<<
  destruct();
  for (unsigned i = 0; i < heads.size(); ++i) heads.get(i) = 0;
>> *)
Definition clear (b : bag) : option bag :=
  b ← destruct_ b;
  for_each (fun i b => Some {| heads := <[i := None]> (heads b);
                               pages := pages b;
                               destroyed := destroyed b |})
           (seq 0 (length (heads b))) b.

(** [class iterator]: [thr], [p], [v] ([hd] is the bag's [heads]); [v] is
    [0] when [p] is null. *)
Record iterator := mkIterator {
  thr : nat;
  p : option nat;
  v : Z
}.

Definition iterator_eqb (a b : iterator) : bool :=
  Nat.eqb (thr a) (thr b)
  && match p a, p b with
     | Some x, Some y => Nat.eqb x y
     | None, None => true
     | _, _ => false
     end
  && (v a =? v b).

(** [init_thread()]:
<<
  p = thr < hd->size() ? hd->get(thr) : 0;
  v = p ? p->dbegin : 0;
  return p;
>> *)
Definition init_thread (b : bag) (it : iterator) : option (bool * iterator) :=
  p' ← (if Nat.ltb (thr it) (length (heads b)) then heads b !! thr it else Some None);
  match p' with
  | Some h => pg ← pages b !! h;
              Some (true, {| thr := thr it; p := Some h; v := dbegin (hdr pg) |})
  | None => Some (false, {| thr := thr it; p := None; v := 0 |})
  end.

(** [advance_local()]:
<<
  if (p) { ++v; return v != p->dend; }
  return false;
>> *)
Definition advance_local (b : bag) (it : iterator) : option (bool * iterator) :=
  match p it with
  | Some h => pg ← pages b !! h;
              let v' := v it + 1 in
              Some (negb (v' =? dend (hdr pg)), {| thr := thr it; p := p it; v := v' |})
  | None => Some (false, it)
  end.

(** [advance_chunk()]:
<<
  if (p) { p = p->next; v = p ? p->dbegin : 0; }
  return p;
>> *)
Definition advance_chunk (b : bag) (it : iterator) : option (bool * iterator) :=
  match p it with
  | Some h =>
      pg ← pages b !! h;
      match next (hdr pg) with
      | Some h' => pg' ← pages b !! h';
                   Some (true, {| thr := thr it; p := Some h'; v := dbegin (hdr pg') |})
      | None => Some (false, {| thr := thr it; p := None; v := 0 |})
      end
  | None => Some (false, it)
  end.

(** [advance_thread()]:
<<
  while (thr < hd->size()) { ++thr; if (init_thread()) return; }
>>
    The loop makes at most [hd->size() - thr] rounds. *)
Fixpoint advance_thread_loop (rounds : nat) (b : bag) (it : iterator) : option iterator :=
  match rounds with
  | O => Some it
  | S rounds' =>
      if Nat.ltb (thr it) (length (heads b)) then
        '(found, it') ← init_thread b {| thr := S (thr it); p := p it; v := v it |};
        if (found : bool) then Some it' else advance_thread_loop rounds' b it'
      else Some it
  end.

Definition advance_thread (b : bag) (it : iterator) : option iterator :=
  advance_thread_loop (length (heads b) - thr it) b it.

(** [advance()]:
<<
  if (advance_local()) return;
  if (advance_chunk()) return;
  advance_thread();
>> *)
Definition advance (b : bag) (it : iterator) : option iterator :=
  '(r, it) ← advance_local b it;
  if (r : bool) then Some it else
  '(r, it) ← advance_chunk b it;
  if (r : bool) then Some it else
  advance_thread b it.

(** [iterator(hd, thr)]: [p(0), v(0)], then
    [if (!init_thread()) advance_thread();] *)
Definition iterator_ctor (b : bag) (thr0 : nat) : option iterator :=
  '(found, it) ← init_thread b {| thr := thr0; p := None; v := 0 |};
  if (found : bool) then Some it else advance_thread b it.

Definition begin_ (b : bag) : option iterator := iterator_ctor b 0.
Definition end_ (b : bag) : option iterator := iterator_ctor b (length (heads b)).

(** [operator*()]: the object at [v]. *)
Definition iterator_deref (b : bag) (it : iterator) : option T :=
  h ← p it; pg ← pages b !! h; cells pg (v it).

(** [for (it = first; it != last; ++it) visit( *it)], one round per unit
    of fuel; [None] when the fuel runs out or a read fails. *)
Fixpoint iterate (fuel : nat) (b : bag) (it last : iterator) : option (list T) :=
  match fuel with
  | O => None
  | S fuel' =>
      if iterator_eqb it last then Some []
      else
        x ← iterator_deref b it;
        it' ← advance b it;
        xs ← iterate fuel' b it' last;
        Some (x :: xs)
  end.

(** The elements seen by a walk from [begin()] to [end()]. *)
Definition elements (fuel : nat) (b : bag) : option (list T) :=
  first ← begin_ b;
  last ← end_ b;
  iterate fuel b first last.

(** A schedule of pushes: which worker pushes which value, in the order
    in which the pushes take effect. *)
Fixpoint pushes (ps : list (nat * T)) (b : bag) : option bag :=
  match ps with
  | [] => Some b
  | (tid, val) :: ps' => b' ← push tid val b; pushes ps' b'
  end.

(** *** The two cases of [push] *)

(** The page a push leaves behind when it had to allocate: a fresh page,
    linked in front of the old head [H], with [val] in its first slot. *)
Definition pushed_page (val : T) (H : option nat) : page :=
  construct_at_dend val
    (set_next H {| hdr := fresh_header; cells := fun _ => None; freed := false |}).

Lemma push_new_segment (tid : nat) (val : T) (b : bag) (H : option nat) :
  heads b !! tid = Some H -> needs_segment b H = Some true ->
  push tid val b
  = Some {| heads := <[tid := Some (length (pages b))]> (heads b);
            pages := pages b ++ [pushed_page val H];
            destroyed := destroyed b |}.
Proof.
  intros Hh Hn. unfold push. rewrite Hh. cbn [mbind option_bind].
  rewrite Hn. cbn [mbind option_bind].
  unfold newHeader, insHeader. cbn [heads pages destroyed].
  rewrite Hh. cbn [mbind option_bind].
  rewrite list_lookup_middle by reflexivity. cbn [mbind option_bind heads pages destroyed].
  rewrite list_lookup_insert_eq by (rewrite length_app; cbn; lia).
  cbn [mbind option_bind]. rewrite list_insert_insert_eq.
  rewrite insert_app_r_alt by lia. rewrite Nat.sub_diag. reflexivity.
Qed.

Lemma push_same_segment (tid : nat) (val : T) (b : bag) (h : nat) (pg : page) :
  heads b !! tid = Some (Some h) -> pages b !! h = Some pg ->
  dend (hdr pg) <> dlast (hdr pg) ->
  push tid val b
  = Some {| heads := heads b;
            pages := <[h := construct_at_dend val pg]> (pages b);
            destroyed := destroyed b |}.
Proof.
  intros Hh Hp Hne. unfold push. rewrite Hh. cbn [mbind option_bind needs_segment].
  rewrite Hp. cbn [mbind option_bind].
  destruct (Z.eqb_spec (dend (hdr pg)) (dlast (hdr pg))); [contradiction|].
  cbn [mbind option_bind]. rewrite Hp. reflexivity.
Qed.

(** *** The shape of the per-worker lists *)

(** Heads of different workers are different pages, heads and [next]
    pointers point to allocated pages, and no [next] pointer points to a
    page that is the head of a list. *)
Record inv (b : bag) : Prop := {
  inv_heads_distinct : forall t t' h,
      heads b !! t = Some (Some h) -> heads b !! t' = Some (Some h) -> t = t';
  inv_heads_valid : forall t h,
      heads b !! t = Some (Some h) -> (h < length (pages b))%nat;
  inv_next_valid : forall j pg k,
      pages b !! j = Some pg -> next (hdr pg) = Some k -> (k < length (pages b))%nat;
  inv_next_not_head : forall j pg k t,
      pages b !! j = Some pg -> next (hdr pg) = Some k -> heads b !! t <> Some (Some k)
}.

Lemma inv_ctor (workers : nat) : inv (galois_insert_bag_ctor workers).
Proof.
  split; cbn.
  - intros t t' h [[=] _]%lookup_replicate.
  - intros t h [[=] _]%lookup_replicate.
  - intros j pg k [=].
  - intros j pg k t [=].
Qed.

Lemma inv_push_new (tid : nat) (val : T) (b : bag) (H : option nat) :
  inv b -> heads b !! tid = Some H ->
  inv {| heads := <[tid := Some (length (pages b))]> (heads b);
         pages := pages b ++ [pushed_page val H];
         destroyed := destroyed b |}.
Proof.
  intros [Hd Hv Hn Hnh] Hh.
  assert (Htid : (tid < length (heads b))%nat) by (by eapply lookup_lt_Some).
  split; cbn [heads pages].
  - intros t t' h Ht Ht'.
    apply list_lookup_insert_Some in Ht as [(<- & Hh1 & _) | (Hne & Ht)];
      apply list_lookup_insert_Some in Ht' as [(<- & Hh2 & _) | (Hne' & Ht')];
      try done.
    + injection Hh1 as <-. apply Hv in Ht'. lia.
    + injection Hh2 as <-. apply Hv in Ht. lia.
    + by apply (Hd t t' h).
  - intros t h Ht. rewrite length_app. cbn.
    apply list_lookup_insert_Some in Ht as [(<- & Hh1 & _) | (Hne & Ht)].
    + injection Hh1 as <-. lia.
    + apply Hv in Ht. lia.
  - intros j pg k Hj Hk. rewrite length_app. cbn.
    apply lookup_snoc_Some in Hj as [[_ Hj] | [_ <-]].
    + pose proof (Hn j pg k Hj Hk). lia.
    + cbn in Hk. subst H. apply Hv in Hh. lia.
  - intros j pg k t Hj Hk Ht.
    apply list_lookup_insert_Some in Ht as [(<- & Hh1 & _) | (Hne & Ht)].
    + injection Hh1 as Hlen.
      apply lookup_snoc_Some in Hj as [[_ Hj] | [_ <-]].
      * pose proof (Hn j pg _ Hj Hk). lia.
      * cbn in Hk. subst H. apply Hv in Hh. lia.
    + apply lookup_snoc_Some in Hj as [[_ Hj] | [_ <-]].
      * by apply (Hnh j pg k t).
      * cbn in Hk. subst H. apply Hne. by apply (Hd tid t k).
Qed.

Lemma inv_push_same (val : T) (b : bag) (h : nat) (pg : page) :
  inv b -> pages b !! h = Some pg ->
  inv {| heads := heads b;
         pages := <[h := construct_at_dend val pg]> (pages b);
         destroyed := destroyed b |}.
Proof.
  intros [Hd Hv Hn Hnh] Hp.
  split; cbn [heads pages]; try rewrite length_insert.
  - exact Hd.
  - exact Hv.
  - intros j pg' k Hj Hk.
    apply list_lookup_insert_Some in Hj as [(<- & <- & _) | (_ & Hj)].
    + by apply (Hn h pg k).
    + by apply (Hn j pg' k).
  - intros j pg' k t Hj Hk.
    apply list_lookup_insert_Some in Hj as [(<- & <- & _) | (_ & Hj)].
    + by apply (Hnh h pg k t).
    + by apply (Hnh j pg' k t).
Qed.

(** *** What the lists hold *)

(** The objects of a segment, oldest first: slot [dbegin + i] holds the
    [i]-th of them, up to [dend]. *)
Definition seg_elems (pg : page) (xs : list T) : Prop :=
  Z.of_nat (length xs) = dend (hdr pg) - dbegin (hdr pg)
  /\ forall i x, xs !! i = Some x -> cells pg (dbegin (hdr pg) + Z.of_nat i) = Some x.

(** The segments of the list that starts at a head, newest segment
    first; each is a live page holding at least one object. *)
Inductive chain (pgs : list page) : option nat -> list (list T) -> Prop :=
| chain_null : chain pgs None []
| chain_link (h : nat) (pg : page) (xs : list T) (rest : list (list T)) :
    pgs !! h = Some pg -> freed pg = false -> seg_elems pg xs -> xs <> [] ->
    chain pgs (next (hdr pg)) rest ->
    chain pgs (Some h) (xs :: rest).

(** The contents of the bag: for each worker, its segments. *)
Definition view (b : bag) (vw : list (list (list T))) : Prop :=
  Forall2 (chain (pages b)) (heads b) vw.

Lemma chain_app (pgs more : list page) (h : option nat) (segs : list (list T)) :
  chain pgs h segs -> chain (pgs ++ more) h segs.
Proof.
  induction 1 as [|h pg xs rest Hp Hf Hs Hne _ IH]; [constructor|].
  apply (chain_link _ h pg); try done.
  rewrite lookup_app_l; [done | by eapply lookup_lt_Some].
Qed.

Lemma chain_insert (pgs : list page) (i : nat) (pg' : page)
    (h : option nat) (segs : list (list T)) :
  chain pgs h segs -> h <> Some i ->
  (forall j pg, pgs !! j = Some pg -> next (hdr pg) <> Some i) ->
  chain (<[i := pg']> pgs) h segs.
Proof.
  intros Hc Hh Hn. induction Hc as [|h pg xs rest Hp Hf Hs Hne _ IH]; [constructor|].
  apply (chain_link _ h pg); try done.
  - rewrite list_lookup_insert_ne; [done | congruence].
  - apply IH. by apply (Hn h).
Qed.

Lemma seg_elems_construct (val : T) (pg : page) (xs : list T) :
  seg_elems pg xs -> seg_elems (construct_at_dend val pg) (xs ++ [val]).
Proof.
  intros [Hlen Hx]. split; cbn [construct_at_dend hdr cells dbegin dend].
  - rewrite length_app. cbn. lia.
  - intros i x [[Hi Hl] | [-> <-]]%lookup_snoc_Some.
    + destruct (Z.eqb_spec (dbegin (hdr pg) + Z.of_nat i) (dend (hdr pg))); [lia|].
      by apply Hx.
    + destruct (Z.eqb_spec (dbegin (hdr pg) + Z.of_nat (length xs)) (dend (hdr pg)));
        [done | lia].
Qed.

Lemma seg_elems_pushed_page (val : T) (H : option nat) :
  seg_elems (pushed_page val H) [val].
Proof.
  rewrite <- (app_nil_l [val]). apply seg_elems_construct.
  split; cbn; [lia | intros i x [=]].
Qed.

Lemma view_ctor (workers : nat) :
  view (galois_insert_bag_ctor workers) (replicate workers []).
Proof.
  unfold view; cbn. apply Forall2_replicate. constructor.
Qed.

Lemma view_lookup (b : bag) (vw : list (list (list T))) (tid : nat) (H : option nat) :
  view b vw -> heads b !! tid = Some H ->
  exists segs, vw !! tid = Some segs /\ chain (pages b) H segs.
Proof.
  intros Hv Hh. apply Forall2_lookup_l with (i := tid) (x := H) in Hv; [|done].
  destruct Hv as (segs & ? & ?). by exists segs.
Qed.

Lemma view_push_new (tid : nat) (val : T) (b : bag) (H : option nat)
    (vw : list (list (list T))) (segs : list (list T)) :
  view b vw -> heads b !! tid = Some H -> vw !! tid = Some segs ->
  view {| heads := <[tid := Some (length (pages b))]> (heads b);
          pages := pages b ++ [pushed_page val H];
          destroyed := destroyed b |}
       (<[tid := [val] :: segs]> vw).
Proof.
  intros Hv Hh Hs. unfold view in *. cbn [heads pages].
  apply Forall2_same_length_lookup in Hv as [Hlen Hv].
  apply Forall2_same_length_lookup. split; [by rewrite !length_insert|].
  intros t h segs' Ht Ht'.
  apply list_lookup_insert_Some in Ht as [(<- & <- & _) | (Hne & Ht)].
  - rewrite list_lookup_insert_eq in Ht' by (by eapply lookup_lt_Some).
    injection Ht' as <-.
    apply (chain_link _ _ (pushed_page val H)).
    + by apply list_lookup_middle.
    + reflexivity.
    + apply seg_elems_pushed_page.
    + done.
    + cbn. apply chain_app. by apply (Hv tid).
  - rewrite list_lookup_insert_ne in Ht' by done.
    apply chain_app. by apply (Hv t).
Qed.

Lemma view_push_same (tid : nat) (val : T) (b : bag) (h : nat) (pg : page)
    (vw : list (list (list T))) :
  inv b -> view b vw -> heads b !! tid = Some (Some h) -> pages b !! h = Some pg ->
  exists xs rest,
    vw !! tid = Some (xs :: rest)
    /\ view {| heads := heads b;
               pages := <[h := construct_at_dend val pg]> (pages b);
               destroyed := destroyed b |}
            (<[tid := (xs ++ [val]) :: rest]> vw).
Proof.
  intros Hinv Hv Hh Hp.
  destruct (view_lookup _ _ _ _ Hv Hh) as (segs & Hs & Hc).
  assert (Hnext : forall j pg0, pages b !! j = Some pg0 -> next (hdr pg0) <> Some h).
  { intros j pg0 Hj Hk. by apply (inv_next_not_head b Hinv j pg0 h tid). }
  inversion Hc as [|h' pg' xs rest Hp' Hf Hse Hne Hrest]; subst.
  assert (pg' = pg) as -> by congruence.
  exists xs, rest. split; [done|].
  unfold view in *. cbn [heads pages].
  apply Forall2_same_length_lookup in Hv as [Hlen Hv].
  apply Forall2_same_length_lookup. split; [by rewrite !length_insert|].
  intros t h0 segs' Ht Ht'.
  destruct (decide (t = tid)) as [->|Hne'].
  - rewrite list_lookup_insert_eq in Ht' by (by eapply lookup_lt_Some).
    injection Ht' as <-. assert (h0 = Some h) as -> by congruence.
    apply (chain_link _ h (construct_at_dend val pg)).
    + apply list_lookup_insert_eq. by eapply lookup_lt_Some.
    + done.
    + by apply seg_elems_construct.
    + by destruct xs.
    + cbn. apply chain_insert; [done | by apply (Hnext h) | done].
  - rewrite list_lookup_insert_ne in Ht' by done.
    apply chain_insert; [by apply (Hv t) | | done].
    intros ->. apply Hne'. by apply (inv_heads_distinct b Hinv t tid h).
Qed.

Lemma concat_insert_Permutation (vw : list (list (list T))) (tid : nat)
    (segs segs' : list (list T)) (val : T) :
  vw !! tid = Some segs -> concat segs' ≡ₚ val :: concat segs ->
  concat (concat (<[tid := segs']> vw)) ≡ₚ val :: concat (concat vw).
Proof.
  intros Hs Hp.
  rewrite insert_take_drop by (by eapply lookup_lt_Some).
  rewrite <- (take_drop_middle vw tid segs Hs) at 3.
  rewrite !concat_app, !concat_cons, !concat_app, Hp.
  rewrite <- app_comm_cons. symmetry. apply Permutation_middle.
Qed.

(** A push always succeeds on a well-shaped bag, keeps it well shaped, and
    adds exactly the pushed value to the contents. *)
Lemma push_spec (tid : nat) (val : T) (b : bag) (vw : list (list (list T))) :
  inv b -> view b vw -> (tid < length (heads b))%nat ->
  exists b' vw',
    push tid val b = Some b' /\ inv b' /\ view b' vw'
    /\ length (heads b') = length (heads b)
    /\ concat (concat vw') ≡ₚ val :: concat (concat vw).
Proof.
  intros Hinv Hv Htid.
  destruct (lookup_lt_is_Some_2 _ _ Htid) as [H Hh].
  destruct (view_lookup _ _ _ _ Hv Hh) as (segs & Hs & Hc).
  assert (Hfull : exists full, needs_segment b H = Some full
                    /\ (full = false -> exists h pg, H = Some h /\ pages b !! h = Some pg
                                          /\ dend (hdr pg) <> dlast (hdr pg))).
  { destruct H as [h|]; cbn.
    - inversion Hc as [|h' pg xs rest Hp _ _ _ _]; subst. rewrite Hp. cbn.
      eexists. split; [reflexivity|]. intros Hf. exists h, pg.
      destruct (Z.eqb_spec (dend (hdr pg)) (dlast (hdr pg))); done.
    - exists true. by split. }
  destruct Hfull as ([|] & Hn & Hcase).
  - eexists _, (<[tid := [val] :: segs]> vw).
    split; [by apply push_new_segment|].
    split; [by apply inv_push_new|].
    split; [by apply view_push_new|].
    split; [cbn; by rewrite length_insert|].
    by apply (concat_insert_Permutation _ _ segs).
  - destruct Hcase as (h & pg & -> & Hp & Hne); [done|].
    destruct (view_push_same tid val b h pg vw Hinv Hv Hh Hp) as (xs & rest & Hs' & Hv').
    eexists _, _. split; [by apply (push_same_segment _ _ _ h pg)|].
    split; [by apply inv_push_same|].
    split; [exact Hv'|].
    split; [reflexivity|].
    apply (concat_insert_Permutation _ _ (xs :: rest)); [done|].
    cbn [concat]. rewrite <- app_assoc. cbn [app]. symmetry. apply Permutation_middle.
Qed.

Lemma pushes_spec (ps : list (nat * T)) (b : bag) (vw : list (list (list T))) :
  inv b -> view b vw -> Forall (fun q => (q.1 < length (heads b))%nat) ps ->
  exists b' vw',
    pushes ps b = Some b' /\ inv b' /\ view b' vw'
    /\ length (heads b') = length (heads b)
    /\ concat (concat vw') ≡ₚ ps.*2 ++ concat (concat vw).
Proof.
  revert b vw. induction ps as [|[tid val] ps IH]; intros b vw Hinv Hv Hps.
  - exists b, vw. do 4 (split; [done|]). reflexivity.
  - apply Forall_cons in Hps as [Htid Hps]. cbn in Htid.
    destruct (push_spec tid val b vw Hinv Hv Htid) as (b1 & vw1 & Hp & Hi1 & Hv1 & Hl1 & Hperm1).
    destruct (IH b1 vw1 Hi1 Hv1) as (b2 & vw2 & Hp2 & Hi2 & Hv2 & Hl2 & Hperm2).
    { by rewrite Hl1. }
    exists b2, vw2. cbn [pushes]. rewrite Hp. cbn [mbind option_bind].
    do 3 (split; [done|]). split; [congruence|].
    rewrite Hperm2, Hperm1. cbn [fmap list_fmap snd app]. symmetry. apply Permutation_middle.
Qed.

(** *** Walking the bag *)

(** The iterator that [end()] returns. *)
Definition end_iterator (b : bag) : iterator :=
  {| thr := length (heads b); p := None; v := 0 |}.

Lemma iterator_ctor_end (b : bag) :
  iterator_ctor b (length (heads b)) = Some (end_iterator b).
Proof.
  unfold iterator_ctor, init_thread. cbn [thr].
  rewrite Nat.ltb_irrefl. cbn [mbind option_bind].
  unfold advance_thread. cbn [thr]. by rewrite Nat.sub_diag.
Qed.

Lemma init_thread_irrelevant (b : bag) (t : nat) (p0 : option nat) (v0 : Z) :
  init_thread b {| thr := t; p := p0; v := v0 |}
  = init_thread b {| thr := t; p := None; v := 0 |}.
Proof. reflexivity. Qed.

Lemma init_thread_thr (b : bag) (it it' : iterator) (found : bool) :
  init_thread b it = Some (found, it') -> thr it' = thr it.
Proof.
  unfold init_thread.
  destruct (if Nat.ltb _ _ then _ else _) as [[h|]|]; cbn; [| |discriminate].
  - destruct (pages b !! h); cbn; [|discriminate]. by intros [= _ <-].
  - by intros [= _ <-].
Qed.

Lemma advance_thread_ctor (b : bag) (t : nat) (p0 : option nat) (v0 : Z) :
  (t < length (heads b))%nat ->
  advance_thread b {| thr := t; p := p0; v := v0 |} = iterator_ctor b (S t).
Proof.
  intros Ht. unfold advance_thread, iterator_ctor. cbn [thr].
  replace (length (heads b) - t)%nat with (S (length (heads b) - S t)) by lia.
  cbn [advance_thread_loop thr p v].
  destruct (Nat.ltb_spec t (length (heads b))); [|lia].
  rewrite init_thread_irrelevant.
  destruct (init_thread b _) as [[found it']|] eqn:Hi; [|reflexivity].
  cbn [mbind option_bind]. destruct found; [reflexivity|].
  unfold advance_thread. by rewrite (init_thread_thr _ _ _ _ Hi).
Qed.

Lemma iterator_ctor_null (b : bag) (t : nat) :
  heads b !! t = Some None -> iterator_ctor b t = iterator_ctor b (S t).
Proof.
  intros Hh. assert (Ht : (t < length (heads b))%nat) by (by eapply lookup_lt_Some).
  unfold iterator_ctor at 1. unfold init_thread. cbn [thr].
  destruct (Nat.ltb_spec t (length (heads b))); [|lia].
  rewrite Hh. cbn [mbind option_bind]. by apply advance_thread_ctor.
Qed.

Lemma iterator_ctor_head (b : bag) (t h : nat) (pg : page) :
  heads b !! t = Some (Some h) -> pages b !! h = Some pg ->
  iterator_ctor b t = Some {| thr := t; p := Some h; v := dbegin (hdr pg) |}.
Proof.
  intros Hh Hp. assert (Ht : (t < length (heads b))%nat) by (by eapply lookup_lt_Some).
  unfold iterator_ctor, init_thread. cbn [thr].
  destruct (Nat.ltb_spec t (length (heads b))); [|lia].
  rewrite Hh. cbn [mbind option_bind]. rewrite Hp. reflexivity.
Qed.

(** A walk from [it] to [end()] visits the objects [l], in this order,
    and stops: any fuel above the number of objects is enough. *)
Definition yields (b : bag) (it : iterator) (l : list T) : Prop :=
  forall fuel, (length l < fuel)%nat -> iterate fuel b it (end_iterator b) = Some l.

Lemma yields_end (b : bag) : yields b (end_iterator b) [].
Proof.
  intros [|fuel] Hf; [cbn in Hf; lia|]. cbn [iterate].
  unfold iterator_eqb, end_iterator. cbn. by rewrite Nat.eqb_refl.
Qed.

Lemma yields_cons (b : bag) (it it' : iterator) (h : nat) (x : T) (l : list T) :
  p it = Some h -> iterator_deref b it = Some x -> advance b it = Some it' ->
  yields b it' l -> yields b it (x :: l).
Proof.
  intros Hp Hd Ha Hy [|fuel] Hf; [cbn in Hf; lia|]. cbn [iterate].
  assert (Hne : iterator_eqb it (end_iterator b) = false).
  { unfold iterator_eqb. rewrite Hp. cbn. by rewrite andb_false_r. }
  rewrite Hne, Hd. cbn [mbind option_bind]. rewrite Ha. cbn [mbind option_bind].
  rewrite Hy by (cbn in Hf; lia). reflexivity.
Qed.

(** Inside a segment: from slot [dbegin + k] on. *)
Lemma seg_yields (b : bag) (t h : nat) (pg : page) (xs : list T)
    (after : iterator) (R : list T) :
  pages b !! h = Some pg -> seg_elems pg xs ->
  advance b {| thr := t; p := Some h; v := dend (hdr pg) - 1 |} = Some after ->
  yields b after R ->
  forall n k, (k + n = length xs)%nat -> (0 < n)%nat ->
    yields b {| thr := t; p := Some h; v := dbegin (hdr pg) + Z.of_nat k |}
           (drop k xs ++ R).
Proof.
  intros Hp [Hlen Hx] Hadv HR. induction n as [|n IH]; intros k Hk Hn; [lia|].
  destruct (lookup_lt_is_Some_2 xs k) as [x Hxk]; [lia|].
  rewrite (drop_S _ _ _ Hxk). cbn [app].
  destruct n as [|n].
  - rewrite drop_ge by lia. cbn [app].
    apply (yields_cons _ _ after h); [reflexivity | | | exact HR].
    + unfold iterator_deref. cbn [p v mbind option_bind]. rewrite Hp. cbn. by apply Hx.
    + rewrite <- Hadv. do 2 f_equal. lia.
  - apply (yields_cons _ _ {| thr := t; p := Some h;
                              v := dbegin (hdr pg) + Z.of_nat (S k) |} h);
      [reflexivity | | | apply IH; lia].
    + unfold iterator_deref. cbn [p v mbind option_bind]. rewrite Hp. cbn. by apply Hx.
    + unfold advance, advance_local. cbn [p v thr]. rewrite Hp. cbn [mbind option_bind].
      destruct (Z.eqb_spec (dbegin (hdr pg) + Z.of_nat k + 1) (dend (hdr pg))); [lia|].
      cbn [negb]. do 2 f_equal. lia.
Qed.

(** The step that leaves a segment. *)
Lemma advance_last_linked (b : bag) (t h h' : nat) (pg pg' : page) :
  pages b !! h = Some pg -> next (hdr pg) = Some h' -> pages b !! h' = Some pg' ->
  advance b {| thr := t; p := Some h; v := dend (hdr pg) - 1 |}
  = Some {| thr := t; p := Some h'; v := dbegin (hdr pg') |}.
Proof.
  intros Hp Hn Hp'. unfold advance, advance_local, advance_chunk. cbn [p v thr].
  rewrite Hp. cbn [mbind option_bind].
  replace (dend (hdr pg) - 1 + 1) with (dend (hdr pg)) by lia.
  rewrite Z.eqb_refl. cbn [negb p v thr]. rewrite Hp. cbn [mbind option_bind].
  rewrite Hn, Hp'. reflexivity.
Qed.

Lemma advance_last_unlinked (b : bag) (t h : nat) (pg : page) :
  pages b !! h = Some pg -> next (hdr pg) = None -> (t < length (heads b))%nat ->
  advance b {| thr := t; p := Some h; v := dend (hdr pg) - 1 |}
  = iterator_ctor b (S t).
Proof.
  intros Hp Hn Ht. unfold advance, advance_local, advance_chunk. cbn [p v thr].
  rewrite Hp. cbn [mbind option_bind].
  replace (dend (hdr pg) - 1 + 1) with (dend (hdr pg)) by lia.
  rewrite Z.eqb_refl. cbn [negb p v thr]. rewrite Hp. cbn [mbind option_bind].
  rewrite Hn. cbn [mbind option_bind]. by apply advance_thread_ctor.
Qed.

(** A worker's list, from the first slot of its head segment. *)
Lemma chain_yields (b : bag) (t : nat) (it2 : iterator) (R : list T) :
  (t < length (heads b))%nat -> iterator_ctor b (S t) = Some it2 -> yields b it2 R ->
  forall segs h pg,
    chain (pages b) (Some h) segs -> pages b !! h = Some pg ->
    yields b {| thr := t; p := Some h; v := dbegin (hdr pg) |} (concat segs ++ R).
Proof.
  intros Ht Hc2 HR. induction segs as [|xs rest IH]; intros h pg Hc Hp;
    inversion Hc as [|h0 pg0 xs0 rest0 Hp0 Hf Hs Hne Hrest]; subst.
  assert (pg0 = pg) as -> by congruence.
  cbn [concat]. rewrite <- app_assoc.
  assert (Hlen : (0 < length xs)%nat) by (destruct xs; [done | cbn; lia]).
  replace (dbegin (hdr pg)) with (dbegin (hdr pg) + Z.of_nat 0) by lia.
  rewrite <- (drop_0 xs) at 1.
  destruct (next (hdr pg)) as [h'|] eqn:Hn.
  - inversion Hrest as [|h1 pg' xs1 rest1 Hp' _ _ _ _]; subst.
    apply (seg_yields b t h pg xs {| thr := t; p := Some h'; v := dbegin (hdr pg') |}
             _ Hp Hs) with (n := length xs); [| |lia|lia].
    + by apply advance_last_linked.
    + by apply IH.
  - inversion Hrest; subst. cbn [concat app].
    apply (seg_yields b t h pg xs it2 _ Hp Hs) with (n := length xs); [| |lia|lia].
    + rewrite <- Hc2. by apply advance_last_unlinked.
    + exact HR.
Qed.

(** The workers from [t] on. *)
Lemma ctor_yields (b : bag) (vws : list (list (list T))) :
  forall t, (t <= length (heads b))%nat ->
    Forall2 (chain (pages b)) (drop t (heads b)) vws ->
    exists it, iterator_ctor b t = Some it /\ yields b it (concat (concat vws)).
Proof.
  induction vws as [|segs vws IH]; intros t Hle Hv.
  - apply Forall2_nil_inv_r in Hv.
    assert (Hlen : length (drop t (heads b)) = 0%nat) by (by rewrite Hv).
    rewrite length_drop in Hlen.
    assert (t = length (heads b)) as -> by lia.
    exists (end_iterator b). split; [apply iterator_ctor_end | apply yields_end].
  - apply Forall2_cons_inv_r in Hv as (H & tl & Hc & Htl & Hd).
    assert (Hh : heads b !! t = Some H).
    { rewrite <- (Nat.add_0_r t), <- lookup_drop, Hd. reflexivity. }
    assert (Hdrop : drop (S t) (heads b) = tl).
    { rewrite (drop_S _ _ _ Hh) in Hd. by injection Hd. }
    assert (Ht : (t < length (heads b))%nat) by (by eapply lookup_lt_Some).
    destruct (IH (S t)) as (it2 & Hc2 & Hy2); [lia | by rewrite Hdrop |].
    destruct H as [h|].
    + inversion Hc as [|h0 pg xs rest Hp _ _ _ _]; subst.
      eexists. split; [by apply (iterator_ctor_head _ _ h pg)|].
      rewrite concat_cons, concat_app.
      by apply (chain_yields b t it2).
    + inversion Hc; subst. cbn [concat app].
      exists it2. split; [|done]. by rewrite iterator_ctor_null.
Qed.

(** A walk from [begin()] to [end()] over a bag with contents [vw]
    visits the workers in index order, each worker's segments newest
    first, each segment oldest object first. *)
Lemma elements_view (b : bag) (vw : list (list (list T))) :
  view b vw ->
  forall fuel, (length (concat (concat vw)) < fuel)%nat ->
    elements fuel b = Some (concat (concat vw)).
Proof.
  intros Hv fuel Hf. unfold elements, begin_, end_.
  destruct (ctor_yields b vw 0) as (it & Hc & Hy); [lia | by rewrite drop_0 |].
  rewrite Hc, iterator_ctor_end. cbn [mbind option_bind]. by apply Hy.
Qed.

(** *** [clear] and the states a bag can reach *)

Lemma for_each_invariant (P : bag -> Prop) (f : nat -> bag -> option bag)
    (xs : list nat) (b b' : bag) :
  (forall x b1 b2, P b1 -> f x b1 = Some b2 -> P b2) ->
  P b -> for_each f xs b = Some b' -> P b'.
Proof.
  intros Hf. revert b. induction xs as [|x xs IH]; intros b HP H; cbn in H.
  - by injection H as <-.
  - destruct (f x b) as [b1|] eqn:Hx; [|discriminate]. cbn in H.
    apply (IH b1); [by apply (Hf x b) | done].
Qed.

(** [destruct()] never alters a segment header, nor the number of pages
    and workers. *)
Definition same_headers (b b' : bag) : Prop :=
  hdr <$> pages b' = hdr <$> pages b /\ length (heads b') = length (heads b).

Lemma destruct_worker_headers (x : nat) (b b' : bag) :
  destruct_worker x b = Some b' -> same_headers b b'.
Proof.
  unfold destruct_worker, same_headers.
  destruct (heads b !! x) as [[h|]|]; cbn [mbind option_bind]; [| |discriminate].
  - destruct (pages b !! h) as [pg|] eqn:Hp; cbn [mbind option_bind]; [|discriminate].
    destruct (freed pg); [discriminate|].
    destruct (_ <? _); [discriminate|].
    destruct (destroy_slots _ _ _) as [[c log]|]; cbn [mbind option_bind]; [|discriminate].
    intros [= <-]. cbn [heads pages]. split; [|by rewrite length_insert].
    rewrite list_fmap_insert. cbn [hdr]. apply list_insert_id.
    by rewrite list_lookup_fmap, Hp.
  - by intros [= <-].
Qed.

Lemma destruct_headers (b b' : bag) : destruct_ b = Some b' -> same_headers b b'.
Proof.
  unfold destruct_.
  apply (for_each_invariant (same_headers b)); [|done].
  intros x b1 b2 [Hh Hl] [Hh' Hl']%destruct_worker_headers. split; congruence.
Qed.

Lemma null_heads_loop (xs : list nat) (b b' : bag) :
  for_each (fun i b => Some {| heads := <[i := None]> (heads b);
                               pages := pages b;
                               destroyed := destroyed b |}) xs b = Some b' ->
  same_headers b b'
  /\ forall t H, heads b' !! t = Some H ->
       H = None \/ ((t ∉ xs) /\ heads b !! t = Some H).
Proof.
  revert b. induction xs as [|x xs IH]; intros b Hf; cbn in Hf.
  - injection Hf as <-. split; [by split|]. intros t H Ht. right.
    split; [apply not_elem_of_nil | done].
  - apply IH in Hf as [[Hh Hl] Hn]. cbn [heads pages] in *.
    split; [split; [done | by rewrite Hl, length_insert]|].
    intros t H Ht. destruct (Hn t H Ht) as [-> | [Hnin Hlk]]; [by left|].
    apply list_lookup_insert_Some in Hlk as [(<- & <- & _) | (Hne & Hlk)]; [by left|].
    right. split; [|done]. rewrite not_elem_of_cons. done.
Qed.

Lemma clear_headers (b b' : bag) :
  clear b = Some b' ->
  same_headers b b' /\ forall t H, heads b' !! t = Some H -> H = None.
Proof.
  unfold clear. destruct (destruct_ b) as [b1|] eqn:Hd; cbn [mbind option_bind];
    [|discriminate].
  apply destruct_headers in Hd as [Hh Hl].
  intros [[Hh' Hl'] Hn]%null_heads_loop.
  split; [split; congruence|].
  intros t H Ht. destruct (Hn t H Ht) as [-> | [Hnin _]]; [done|].
  exfalso. apply Hnin. apply elem_of_seq. apply lookup_lt_Some in Ht. lia.
Qed.

(** The states of a bag: built by the constructor, then changed by pushes
    of its workers and by calls to [clear]. *)
Inductive reachable (workers : nat) : bag -> Prop :=
| reachable_ctor : reachable workers (galois_insert_bag_ctor workers)
| reachable_push (b b' : bag) (tid : nat) (val : T) :
    reachable workers b -> (tid < workers)%nat -> push tid val b = Some b' ->
    reachable workers b'
| reachable_clear (b b' : bag) :
    reachable workers b -> clear b = Some b' -> reachable workers b'.

Lemma inv_clear (b b' : bag) : inv b -> clear b = Some b' -> inv b'.
Proof.
  intros [Hd Hv Hn Hnh] [[Hh Hl] Hnull]%clear_headers.
  assert (Hlen : length (pages b') = length (pages b)).
  { by rewrite <- (length_fmap hdr), Hh, length_fmap. }
  split.
  - intros t t' h Ht. by apply Hnull in Ht.
  - intros t h Ht. by apply Hnull in Ht.
  - intros j pg k Hj Hk. rewrite Hlen.
    assert (Hj' : (hdr <$> pages b) !! j = Some (hdr pg)).
    { by rewrite <- Hh, list_lookup_fmap, Hj. }
    rewrite list_lookup_fmap in Hj'.
    destruct (pages b !! j) as [pg0|] eqn:Hp0; [|discriminate].
    injection Hj' as Hj'. apply (Hn j pg0 k Hp0). by rewrite Hj'.
  - intros j pg k t _ _ Ht. by apply Hnull in Ht.
Qed.

Lemma view_clear (b b' : bag) :
  clear b = Some b' -> view b' (replicate (length (heads b')) []).
Proof.
  intros [_ Hnull]%clear_headers. unfold view.
  apply Forall2_same_length_lookup. split; [by rewrite length_replicate|].
  intros t H segs Ht [-> _]%lookup_replicate. apply Hnull in Ht as ->. constructor.
Qed.

Lemma reachable_inv (workers : nat) (b : bag) :
  reachable workers b ->
  length (heads b) = workers /\ inv b /\ exists vw, view b vw.
Proof.
  induction 1 as [|b b' tid val _ (Hl & Hi & vw & Hv) Htid Hp
                  |b b' _ (Hl & Hi & vw & Hv) Hc].
  - split; [apply length_replicate|]. split; [apply inv_ctor|].
    eexists. apply view_ctor.
  - destruct (push_spec tid val b vw Hi Hv) as (b1 & vw1 & Hp1 & Hi1 & Hv1 & Hl1 & _);
      [lia|].
    assert (b1 = b') as -> by congruence.
    split; [congruence|]. split; [done|]. by exists vw1.
  - split.
    + apply clear_headers in Hc as [[_ Hlen] _]. congruence.
    + split; [by apply (inv_clear b)|]. eexists. by apply (view_clear b).
Qed.

(** The segments linked into some worker's list. *)
Inductive linked (b : bag) : nat -> Prop :=
| linked_head (t h : nat) : heads b !! t = Some (Some h) -> linked b h
| linked_next (h h' : nat) (pg : page) :
    linked b h -> pages b !! h = Some pg -> next (hdr pg) = Some h' -> linked b h'.

Lemma linked_chain (b : bag) (vw : list (list (list T))) (h : nat) :
  view b vw -> linked b h -> exists segs, chain (pages b) (Some h) segs.
Proof.
  intros Hv. induction 1 as [t h Ht | h h' pg _ [segs Hc] Hp Hn].
  - destruct (view_lookup _ _ _ _ Hv Ht) as (segs & _ & Hc). by exists segs.
  - inversion Hc as [|h0 pg0 xs rest Hp0 _ _ _ Hrest]; subst.
    assert (pg0 = pg) as -> by congruence. rewrite Hn in Hrest. by exists rest.
Qed.

(** Every linked segment is a live page holding at least one object, and
    every slot between its [dbegin] and [dend] holds one. *)
Lemma linked_holds_objects (workers : nat) (b : bag) (h : nat) :
  reachable workers b -> linked b h ->
  exists pg, pages b !! h = Some pg /\ freed pg = false
    /\ dbegin (hdr pg) < dend (hdr pg)
    /\ forall k, dbegin (hdr pg) <= k < dend (hdr pg) -> is_Some (cells pg k).
Proof.
  intros (_ & _ & vw & Hv)%reachable_inv Hl.
  destruct (linked_chain b vw h Hv Hl) as [segs Hc].
  inversion Hc as [|h0 pg xs rest Hp Hf [Hlen Hx] Hne _]; subst.
  exists pg. split; [done|]. split; [done|].
  assert (0 < length xs)%nat by (destruct xs; [done | cbn; lia]).
  split; [lia|]. intros k Hk.
  destruct (lookup_lt_is_Some_2 xs (Z.to_nat (k - dbegin (hdr pg)))) as [x Hxk]; [lia|].
  exists x. apply Hx in Hxk. rewrite <- Hxk. f_equal. lia.
Qed.

(** *** Walks between two iterators, and the local iterators *)

(** [local_begin()] and [local_end()], called by the worker [tid]:
<<
  return iterator(&heads, LL::getTID());
  return iterator(&heads, LL::getTID() + 1);
>> *)
Definition local_begin (tid : nat) (b : bag) : option iterator := iterator_ctor b tid.
Definition local_end (tid : nat) (b : bag) : option iterator := iterator_ctor b (tid + 1).

(** A walk from [it] to [last] visits the objects [l], in this order, and
    stops. *)
Definition walks (b : bag) (it last : iterator) (l : list T) : Prop :=
  forall fuel, (length l < fuel)%nat -> iterate fuel b it last = Some l.

Lemma iterator_eqb_refl (it : iterator) : iterator_eqb it it = true.
Proof.
  unfold iterator_eqb. rewrite Nat.eqb_refl, Z.eqb_refl.
  destruct (p it); [by rewrite Nat.eqb_refl | done].
Qed.

Lemma iterator_eqb_thr (it last : iterator) :
  thr it <> thr last -> iterator_eqb it last = false.
Proof.
  intros Hne. unfold iterator_eqb.
  destruct (Nat.eqb_spec (thr it) (thr last)); [contradiction | reflexivity].
Qed.

Lemma walks_stop (b : bag) (last : iterator) : walks b last last [].
Proof.
  intros [|fuel] Hf; [cbn in Hf; lia|]. cbn [iterate]. by rewrite iterator_eqb_refl.
Qed.

Lemma walks_cons (b : bag) (it it' last : iterator) (x : T) (l : list T) :
  iterator_eqb it last = false -> iterator_deref b it = Some x ->
  advance b it = Some it' -> walks b it' last l -> walks b it last (x :: l).
Proof.
  intros Hne Hd Ha Hy [|fuel] Hf; [cbn in Hf; lia|]. cbn [iterate].
  rewrite Hne, Hd. cbn [mbind option_bind]. rewrite Ha. cbn [mbind option_bind].
  rewrite Hy by (cbn in Hf; lia). reflexivity.
Qed.

Lemma advance_thread_loop_thr (rounds : nat) (b : bag) (it it' : iterator) :
  advance_thread_loop rounds b it = Some it' -> (thr it <= thr it')%nat.
Proof.
  revert it. induction rounds as [|rounds IH]; intros it; cbn [advance_thread_loop].
  - by intros [= <-].
  - destruct (thr it <? length (heads b))%nat; [|by intros [= <-]].
    destruct (init_thread b _) as [[found it1]|] eqn:Hi; [|discriminate].
    apply init_thread_thr in Hi. cbn [thr mbind option_bind] in *.
    destruct found.
    + intros [= <-]. lia.
    + intros H%IH. lia.
Qed.

Lemma iterator_ctor_thr (b : bag) (t : nat) (it : iterator) :
  iterator_ctor b t = Some it -> (t <= thr it)%nat.
Proof.
  unfold iterator_ctor.
  destruct (init_thread b _) as [[found it1]|] eqn:Hi; [|discriminate].
  apply init_thread_thr in Hi. cbn [thr mbind option_bind] in *.
  destruct found.
  - intros [= <-]. lia.
  - unfold advance_thread. intros H%advance_thread_loop_thr. lia.
Qed.

(** Inside a segment of worker [t], towards an iterator of a later
    worker. *)
Lemma seg_walks (b : bag) (t h : nat) (pg : page) (xs : list T)
    (after last : iterator) (R : list T) :
  pages b !! h = Some pg -> seg_elems pg xs -> (t < thr last)%nat ->
  advance b {| thr := t; p := Some h; v := dend (hdr pg) - 1 |} = Some after ->
  walks b after last R ->
  forall n k, (k + n = length xs)%nat -> (0 < n)%nat ->
    walks b {| thr := t; p := Some h; v := dbegin (hdr pg) + Z.of_nat k |} last
          (drop k xs ++ R).
Proof.
  intros Hp [Hlen Hx] Ht Hadv HR. induction n as [|n IH]; intros k Hk Hn; [lia|].
  destruct (lookup_lt_is_Some_2 xs k) as [x Hxk]; [lia|].
  rewrite (drop_S _ _ _ Hxk). cbn [app].
  destruct n as [|n].
  - rewrite drop_ge by lia. cbn [app].
    apply (walks_cons _ _ after); [apply iterator_eqb_thr; cbn; lia | | | exact HR].
    + unfold iterator_deref. cbn [p v mbind option_bind]. rewrite Hp. cbn. by apply Hx.
    + rewrite <- Hadv. do 2 f_equal. lia.
  - apply (walks_cons _ _ {| thr := t; p := Some h;
                             v := dbegin (hdr pg) + Z.of_nat (S k) |});
      [apply iterator_eqb_thr; cbn; lia | | | apply IH; lia].
    + unfold iterator_deref. cbn [p v mbind option_bind]. rewrite Hp. cbn. by apply Hx.
    + unfold advance, advance_local. cbn [p v thr]. rewrite Hp. cbn [mbind option_bind].
      destruct (Z.eqb_spec (dbegin (hdr pg) + Z.of_nat k + 1) (dend (hdr pg))); [lia|].
      cbn [negb]. do 2 f_equal. lia.
Qed.

(** The list of worker [t], from the first slot of its head segment to
    the iterator that [local_end()] returns. *)
Lemma chain_walks (b : bag) (t : nat) (last : iterator) :
  (t < length (heads b))%nat -> iterator_ctor b (S t) = Some last ->
  forall segs h pg,
    chain (pages b) (Some h) segs -> pages b !! h = Some pg ->
    walks b {| thr := t; p := Some h; v := dbegin (hdr pg) |} last (concat segs).
Proof.
  intros Ht Hc2. pose proof (iterator_ctor_thr _ _ _ Hc2) as Hthr.
  induction segs as [|xs rest IH]; intros h pg Hc Hp;
    inversion Hc as [|h0 pg0 xs0 rest0 Hp0 Hf Hs Hne Hrest]; subst.
  assert (pg0 = pg) as -> by congruence.
  cbn [concat].
  assert (Hlen : (0 < length xs)%nat) by (destruct xs; [done | cbn; lia]).
  replace (dbegin (hdr pg)) with (dbegin (hdr pg) + Z.of_nat 0) by lia.
  rewrite <- (drop_0 xs) at 1.
  destruct (next (hdr pg)) as [h'|] eqn:Hn.
  - inversion Hrest as [|h1 pg' xs1 rest1 Hp' _ _ _ _]; subst.
    apply (seg_walks b t h pg xs {| thr := t; p := Some h'; v := dbegin (hdr pg') |}
             last _ Hp Hs) with (n := length xs); [lia | | | lia | lia].
    + by apply advance_last_linked.
    + by apply IH.
  - inversion Hrest; subst. cbn [concat].
    apply (seg_walks b t h pg xs last last _ Hp Hs) with (n := length xs);
      [lia | | | lia | lia].
    + rewrite <- Hc2. by apply advance_last_unlinked.
    + apply walks_stop.
Qed.

(** The local walk of worker [tid] over a bag with contents [vw]. *)
Lemma local_walk_view (b : bag) (vw : list (list (list T))) (tid : nat)
    (segs : list (list T)) :
  view b vw -> vw !! tid = Some segs ->
  exists first last,
    local_begin tid b = Some first /\ local_end tid b = Some last
    /\ walks b first last (concat segs).
Proof.
  intros Hv Hs. unfold local_begin, local_end. rewrite Nat.add_1_r.
  assert (Ht : (tid < length (heads b))%nat).
  { rewrite (Forall2_length _ _ _ Hv). by eapply lookup_lt_Some. }
  destruct (lookup_lt_is_Some_2 _ _ Ht) as [H Hh].
  destruct (view_lookup _ _ _ _ Hv Hh) as (segs' & Hs' & Hc).
  assert (segs' = segs) as -> by congruence.
  destruct (ctor_yields b (drop (S tid) vw) (S tid)) as (last & Hlast & _); [lia | |].
  { by apply Forall2_drop. }
  destruct H as [h|].
  - inversion Hc as [|h0 pg xs rest Hp _ _ _ _]; subst.
    eexists _, last. split; [by apply (iterator_ctor_head _ _ h pg)|].
    split; [done|]. by apply (chain_walks b tid last).
  - inversion Hc; subst. exists last, last.
    split; [by rewrite iterator_ctor_null|]. split; [done|]. apply walks_stop.
Qed.

(** *** What [destruct()] and [clear()] destroy *)

Lemma destroy_slots_spec (xs : list T) (c : Z -> option T) (log : list T) (a : Z) :
  (forall i x, xs !! i = Some x -> c (a + Z.of_nat i) = Some x) ->
  exists c', destroy_slots (seqZ a (Z.of_nat (length xs))) c log = Some (c', log ++ xs)
    /\ forall k, c' k = if (a <=? k) && (k <? a + Z.of_nat (length xs)) then None
                        else c k.
Proof.
  revert c log a. induction xs as [|x xs IH]; intros c log a Hx.
  - exists c. rewrite seqZ_nil by (cbn; lia). cbn [destroy_slots].
    split; [by rewrite app_nil_r|]. intros k. cbn [length].
    destruct (Z.leb_spec a k), (Z.ltb_spec k (a + Z.of_nat 0)); try done. lia.
  - rewrite seqZ_cons by (cbn [length]; lia). cbn [destroy_slots].
    pose proof (Hx 0%nat x eq_refl) as H0. rewrite Z.add_0_r in H0.
    rewrite H0. cbn [mbind option_bind].
    replace (Z.pred (Z.of_nat (length (x :: xs)))) with (Z.of_nat (length xs))
      by (cbn [length]; lia).
    destruct (IH (fun j => if j =? a then None else c j) (log ++ [x]) (Z.succ a))
      as (c' & Hd & Hc').
    { intros i y Hy. destruct (Z.eqb_spec (Z.succ a + Z.of_nat i) a); [lia|].
      replace (Z.succ a + Z.of_nat i) with (a + Z.of_nat (S i)) by lia.
      by apply Hx. }
    exists c'. split; [by rewrite Hd, <- app_assoc|].
    intros k. rewrite Hc'. cbn [length].
    destruct (Z.leb_spec (Z.succ a) k), (Z.ltb_spec k (Z.succ a + Z.of_nat (length xs))),
      (Z.leb_spec a k), (Z.ltb_spec k (a + Z.of_nat (S (length xs)))),
      (Z.eqb_spec k a); cbn [andb]; try done; lia.
Qed.

Lemma for_each_steps (P : nat -> bag -> Prop) (f : nat -> bag -> option bag)
    (n s : nat) (b : bag) :
  P s b ->
  (forall k bk, (s <= k < s + n)%nat -> P k bk -> exists b', f k bk = Some b' /\ P (S k) b') ->
  exists b', for_each f (seq s n) b = Some b' /\ P (s + n)%nat b'.
Proof.
  revert s b. induction n as [|n IH]; intros s b HP Hstep.
  - exists b. split; [reflexivity|]. by rewrite Nat.add_0_r.
  - destruct (Hstep s b) as (b1 & Hf & HP1); [lia | done |].
    destruct (IH (S s) b1 HP1) as (b2 & Hr & HP2).
    { intros k bk Hk. apply Hstep. lia. }
    exists b2. cbn [seq for_each]. rewrite Hf. cbn [mbind option_bind].
    split; [exact Hr|]. by replace (s + S n)%nat with (S s + n)%nat by lia.
Qed.

(** The newest segment of a worker's list. *)
Definition newest (segs : list (list T)) : list T :=
  match segs with
  | [] => []
  | xs :: _ => xs
  end.

(** What [destruct()] leaves of a head segment: its objects destroyed,
    the page given back. *)
Definition destroyed_page (pg pg' : page) : Prop :=
  hdr pg' = hdr pg /\ freed pg' = true
  /\ forall k, cells pg' k
               = if (dbegin (hdr pg) <=? k) && (k <? dend (hdr pg)) then None
                 else cells pg k.

(** After the rounds of [destruct()] for the workers below [k]. *)
Definition destructed (b : bag) (vw : list (list (list T))) (k : nat) (bk : bag) : Prop :=
  length (heads bk) = length (heads b)
  /\ length (pages bk) = length (pages b)
  /\ (forall t, (k <= t)%nat -> heads bk !! t = heads b !! t)
  /\ (forall t j, (t < k)%nat -> heads b !! t = Some (Some j) ->
        exists pg pg', pages b !! j = Some pg /\ pages bk !! j = Some pg'
                       /\ destroyed_page pg pg')
  /\ (forall j, (forall t, (t < k)%nat -> heads b !! t <> Some (Some j)) ->
        pages bk !! j = pages b !! j)
  /\ destroyed bk = destroyed b ++ concat (newest <$> take k vw).

Lemma destruct_worker_step (b : bag) (vw : list (list (list T))) (k : nat) (bk : bag) :
  inv b -> view b vw -> (k < length (heads b))%nat -> destructed b vw k bk ->
  exists b', destruct_worker k bk = Some b' /\ destructed b vw (S k) b'.
Proof.
  intros Hinv Hv Hk (Hlh & Hlp & Hheads & Hdone & Hrest & Hlog).
  destruct (lookup_lt_is_Some_2 _ _ Hk) as [H Hh].
  destruct (view_lookup _ _ _ _ Hv Hh) as (segs & Hs & Hc).
  unfold destruct_worker, destructed. rewrite Hheads, Hh by lia. cbn [mbind option_bind].
  rewrite (take_S_r _ _ _ Hs), fmap_app, concat_app. cbn [fmap list_fmap concat].
  rewrite app_nil_r.
  destruct H as [h|].
  - inversion Hc as [|h0 pg xs rest Hp Hf [Hlen Hx] Hne Hrest']; subst. cbn [newest].
    assert (Hph : pages bk !! h = Some pg).
    { rewrite Hrest; [done|]. intros t Ht Hth.
      pose proof (inv_heads_distinct b Hinv _ _ _ Hth Hh). lia. }
    rewrite Hph. cbn [mbind option_bind]. rewrite Hf.
    destruct (Z.ltb_spec (dend (hdr pg)) (dbegin (hdr pg))); [lia|].
    destruct (destroy_slots_spec xs (cells pg) (destroyed bk) (dbegin (hdr pg)) Hx)
      as (c' & Hd & Hc').
    rewrite Hlen in Hd. rewrite Hd. cbn [mbind option_bind].
    eexists. split; [reflexivity|]. cbn [heads pages destroyed].
    rewrite !length_insert.
    split; [done|]. split; [done|].
    split; [intros t Ht; rewrite list_lookup_insert_ne by lia; apply Hheads; lia|].
    split; [|split].
    + intros t j Ht Htj. destruct (decide (t = k)) as [->|Htk].
      * assert (j = h) as -> by congruence.
        exists pg. eexists. split; [done|].
        split; [apply list_lookup_insert_eq; rewrite Hlp; by eapply lookup_lt_Some|].
        split; [reflexivity|]. split; [reflexivity|]. cbn [cells hdr].
        intros i. rewrite Hc'.
        by replace (dbegin (hdr pg) + Z.of_nat (length xs)) with (dend (hdr pg)) by lia.
      * assert (j <> h).
        { intros ->. apply Htk. by apply (inv_heads_distinct b Hinv _ _ h). }
        rewrite list_lookup_insert_ne by done. apply (Hdone t); [lia | done].
    + intros j Hj. assert (j <> h) by (intros ->; by apply (Hj k); [lia|]).
      rewrite list_lookup_insert_ne by done. apply Hrest. intros t Ht. apply Hj. lia.
    + by rewrite Hlog, app_assoc.
  - inversion Hc; subst. cbn [newest]. exists bk. split; [reflexivity|].
    rewrite app_nil_r.
    split; [done|]. split; [done|]. split; [intros t Ht; apply Hheads; lia|].
    split; [|split; [|done]].
    + intros t j Ht Htj. destruct (decide (t = k)) as [->|Htk]; [congruence|].
      apply (Hdone t); [lia | done].
    + intros j Hj. apply Hrest. intros t Ht. apply Hj. lia.
Qed.

Lemma destruct_spec (b : bag) (vw : list (list (list T))) :
  inv b -> view b vw ->
  exists b', destruct_ b = Some b' /\ destructed b vw (length (heads b)) b'.
Proof.
  intros Hinv Hv. unfold destruct_.
  destruct (for_each_steps (destructed b vw) destruct_worker (length (heads b)) 0 b)
    as (b' & Hr & Hd).
  - unfold destructed. cbn [take fmap list_fmap concat]. rewrite app_nil_r.
    repeat split; try done. intros t j Ht. lia.
  - intros k bk Hk. apply destruct_worker_step; [done | done | lia].
  - by exists b'.
Qed.

Lemma null_heads_pages (xs : list nat) (b : bag) :
  exists b', for_each (fun i b => Some {| heads := <[i := None]> (heads b);
                                          pages := pages b;
                                          destroyed := destroyed b |}) xs b = Some b'
    /\ pages b' = pages b /\ destroyed b' = destroyed b.
Proof.
  revert b. induction xs as [|x xs IH]; intros b; [by exists b|].
  cbn [for_each mbind option_bind].
  destruct (IH {| heads := <[x := None]> (heads b); pages := pages b;
                  destroyed := destroyed b |}) as (b' & Hr & Hp & Hd).
  exists b'. by rewrite Hr.
Qed.

(** [clear()] on a well-shaped bag with contents [vw] returns; of every
    worker it destroys the objects of the newest segment, oldest first,
    and gives back that page; all other pages are as before. *)
Lemma clear_spec (b : bag) (vw : list (list (list T))) :
  inv b -> view b vw ->
  exists b', clear b = Some b'
    /\ length (heads b') = length (heads b)
    /\ (forall t H, heads b' !! t = Some H -> H = None)
    /\ destroyed b' = destroyed b ++ concat (newest <$> vw)
    /\ (forall t j, heads b !! t = Some (Some j) ->
          exists pg pg', pages b !! j = Some pg /\ pages b' !! j = Some pg'
                         /\ destroyed_page pg pg')
    /\ (forall j, (forall t, heads b !! t <> Some (Some j)) ->
          pages b' !! j = pages b !! j).
Proof.
  intros Hinv Hv.
  destruct (destruct_spec b vw Hinv Hv) as (b1 & Hd & Hlh & Hlp & _ & Hdone & Hrest & Hlog).
  destruct (null_heads_pages (seq 0 (length (heads b1))) b1) as (b2 & Hn & Hp & Hdd).
  assert (Hc : clear b = Some b2).
  { unfold clear. rewrite Hd. cbn [mbind option_bind]. exact Hn. }
  exists b2. split; [exact Hc|].
  destruct (clear_headers _ _ Hc) as [[_ Hlen] Hnull].
  split; [exact Hlen|]. split; [exact Hnull|]. rewrite Hp, Hdd.
  split.
  { rewrite Hlog, take_ge; [done|]. by rewrite <- (Forall2_length _ _ _ Hv). }
  split.
  - intros t j Htj. apply (Hdone t); [by eapply lookup_lt_Some | done].
  - intros j Hj. apply Hrest. intros t _. apply Hj.
Qed.

(** *** The cursors of a segment (C9) *)

(** Slot [k] starts behind the header and not beyond the end of the
    page. *)
Definition in_page (k : Z) : Prop :=
  sizeof_header <= k * sizeof_T <= pageSize.

Definition header_ok (h : header) : Prop :=
  dbegin h <= dend h <= dlast h
  /\ in_page (dbegin h) /\ in_page (dend h) /\ in_page (dlast h).

(** Every page of the bag has its cursors in order and in the page, and
    holds at least one slot's worth of objects. *)
Definition segments_ok (b : bag) : Prop :=
  forall j pg, pages b !! j = Some pg ->
    header_ok (hdr pg)
    /\ dbegin (hdr pg) < dend (hdr pg)
    /\ dbegin (hdr pg) = first_slot /\ dlast (hdr pg) = last_slot.



Section Fits.

(** At least one object fits in a page behind the header. *)
Hypothesis sizeof_T_pos : 0 < sizeof_T.
Hypothesis one_fits : first_slot < last_slot.

Lemma in_page_first_slot : in_page first_slot.
Proof.
  unfold in_page. pose proof one_fits as Hf. unfold first_slot, last_slot in *.
  assert (pageSize / sizeof_T * sizeof_T <= pageSize).
  { rewrite Z.mul_comm. apply Z.mul_div_le. lia. }
  destruct (Z.ltb_spec sizeof_T sizeof_header).
  - assert (sizeof_header < sizeof_T * (sizeof_header / sizeof_T) + sizeof_T); [|nia].
    pose proof (Z.mod_pos_bound sizeof_header sizeof_T sizeof_T_pos).
    pose proof (Z.div_mod sizeof_header sizeof_T). lia.
  - nia.
Qed.

Lemma in_page_last_slot : in_page last_slot.
Proof.
  pose proof in_page_first_slot as Hf. pose proof one_fits as Ho.
  unfold in_page, last_slot in *.
  assert (pageSize / sizeof_T * sizeof_T <= pageSize).
  { rewrite Z.mul_comm. apply Z.mul_div_le. lia. }
  nia.
Qed.

Lemma in_page_between (k : Z) : first_slot <= k <= last_slot -> in_page k.
Proof.
  pose proof in_page_first_slot. pose proof in_page_last_slot.
  unfold in_page in *. nia.
Qed.

Lemma header_ok_fresh : header_ok fresh_header.
Proof.
  unfold header_ok, fresh_header; cbn. pose proof one_fits.
  repeat split; try lia; apply in_page_between; lia.
Qed.

Lemma header_ok_cursors (h : header) :
  dbegin h = first_slot -> dlast h = last_slot -> dbegin h <= dend h <= dlast h ->
  header_ok h.
Proof.
  intros Hb Hl Hd. unfold header_ok.
  split; [done|]. repeat split; apply in_page_between; lia.
Qed.

Lemma segments_ok_ctor (workers : nat) : segments_ok (galois_insert_bag_ctor workers).
Proof. intros j pg [=]. Qed.

Lemma segments_ok_clear (b b' : bag) :
  segments_ok b -> clear b = Some b' -> segments_ok b'.
Proof.
  intros Hok [[Hh _] _]%clear_headers j pg Hj.
  assert (Hj' : (hdr <$> pages b) !! j = Some (hdr pg)).
  { by rewrite <- Hh, list_lookup_fmap, Hj. }
  rewrite list_lookup_fmap in Hj'.
  destruct (pages b !! j) as [pg0|] eqn:Hp0; [|discriminate].
  injection Hj' as <-. by apply (Hok j).
Qed.

(** What one push does.  [h] is the head segment of the pushing worker
    after the push. *)
Definition push_effect (tid : nat) (val : T) (b b' : bag) : Prop :=
  exists h pg',
    heads b' !! tid = Some (Some h) /\ pages b' !! h = Some pg'
    /\ header_ok (hdr pg')
    /\ cells pg' (dend (hdr pg') - 1) = Some val
    /\ match pages b !! h with
       | Some pg =>
           (* the head segment had room *)
           heads b !! tid = Some (Some h)
           /\ dend (hdr pg') = dend (hdr pg) + 1
           /\ dbegin (hdr pg') = dbegin (hdr pg) /\ dlast (hdr pg') = dlast (hdr pg)
           /\ forall k, k <> dend (hdr pg) -> cells pg' k = cells pg k
       | None =>
           (* a fresh segment was linked in front *)
           next (hdr pg') = default None (heads b !! tid)
           /\ dend (hdr pg') = dbegin fresh_header + 1
           /\ dbegin (hdr pg') = dbegin fresh_header
           /\ dlast (hdr pg') = dlast fresh_header
           /\ forall k, k <> dbegin fresh_header -> cells pg' k = None
       end
    /\ (forall j pg, j <> h -> pages b !! j = Some pg -> pages b' !! j = Some pg)
    /\ (length (pages b') <= S (length (pages b)))%nat
    /\ destroyed b' = destroyed b.

Lemma push_effect_spec (tid : nat) (val : T) (b : bag) :
  inv b -> segments_ok b -> (tid < length (heads b))%nat ->
  exists b', push tid val b = Some b' /\ push_effect tid val b b' /\ segments_ok b'.
Proof.
  intros Hinv Hok Htid.
  destruct (lookup_lt_is_Some_2 _ _ Htid) as [H Hh].
  assert (Hcase : needs_segment b H = Some true
                  \/ exists h pg, H = Some h /\ pages b !! h = Some pg
                                  /\ dend (hdr pg) <> dlast (hdr pg)).
  { destruct H as [h|]; [|by left]. cbn.
    destruct (lookup_lt_is_Some_2 (pages b) h) as [pg Hp];
      [by apply (inv_heads_valid b Hinv tid)|].
    rewrite Hp. cbn.
    destruct (Z.eqb_spec (dend (hdr pg)) (dlast (hdr pg))); [by left|].
    right. by exists h, pg. }
  destruct Hcase as [Hn | (h & pg & -> & Hp & Hne)].
  - eexists. split; [by apply push_new_segment|].
    assert (Hpp : header_ok (hdr (pushed_page val H))).
    { apply header_ok_cursors; cbn; try done. pose proof one_fits. lia. }
    split.
    + exists (length (pages b)), (pushed_page val H). cbn [heads pages destroyed].
      split; [by apply list_lookup_insert_eq|].
      split; [by apply list_lookup_middle|].
      split; [exact Hpp|].
      split. { cbn. replace (first_slot + 1 - 1) with first_slot by lia.
               by rewrite Z.eqb_refl. }
      split.
      { rewrite (lookup_ge_None_2 (pages b)) by lia. rewrite Hh. cbn.
        repeat split; try done. intros k Hk.
        destruct (Z.eqb_spec k first_slot); [contradiction | reflexivity]. }
      split. { intros j pg Hj Hpj. rewrite lookup_app_l; [done | by eapply lookup_lt_Some]. }
      split; [rewrite length_app; cbn; lia | reflexivity].
    + intros j pg Hj. cbn [pages] in Hj.
      apply lookup_snoc_Some in Hj as [[_ Hj] | [_ <-]]; [by apply (Hok j)|].
      split; [exact Hpp|]. cbn. repeat split; lia.
  - destruct (Hok h pg Hp) as ((Hord & _) & Hlt & Hb & Hl).
    assert (Hpp : header_ok (hdr (construct_at_dend val pg))).
    { apply header_ok_cursors; cbn; try done. lia. }
    eexists. split; [by apply (push_same_segment _ _ _ h pg)|].
    assert (Hh' : (h < length (pages b))%nat) by (by eapply lookup_lt_Some).
    split.
    + exists h, (construct_at_dend val pg). cbn [heads pages destroyed].
      split; [exact Hh|].
      split; [by apply list_lookup_insert_eq|].
      split; [exact Hpp|].
      split. { cbn. replace (dend (hdr pg) + 1 - 1) with (dend (hdr pg)) by lia.
               by rewrite Z.eqb_refl. }
      split.
      { rewrite Hp. repeat split; try done. intros k Hk. cbn.
        destruct (Z.eqb_spec k (dend (hdr pg))); [contradiction | reflexivity]. }
      split. { intros j pg0 Hj Hpj. by rewrite list_lookup_insert_ne. }
      split; [rewrite length_insert; lia | reflexivity].
    + intros j pg0 Hj. cbn [pages] in Hj.
      apply list_lookup_insert_Some in Hj as [(<- & <- & _) | (_ & Hj)];
        [|by apply (Hok j)].
      split; [exact Hpp|]. cbn. repeat split; lia.
Qed.

Lemma reachable_segments_ok (workers : nat) (b : bag) :
  reachable workers b -> segments_ok b.
Proof.
  induction 1 as [|b b' tid val Hr IH Htid Hp | b b' Hr IH Hc].
  - apply segments_ok_ctor.
  - apply reachable_inv in Hr as (Hl & Hi & _).
    destruct (push_effect_spec tid val b Hi IH) as (b1 & Hp1 & _ & Hok); [lia|].
    assert (b1 = b') as -> by congruence. exact Hok.
  - by apply (segments_ok_clear b).
Qed.

(** C9 (amended): when at least one object fits in a page behind the
    header ([0 < sizeof(T)] and the first slot index is below
    [pageSize / sizeof(T)]), a freshly allocated segment has
    [dbegin == dend] with its cursors in order and in the page; in every
    state the bag can reach by pushes and clears, every segment header
    satisfies [dbegin <= dend <= dlast] with the three cursors in the
    page, and every segment linked into a worker's list is a live page
    holding at least one object; and every push by a worker succeeds,
    keeps these properties, constructs exactly one new object (the pushed
    value, at the old [dend] of the worker's head segment or in the first
    slot of a fresh segment linked in front of it) and leaves [dend] of the
    head segment one further, all other pages being untouched. *)
Theorem segment_cursor_invariant (workers : nat) :
  (header_ok fresh_header /\ dbegin fresh_header = dend fresh_header)
  /\ forall b, reachable workers b ->
       (forall j pg, pages b !! j = Some pg -> header_ok (hdr pg))
       /\ (forall h, linked b h ->
             exists pg, pages b !! h = Some pg /\ freed pg = false
               /\ dbegin (hdr pg) < dend (hdr pg)
               /\ forall k, dbegin (hdr pg) <= k < dend (hdr pg) -> is_Some (cells pg k))
       /\ forall tid val, (tid < workers)%nat ->
            exists b', push tid val b = Some b' /\ reachable workers b'
                       /\ push_effect tid val b b'.
Proof.
  split; [split; [apply header_ok_fresh | reflexivity]|].
  intros b Hr. split; [|split].
  - intros j pg Hj. by apply (reachable_segments_ok workers b Hr j).
  - intros h Hl. by apply (linked_holds_objects workers).
  - intros tid val Htid.
    pose proof (reachable_segments_ok workers b Hr) as Hok.
    pose proof (reachable_inv workers b Hr) as (Hl & Hi & _).
    destruct (push_effect_spec tid val b Hi Hok) as (b' & Hp & He & _); [lia|].
    exists b'. split; [done|]. split; [|done]. by apply (reachable_push workers b b' tid val).
Qed.

(** *** The order of a walk *)

(** The number of objects that a segment holds. *)
Definition capacity : Z := last_slot - first_slot.

(** What a push does to the contents of the list of a worker (its
    segments, newest first): a new segment in front when there is none or
    the newest one is full, one more object in the newest one
    otherwise. *)
Definition push_seg (val : T) (segs : list (list T)) : list (list T) :=
  match segs with
  | [] => [[val]]
  | xs :: rest =>
      if Z.of_nat (length xs) =? capacity then [val] :: segs else (xs ++ [val]) :: rest
  end.

(** The segments of a worker that pushed [xs], in this order, on an empty
    list. *)
Definition segments (xs : list T) : list (list T) :=
  foldl (fun segs x => push_seg x segs) [] xs.

(** The values that worker [t] pushes in the schedule [ps], in order. *)
Definition pushed_by (t : nat) (ps : list (nat * T)) : list T :=
  (filter (fun q => q.1 = t) ps).*2.

Lemma pushed_by_cons (t tid : nat) (val : T) (ps : list (nat * T)) :
  pushed_by t ((tid, val) :: ps)
  = if decide (tid = t) then val :: pushed_by t ps else pushed_by t ps.
Proof.
  unfold pushed_by. rewrite filter_cons. cbn [fst].
  by destruct (decide (tid = t)).
Qed.

Lemma concat_push_seg (val : T) (segs : list (list T)) :
  concat (push_seg val segs) ≡ₚ concat segs ++ [val].
Proof.
  destruct segs as [|xs rest]; [reflexivity|]. cbn [push_seg].
  destruct (_ =? _); cbn [concat].
  - rewrite <- Permutation_cons_append. reflexivity.
  - rewrite <- !app_assoc. apply Permutation_app_head, Permutation_app_comm.
Qed.

Lemma concat_foldl_push_seg (xs : list T) (segs : list (list T)) :
  concat (foldl (fun segs x => push_seg x segs) segs xs) ≡ₚ concat segs ++ xs.
Proof.
  revert segs. induction xs as [|x xs IH]; intros segs; cbn [foldl].
  - by rewrite app_nil_r.
  - rewrite IH, concat_push_seg, <- app_assoc. reflexivity.
Qed.

Lemma foldl_push_seg_room (xs acc : list T) :
  acc <> [] -> Z.of_nat (length acc + length xs) <= capacity ->
  foldl (fun segs x => push_seg x segs) [acc] xs = [acc ++ xs].
Proof.
  revert acc. induction xs as [|x xs IH]; intros acc Hne Hl; cbn [foldl].
  - by rewrite app_nil_r.
  - cbn [push_seg length] in *.
    destruct (Z.eqb_spec (Z.of_nat (length acc)) capacity); [lia|].
    rewrite IH; [by rewrite <- app_assoc | by destruct acc |].
    rewrite length_app. cbn [length]. lia.
Qed.

(** A worker that pushes no more than one segment holds is walked in the
    order of its pushes. *)
Lemma concat_segments_room (xs : list T) :
  Z.of_nat (length xs) <= capacity -> concat (segments xs) = xs.
Proof.
  intros Hl. destruct xs as [|x xs]; [reflexivity|].
  unfold segments. cbn [foldl push_seg].
  rewrite foldl_push_seg_room; [cbn; by rewrite app_nil_r | done |].
  cbn [length] in *. lia.
Qed.

Lemma concat_workers {A : Type} (f : A -> list (list T)) (ts : list A) :
  concat ((fun t => concat (f t)) <$> ts) = concat (concat (f <$> ts)).
Proof.
  induction ts as [|t ts IH]; [reflexivity|].
  cbn [fmap list_fmap concat]. rewrite concat_app. by f_equal.
Qed.

(** A push on a well-shaped bag with contents [vw]. *)
Lemma push_view_exact (tid : nat) (val : T) (b : bag) (vw : list (list (list T)))
    (segs : list (list T)) :
  inv b -> segments_ok b -> view b vw -> vw !! tid = Some segs ->
  exists b', push tid val b = Some b' /\ destroyed b' = destroyed b
    /\ inv b' /\ segments_ok b'
    /\ view b' (<[tid := push_seg val segs]> vw)
    /\ length (heads b') = length (heads b).
Proof.
  intros Hinv Hok Hv Hs.
  assert (Htid : (tid < length (heads b))%nat).
  { rewrite (Forall2_length _ _ _ Hv). by eapply lookup_lt_Some. }
  destruct (push_effect_spec tid val b Hinv Hok Htid) as (b' & Hpush & Heff & Hok').
  exists b'. split; [exact Hpush|].
  split; [by destruct Heff as (? & ? & _ & _ & _ & _ & _ & _ & _ & Hdes)|].
  clear Heff.
  destruct (lookup_lt_is_Some_2 _ _ Htid) as [H Hh].
  destruct (view_lookup _ _ _ _ Hv Hh) as (segs' & Hs' & Hc).
  assert (segs' = segs) as -> by congruence.
  destruct H as [h|].
  - inversion Hc as [|h0 pg xs rest Hp Hf [Hlen Hx] Hne Hrest]; subst.
    destruct (Hok h pg Hp) as (_ & _ & Hb & Hl). cbn [push_seg].
    destruct (Z.eqb_spec (dend (hdr pg)) (dlast (hdr pg))) as [Hfull|Hroom].
    + assert (Hn : needs_segment b (Some h) = Some true).
      { cbn. rewrite Hp. cbn. by rewrite Hfull, Z.eqb_refl. }
      rewrite (push_new_segment tid val b (Some h) Hh Hn) in Hpush.
      injection Hpush as <-.
      destruct (Z.eqb_spec (Z.of_nat (length xs)) capacity) as [_|Hc'];
        [|unfold capacity in Hc'; lia].
      split; [by apply inv_push_new|]. split; [done|].
      split; [by apply view_push_new|]. cbn. by rewrite length_insert.
    + rewrite (push_same_segment tid val b h pg Hh Hp Hroom) in Hpush.
      injection Hpush as <-.
      destruct (Z.eqb_spec (Z.of_nat (length xs)) capacity) as [Hc'|_];
        [unfold capacity in Hc'; lia|].
      destruct (view_push_same tid val b h pg vw Hinv Hv Hh Hp)
        as (xs' & rest' & Hs'' & Hv').
      assert (xs' = xs /\ rest' = rest) as [-> ->] by (split; congruence).
      split; [by apply inv_push_same|]. split; [done|]. by split.
  - inversion Hc; subst. cbn [push_seg].
    rewrite (push_new_segment tid val b None Hh eq_refl) in Hpush.
    injection Hpush as <-.
    split; [by apply inv_push_new|]. split; [done|].
    split; [by apply view_push_new|]. cbn. by rewrite length_insert.
Qed.

Lemma pushes_view_exact (ps : list (nat * T)) (b : bag) (vw : list (list (list T))) :
  inv b -> segments_ok b -> view b vw ->
  Forall (fun q => (q.1 < length (heads b))%nat) ps ->
  exists b' vw',
    pushes ps b = Some b' /\ destroyed b' = destroyed b
    /\ inv b' /\ segments_ok b' /\ view b' vw'
    /\ length (heads b') = length (heads b)
    /\ length vw' = length vw
    /\ forall t segs, vw !! t = Some segs ->
         vw' !! t = Some (foldl (fun segs x => push_seg x segs) segs (pushed_by t ps)).
Proof.
  revert b vw. induction ps as [|[tid val] ps IH]; intros b vw Hinv Hok Hv Hps.
  - exists b, vw. do 7 (split; [done|]). intros t segs Hs. exact Hs.
  - apply Forall_cons in Hps as [Htid Hps]. cbn in Htid.
    destruct (lookup_lt_is_Some_2 vw tid) as [segs0 Hs0].
    { by rewrite <- (Forall2_length _ _ _ Hv). }
    destruct (push_view_exact tid val b vw segs0 Hinv Hok Hv Hs0)
      as (b1 & Hp & Hd1 & Hi1 & Hok1 & Hv1 & Hl1).
    destruct (IH b1 _ Hi1 Hok1 Hv1)
      as (b2 & vw2 & Hp2 & Hd2 & Hi2 & Hok2 & Hv2 & Hl2 & Hlv & Hvw).
    { by rewrite Hl1. }
    exists b2, vw2. cbn [pushes]. rewrite Hp. cbn [mbind option_bind].
    split; [done|]. split; [congruence|].
    do 3 (split; [done|]). split; [congruence|].
    split; [by rewrite Hlv, length_insert|].
    intros t segs Hs. rewrite pushed_by_cons.
    destruct (decide (tid = t)) as [<-|Hne].
    + assert (segs = segs0) as -> by congruence. cbn [foldl].
      apply Hvw. apply list_lookup_insert_eq. by eapply lookup_lt_Some.
    + apply Hvw. by rewrite list_lookup_insert_ne.
Qed.

(** The contents of a bag after the pushes [ps] on an empty one. *)
Lemma pushes_ctor_view (workers : nat) (ps : list (nat * T)) :
  Forall (fun q => (q.1 < workers)%nat) ps ->
  exists b,
    pushes ps (galois_insert_bag_ctor workers) = Some b
    /\ destroyed b = []
    /\ inv b /\ segments_ok b /\ length (heads b) = workers
    /\ view b ((fun t => segments (pushed_by t ps)) <$> seq 0 workers).
Proof.
  intros Hps.
  destruct (pushes_view_exact ps (galois_insert_bag_ctor workers) (replicate workers []))
    as (b & vw & Hp & Hd & Hi & Hok & Hv & Hl & Hlv & Hvw).
  - apply inv_ctor.
  - apply segments_ok_ctor.
  - apply view_ctor.
  - cbn [galois_insert_bag_ctor heads]. by rewrite length_replicate.
  - exists b. split; [done|]. split; [done|]. split; [done|]. split; [done|].
    cbn [galois_insert_bag_ctor heads] in Hl. rewrite length_replicate in Hl.
    rewrite length_replicate in Hlv.
    split; [done|].
    replace ((fun t => segments (pushed_by t ps)) <$> seq 0 workers) with vw; [done|].
    apply list_eq. intros t. rewrite list_lookup_fmap.
    destruct (decide (t < workers)%nat) as [Ht|Ht].
    + rewrite lookup_seq_lt by done. cbn.
      apply Hvw. by apply lookup_replicate_2.
    + rewrite lookup_seq_ge by lia. cbn. apply lookup_ge_None_2. lia.
Qed.

(** *** Where the objects lie, and completeness (C3) *)





(** A schedule of pushes leads from a reachable state to a reachable
    state. *)
Lemma reachable_pushes (workers : nat) (ps : list (nat * T)) :
  forall b b', reachable workers b -> Forall (fun q => (q.1 < workers)%nat) ps ->
    pushes ps b = Some b' -> reachable workers b'.
Proof.
  induction ps as [|[tid val] ps IH]; intros b b' Hr Hps Hp.
  - cbn in Hp. by injection Hp as <-.
  - apply Forall_cons in Hps as [Htid Hps]. cbn in Htid. cbn [pushes] in Hp.
    destruct (push tid val b) as [b1|] eqn:Hp1; [|discriminate].
    cbn [mbind option_bind] in Hp.
    apply (IH b1); [by apply (reachable_push workers b b1 tid val) | done | done].
Qed.

(** X9: when an object fits in a page, a walk from [begin()] to [end()]
    over the bag that the pushes [ps] leave visits worker after worker in
    index order, of each worker its segments from the newest to the
    oldest, and every segment in the order of the pushes; so a worker
    that pushed no more objects than a segment holds is walked in the
    order of its pushes. *)
Theorem walk_order (workers : nat) (ps : list (nat * T)) :
  Forall (fun q => (q.1 < workers)%nat) ps ->
  exists b,
    pushes ps (galois_insert_bag_ctor workers) = Some b
    /\ (forall fuel, (length ps < fuel)%nat ->
          elements fuel b
          = Some (concat ((fun t => concat (segments (pushed_by t ps))) <$> seq 0 workers)))
    /\ forall t, Z.of_nat (length (pushed_by t ps)) <= capacity ->
         concat (segments (pushed_by t ps)) = pushed_by t ps.
Proof.
  intros Hps.
  destruct (pushes_ctor_view workers ps Hps) as (b & Hp & _ & Hi & Hok & Hl & Hv).
  exists b. split; [exact Hp|]. split; [|intros t; apply concat_segments_room].
  intros fuel Hf.
  replace (concat ((fun t => concat (segments (pushed_by t ps))) <$> seq 0 workers))
    with (concat (concat ((fun t => segments (pushed_by t ps)) <$> seq 0 workers)))
    by (symmetry; apply (concat_workers (fun t => segments (pushed_by t ps)))).
  apply elements_view; [exact Hv|].
  destruct (pushes_spec ps (galois_insert_bag_ctor workers) (replicate workers []))
    as (b2 & vw2 & Hp2 & _ & Hv2 & _ & Hperm).
  { apply inv_ctor. } { apply view_ctor. }
  { cbn [galois_insert_bag_ctor heads]. by rewrite length_replicate. }
  assert (b2 = b) as -> by congruence.
  assert (Hnil : forall w, concat (concat (replicate w ([] : list (list T)))) = []).
  { intros w. induction w as [|w IHw]; [reflexivity | exact IHw]. }
  rewrite Hnil, app_nil_r in Hperm.
  apply Permutation_length in Hperm. rewrite length_fmap in Hperm.
  set (vw := (fun t => segments (pushed_by t ps)) <$> seq 0 workers) in *.
  set (F := S (Nat.max (length ps) (length (concat (concat vw))))).
  pose proof (elements_view b vw2 Hv2 F ltac:(lia)) as H2.
  pose proof (elements_view b vw Hv F ltac:(lia)) as H1.
  rewrite H1 in H2. injection H2 as H2. rewrite H2. lia.
Qed.

Lemma workers_lookup {A : Type} (f : nat -> A) (workers t : nat) :
  (t < workers)%nat -> (f <$> seq 0 workers) !! t = Some (f t).
Proof. intros Ht. by rewrite list_lookup_fmap, lookup_seq_lt. Qed.

(** X10: when an object fits in a page, the walk of worker [tid] from
    [local_begin()] to [local_end()] over the bag that the pushes [ps]
    leave visits the objects that [tid] pushed and no others: its
    segments from the newest to the oldest, every segment in the order of
    the pushes. *)
Theorem local_walk_order (workers : nat) (ps : list (nat * T)) (tid : nat) :
  Forall (fun q => (q.1 < workers)%nat) ps -> (tid < workers)%nat ->
  exists b first last,
    pushes ps (galois_insert_bag_ctor workers) = Some b
    /\ local_begin tid b = Some first /\ local_end tid b = Some last
    /\ (forall fuel, (length (pushed_by tid ps) < fuel)%nat ->
          iterate fuel b first last = Some (concat (segments (pushed_by tid ps))))
    /\ concat (segments (pushed_by tid ps)) ≡ₚ pushed_by tid ps.
Proof.
  intros Hps Htid.
  destruct (pushes_ctor_view workers ps Hps) as (b & Hp & _ & Hi & Hok & Hl & Hv).
  destruct (local_walk_view b _ tid (segments (pushed_by tid ps)) Hv)
    as (first & last & Hb & He & Hw).
  { by apply (workers_lookup (fun t => segments (pushed_by t ps))). }
  assert (Hperm : concat (segments (pushed_by tid ps)) ≡ₚ pushed_by tid ps).
  { unfold segments. by rewrite concat_foldl_push_seg. }
  exists b, first, last. do 3 (split; [done|]). split; [|done].
  intros fuel Hf. apply Hw. by rewrite (Permutation_length Hperm).
Qed.

Lemma newest_segments_room (xs : list T) :
  Z.of_nat (length xs) <= capacity ->
  newest (segments xs) = xs /\ (length (segments xs) <= 1)%nat.
Proof.
  intros Hl. destruct xs as [|x xs]; [split; [reflexivity | cbn; lia]|].
  unfold segments. cbn [foldl push_seg].
  rewrite foldl_push_seg_room; [split; [reflexivity | cbn; lia] | done |].
  cbn [length] in *. lia.
Qed.

(** Pushes leave every page linked into the list of some worker. *)
Lemma linked_push_new (tid : nat) (val : T) (b : bag) (H : option nat) (j : nat) :
  heads b !! tid = Some H -> linked b j ->
  linked {| heads := <[tid := Some (length (pages b))]> (heads b);
            pages := pages b ++ [pushed_page val H];
            destroyed := destroyed b |} j.
Proof.
  intros Hh. set (b' := mkBag _ _ _).
  assert (Hnew : linked b' (length (pages b))).
  { apply (linked_head b' tid). cbn. apply list_lookup_insert_eq.
    by eapply lookup_lt_Some. }
  induction 1 as [t h Ht | h h' pg _ IH Hp Hn].
  - destruct (decide (t = tid)) as [->|Hne].
    + apply (linked_next b' (length (pages b)) h (pushed_page val H) Hnew).
      * cbn. by apply list_lookup_middle.
      * cbn. congruence.
    + apply (linked_head b' t). cbn. by rewrite list_lookup_insert_ne.
  - apply (linked_next b' h h' pg IH); [|done].
    cbn. rewrite lookup_app_l; [done | by eapply lookup_lt_Some].
Qed.

Lemma linked_push_same (val : T) (b : bag) (h : nat) (pg : page) (j : nat) :
  pages b !! h = Some pg -> linked b j ->
  linked {| heads := heads b;
            pages := <[h := construct_at_dend val pg]> (pages b);
            destroyed := destroyed b |} j.
Proof.
  intros Hp. set (b' := mkBag _ _ _).
  induction 1 as [t h0 Ht | h0 h' pg0 _ IH Hp0 Hn].
  - by apply (linked_head b' t).
  - destruct (decide (h0 = h)) as [->|Hne].
    + assert (pg0 = pg) as -> by congruence.
      apply (linked_next b' h h' (construct_at_dend val pg) IH); [|done].
      cbn. apply list_lookup_insert_eq. by eapply lookup_lt_Some.
    + apply (linked_next b' h0 h' pg0 IH); [|done].
      cbn. by rewrite list_lookup_insert_ne.
Qed.

Definition all_linked (b : bag) : Prop :=
  forall j, (j < length (pages b))%nat -> linked b j.

Lemma all_linked_push (tid : nat) (val : T) (b b' : bag) :
  (tid < length (heads b))%nat -> push tid val b = Some b' ->
  all_linked b -> all_linked b'.
Proof.
  intros Htid Hpush Hall.
  destruct (lookup_lt_is_Some_2 _ _ Htid) as [H Hh].
  assert (Hcase : needs_segment b H = Some true
                  \/ (exists h pg, H = Some h /\ pages b !! h = Some pg
                                   /\ dend (hdr pg) <> dlast (hdr pg))
                  \/ needs_segment b H = None).
  { destruct H as [h|]; [|by left]. cbn.
    destruct (pages b !! h) as [pg|] eqn:Hp; [|by right; right]. cbn.
    destruct (Z.eqb_spec (dend (hdr pg)) (dlast (hdr pg))); [by left|].
    right. left. by exists h, pg. }
  destruct Hcase as [Hn | [(h & pg & -> & Hp & Hne) | Hn]].
  - rewrite (push_new_segment tid val b H Hh Hn) in Hpush. injection Hpush as <-.
    intros j Hj. cbn [pages] in Hj. rewrite length_app in Hj. cbn [length] in Hj.
    destruct (decide (j = length (pages b))) as [->|Hne].
    + apply (linked_head _ tid). cbn. apply list_lookup_insert_eq.
      by eapply lookup_lt_Some.
    + apply linked_push_new; [done|]. apply Hall. lia.
  - rewrite (push_same_segment tid val b h pg Hh Hp Hne) in Hpush.
    injection Hpush as <-.
    intros j Hj. cbn [pages] in Hj. rewrite length_insert in Hj.
    apply linked_push_same; [done|]. by apply Hall.
  - unfold push in Hpush. rewrite Hh in Hpush. cbn [mbind option_bind] in Hpush.
    rewrite Hn in Hpush. discriminate.
Qed.

Lemma all_linked_pushes (ps : list (nat * T)) (b b' : bag) :
  inv b -> segments_ok b -> (exists vw, view b vw) ->
  Forall (fun q => (q.1 < length (heads b))%nat) ps ->
  pushes ps b = Some b' -> all_linked b -> all_linked b'.
Proof.
  revert b. induction ps as [|[tid val] ps IH]; intros b Hinv Hok [vw Hv] Hps Hp Hall.
  - by injection Hp as <-.
  - apply Forall_cons in Hps as [Htid Hps]. cbn in Htid.
    cbn [pushes] in Hp.
    destruct (lookup_lt_is_Some_2 vw tid) as [segs0 Hs0].
    { by rewrite <- (Forall2_length _ _ _ Hv). }
    destruct (push_view_exact tid val b vw segs0 Hinv Hok Hv Hs0)
      as (b1 & Hp1 & _ & Hi1 & Hok1 & Hv1 & Hl1).
    rewrite Hp1 in Hp. cbn [mbind option_bind] in Hp.
    apply (IH b1); try done.
    + by eexists.
    + by rewrite Hl1.
    + by apply (all_linked_push tid val b).
Qed.

(** With one segment per worker at most, the linked pages are the
    heads. *)
Lemma linked_single_segment (b : bag) (vw : list (list (list T))) (j : nat) :
  view b vw -> Forall (fun segs => (length segs <= 1)%nat) vw ->
  linked b j -> exists t, heads b !! t = Some (Some j).
Proof.
  intros Hv Hone. induction 1 as [t h Ht | h h' pg _ [t Ht] Hp Hn]; [by exists t|].
  destruct (view_lookup _ _ _ _ Hv Ht) as (segs & Hs & Hc).
  assert (Hl : (length segs <= 1)%nat).
  { rewrite Forall_forall in Hone. apply Hone. by eapply list_elem_of_lookup_2. }
  inversion Hc as [|h0 pg0 xs rest Hp0 _ _ _ Hrest]; subst.
  assert (pg0 = pg) as -> by congruence.
  destruct rest; [|cbn in Hl; lia]. rewrite Hn in Hrest. inversion Hrest.
Qed.

(** X11: when an object fits in a page, [clear()] on the bag that the
    pushes [ps] leave returns and nulls every head, but of every worker it
    destroys the objects of the newest segment only, and gives back the
    head page only: a page that heads no list is left as it was.  If no
    worker pushed more objects than a segment holds, every pushed object
    is destroyed, worker after worker in the order of the pushes, and
    every page is given back. *)
Theorem clear_destroys_newest_segments (workers : nat) (ps : list (nat * T)) :
  Forall (fun q => (q.1 < workers)%nat) ps ->
  exists b b',
    pushes ps (galois_insert_bag_ctor workers) = Some b
    /\ clear b = Some b'
    /\ (forall t, (t < workers)%nat -> heads b' !! t = Some None)
    /\ destroyed b'
       = concat ((fun t => newest (segments (pushed_by t ps))) <$> seq 0 workers)
    /\ (forall t j, heads b !! t = Some (Some j) ->
          exists pg', pages b' !! j = Some pg' /\ freed pg' = true)
    /\ (forall j, (forall t, heads b !! t <> Some (Some j)) ->
          pages b' !! j = pages b !! j)
    /\ ((forall t, (t < workers)%nat -> Z.of_nat (length (pushed_by t ps)) <= capacity) ->
        destroyed b' = concat ((fun t => pushed_by t ps) <$> seq 0 workers)
        /\ forall j pg', pages b' !! j = Some pg' -> freed pg' = true).
Proof.
  intros Hps.
  destruct (pushes_ctor_view workers ps Hps) as (b & Hp & Hd & Hi & Hok & Hl & Hv).
  destruct (clear_spec b _ Hi Hv) as (b' & Hc & Hlen & Hnull & Hlog & Hheads & Hrest).
  exists b, b'. split; [exact Hp|]. split; [exact Hc|].
  rewrite Hd, app_nil_l, <- list_fmap_compose in Hlog.
  split.
  { intros t Ht. destruct (lookup_lt_is_Some_2 (heads b') t) as [H HH]; [lia|].
    by rewrite HH, (Hnull t H HH). }
  split; [exact Hlog|]. split.
  { intros t j Htj. destruct (Hheads t j Htj) as (pg & pg' & _ & Hp' & _ & Hf & _).
    by exists pg'. }
  split; [exact Hrest|].
  intros Hroom. split.
  - rewrite Hlog. f_equal. apply list_fmap_ext. intros i t Ht.
    apply lookup_seq in Ht as [-> Ht]. cbn. by apply newest_segments_room, Hroom.
  - intros j pg' Hj.
    assert (Hall : all_linked b).
    { apply (all_linked_pushes ps (galois_insert_bag_ctor workers));
        [apply inv_ctor | apply segments_ok_ctor | eexists; apply view_ctor
        | cbn [galois_insert_bag_ctor heads]; by rewrite length_replicate
        | done | intros k Hk; cbn in Hk; lia]. }
    assert (Hjl : (j < length (pages b))%nat).
    { apply clear_headers in Hc as [[Hh _] _].
      apply (f_equal length) in Hh. rewrite !length_fmap in Hh.
      rewrite <- Hh. by eapply lookup_lt_Some. }
    destruct (linked_single_segment b _ j Hv) as [t Ht]; [|by apply Hall|].
    + apply Forall_fmap, Forall_forall. intros t Ht%elem_of_seq. cbn.
      apply newest_segments_room, Hroom. lia.
    + destruct (Hheads t j Ht) as (pg & pg2 & _ & Hp2 & _ & Hf & _). congruence.
Qed.

Lemma iterator_ctor_all_null (b : bag) :
  (forall t H, heads b !! t = Some H -> H = None) ->
  forall k t, (t + k = length (heads b))%nat ->
    iterator_ctor b t = iterator_ctor b (length (heads b)).
Proof.
  intros Hnull. induction k as [|k IH]; intros t Ht.
  - by replace t with (length (heads b)) by lia.
  - destruct (lookup_lt_is_Some_2 (heads b) t) as [H HH]; [lia|].
    rewrite (Hnull t H HH) in HH. rewrite (iterator_ctor_null _ _ HH).
    apply IH. lia.
Qed.

(** X12: when an object fits in a page, [clear()] returns in every state
    that a bag can reach by pushes and clears, and leaves an empty bag
    ([begin()] equals [end()]) that can be used again: every pushed value
    of a following schedule of pushes is visited by a walk, as many times
    as it was pushed. *)
Theorem clear_then_reuse (workers : nat) (b : bag) :
  reachable workers b ->
  exists b', clear b = Some b' /\ reachable workers b'
    /\ begin_ b' = end_ b'
    /\ (forall fuel, (0 < fuel)%nat -> elements fuel b' = Some [])
    /\ forall ps, Forall (fun q => (q.1 < workers)%nat) ps ->
         exists b'' l, pushes ps b' = Some b'' /\ l ≡ₚ ps.*2
           /\ forall fuel, (length ps < fuel)%nat -> elements fuel b'' = Some l.
Proof using sizeof_T_pos one_fits.
  intros Hr. destruct (reachable_inv workers b Hr) as (Hl & Hi & vw & Hv).
  destruct (clear_spec b vw Hi Hv) as (b' & Hc & Hlen & Hnull & _).
  exists b'. split; [exact Hc|]. split; [by apply (reachable_clear workers b)|].
  pose proof (view_clear b b' Hc) as Hv'. pose proof (inv_clear b b' Hi Hc) as Hi'.
  assert (Hnil : forall w, concat (concat (replicate w ([] : list (list T)))) = []).
  { intros w. induction w as [|w IHw]; [reflexivity | exact IHw]. }
  split; [unfold begin_, end_; by apply (iterator_ctor_all_null b' Hnull (length (heads b')))|].
  split.
  { intros fuel Hf. rewrite <- (Hnil (length (heads b'))).
    apply elements_view; [exact Hv'|]. by rewrite Hnil. }
  intros ps Hps.
  destruct (pushes_spec ps b' _ Hi' Hv') as (b2 & vw2 & Hp2 & _ & Hv2 & _ & Hperm).
  { by rewrite Hlen, Hl. }
  rewrite Hnil, app_nil_r in Hperm.
  exists b2, (concat (concat vw2)). split; [exact Hp2|]. split; [exact Hperm|].
  intros fuel Hf. apply elements_view; [exact Hv2|].
  apply Permutation_length in Hperm. rewrite Hperm, length_fmap. exact Hf.
Qed.

End Fits.

End Bag.

Arguments mkPage {T} _ _ _.
Arguments hdr {T} _.
Arguments cells {T} _ _.
Arguments freed {T} _.
Arguments mkBag {T} _ _ _.
Arguments heads {T} _.
Arguments pages {T} _.
Arguments destroyed {T} _.

(** Four workers, 8-byte objects, 4096-byte pages, 32-byte headers. *)
Definition example_schedule : list (nat * Z) :=
  [(0%nat, 10); (1%nat, 11); (0%nat, 20); (3%nat, 11); (0%nat, 30)].



Lemma segment_cursor_invariant_witness :
  (header_ok 4096 8 32 (fresh_header 4096 8 32)
   /\ dbegin (fresh_header 4096 8 32) = dend (fresh_header 4096 8 32))
  /\ forall b, reachable Z 4096 8 32 2 b ->
       (forall j pg, pages b !! j = Some pg -> header_ok 4096 8 32 (hdr pg))
       /\ (forall h, linked Z b h ->
             exists pg, pages b !! h = Some pg /\ freed pg = false
               /\ dbegin (hdr pg) < dend (hdr pg)
               /\ forall k, dbegin (hdr pg) <= k < dend (hdr pg) -> is_Some (cells pg k))
       /\ forall tid val, (tid < 2)%nat ->
            exists b', push Z 4096 8 32 tid val b = Some b'
                       /\ reachable Z 4096 8 32 2 b'
                       /\ push_effect Z 4096 8 32 tid val b b'.
Proof.
  apply (segment_cursor_invariant Z 4096 8 32).
  - lia.
  - vm_compute. reflexivity.
Defined.

(** C9 (counterexample): with 3000-byte objects in 4096-byte pages no
    object fits behind the header ([dbegin == dlast] in a fresh segment).
    The first push stores its object in slot 1, which ends at byte 6000,
    and leaves [dend = 2] above [dlast = 1]. *)
Lemma push_overruns_page_of_large_objects :
  exists (b : bag Z) (pg : page Z),
    push Z 4096 3000 32 0 7 (galois_insert_bag_ctor Z 1) = Some b
    /\ reachable Z 4096 3000 32 1 b
    /\ pages b !! 0%nat = Some pg
    /\ dbegin (hdr pg) = 1 /\ dend (hdr pg) = 2 /\ dlast (hdr pg) = 1
    /\ ~ (dbegin (hdr pg) <= dend (hdr pg) <= dlast (hdr pg))
    /\ ~ in_page 4096 3000 32 (dend (hdr pg)).
Proof.
  eexists _, _. split; [vm_compute; reflexivity|].
  split.
  { apply (reachable_push Z 4096 3000 32 1 (galois_insert_bag_ctor Z 1) _ 0%nat 7).
    - constructor.
    - lia.
    - vm_compute. reflexivity. }
  split; [reflexivity|]. cbn.
  repeat split; try lia. unfold in_page. lia.
Qed.

(** C4 (evaluation at the failing input): 1024-byte objects, three to a
    page.  One worker pushes 10, 20, 30, 40: page 0 holds 10, 20, 30 and
    page 1, the head, holds 40.  [clear()] then destroys 40 only and frees
    page 1 only: page 0 is never freed and still holds its three objects,
    although every head is null and a walk over the bag is empty. *)
Theorem clear_leaks_older_segments :
  exists (b b' : bag Z) (pg0 pg1 : page Z),
    pushes Z 4096 1024 32 [(0%nat, 10); (0%nat, 20); (0%nat, 30); (0%nat, 40)]
           (galois_insert_bag_ctor Z 1) = Some b
    /\ elements Z 5 b = Some [40; 10; 20; 30]
    /\ clear Z b = Some b'
    /\ heads b' = [None]
    /\ elements Z 5 b' = Some []
    /\ destroyed b' = [40]
    /\ pages b' = [pg0; pg1]
    /\ freed pg1 = true /\ cells pg1 1 = None
    /\ freed pg0 = false
    /\ cells pg0 1 = Some 10 /\ cells pg0 2 = Some 20 /\ cells pg0 3 = Some 30.
Proof.
  eexists _, _, _, _.
  split; [vm_compute; reflexivity|].
  split; [vm_compute; reflexivity|].
  split; [vm_compute; reflexivity|].
  repeat split; vm_compute; reflexivity.
Qed.

(** The schedule above once more: 8-byte objects in 4096-byte pages
    behind 32-byte headers, 507 to a segment. *)
Lemma walk_order_witness :
  exists b : bag Z,
    pushes Z 4096 8 32 example_schedule (galois_insert_bag_ctor Z 4) = Some b
    /\ (forall fuel, (length example_schedule < fuel)%nat ->
          elements Z fuel b
          = Some (concat ((fun t => concat (segments Z 4096 8 32
                                              (pushed_by Z t example_schedule)))
                          <$> seq 0 4)))
    /\ forall t, Z.of_nat (length (pushed_by Z t example_schedule)) <= capacity 4096 8 32 ->
         concat (segments Z 4096 8 32 (pushed_by Z t example_schedule))
         = pushed_by Z t example_schedule.
Proof.
  apply (walk_order Z 4096 8 32); [lia | vm_compute; reflexivity | repeat constructor].
Defined.

Lemma local_walk_order_witness :
  exists (b : bag Z) (first last : iterator),
    pushes Z 4096 8 32 example_schedule (galois_insert_bag_ctor Z 4) = Some b
    /\ local_begin Z 0 b = Some first /\ local_end Z 0 b = Some last
    /\ (forall fuel, (length (pushed_by Z 0 example_schedule) < fuel)%nat ->
          iterate Z fuel b first last
          = Some (concat (segments Z 4096 8 32 (pushed_by Z 0 example_schedule))))
    /\ concat (segments Z 4096 8 32 (pushed_by Z 0 example_schedule))
       ≡ₚ pushed_by Z 0 example_schedule.
Proof.
  apply (local_walk_order Z 4096 8 32 ltac:(lia) ltac:(vm_compute; reflexivity) 4);
    [repeat constructor | lia].
Defined.

Lemma clear_destroys_newest_segments_witness :
  exists b b' : bag Z,
    pushes Z 4096 8 32 example_schedule (galois_insert_bag_ctor Z 4) = Some b
    /\ clear Z b = Some b'
    /\ (forall t, (t < 4)%nat -> heads b' !! t = Some None)
    /\ destroyed b'
       = concat ((fun t => newest Z (segments Z 4096 8 32 (pushed_by Z t example_schedule)))
                 <$> seq 0 4)
    /\ (forall t j, heads b !! t = Some (Some j) ->
          exists pg', pages b' !! j = Some pg' /\ freed pg' = true)
    /\ (forall j, (forall t, heads b !! t <> Some (Some j)) ->
          pages b' !! j = pages b !! j)
    /\ ((forall t, (t < 4)%nat ->
           Z.of_nat (length (pushed_by Z t example_schedule)) <= capacity 4096 8 32) ->
        destroyed b' = concat ((fun t => pushed_by Z t example_schedule) <$> seq 0 4)
        /\ forall j pg', pages b' !! j = Some pg' -> freed pg' = true).
Proof.
  apply (clear_destroys_newest_segments Z 4096 8 32);
    [lia | vm_compute; reflexivity | repeat constructor].
Defined.

(** Two workers, 1024-byte objects, three to a page: worker 0 has pushed
    10, 20, 30, 40 and holds two segments, worker 1 has pushed 11. *)
Definition example_used_bag : bag Z :=
  default (galois_insert_bag_ctor Z 2)
    (pushes Z 4096 1024 32
       [(0%nat, 10); (0%nat, 20); (1%nat, 11); (0%nat, 30); (0%nat, 40)]
       (galois_insert_bag_ctor Z 2)).

Lemma clear_then_reuse_witness :
  exists b' : bag Z,
    clear Z example_used_bag = Some b'
    /\ reachable Z 4096 1024 32 2 b'
    /\ begin_ Z b' = end_ Z b'
    /\ (forall fuel, (0 < fuel)%nat -> elements Z fuel b' = Some [])
    /\ forall ps, Forall (fun q => (q.1 < 2)%nat) ps ->
         exists b'' l, pushes Z 4096 1024 32 ps b' = Some b'' /\ l ≡ₚ ps.*2
           /\ forall fuel, (length ps < fuel)%nat -> elements Z fuel b'' = Some l.
Proof.
  apply (clear_then_reuse Z 4096 1024 32); [lia | vm_compute; reflexivity |].
  apply (reachable_pushes Z 4096 1024 32 2
           [(0%nat, 10); (0%nat, 20); (1%nat, 11); (0%nat, 30); (0%nat, 40)]
           (galois_insert_bag_ctor Z 2));
    [constructor | repeat constructor | vm_compute; reflexivity].
Defined.

End InsBag.

(* ===================================================================== *)
(** ** LCGraph.h : the in-memory layouts *)
(* ===================================================================== *)

Module LCGraph.

Import FileGraph.

(** *** Arrays, loops, and what the layouts read from a FileGraph *)

(** A heap array of [length l] elements; [None] marks an element that was
    never written.  An access outside the array is undefined behaviour,
    and so is the use of an element that was never written. *)
Abbreviation array A := (list (option A)) (only parsing).

Definition array_alloc {A : Type} (n : Z) : array A := replicate (Z.to_nat n) None.

Definition array_read {A : Type} (l : array A) (i : Z) : outcome A :=
  if 0 <=? i then
    match l !! Z.to_nat i with
    | Some (Some x) => Returns x
    | _ => Undefined
    end
  else Undefined.

Definition array_write {A : Type} (l : array A) (i : Z) (x : A) : outcome (array A) :=
  if (0 <=? i) && (i <? Z.of_nat (length l))
  then Returns (<[Z.to_nat i := Some x]> l)
  else Undefined.

(** [for (i = first; i != first + count; ++i) body(i)] *)
Fixpoint for_range {S : Type} (body : Z -> S -> outcome S)
    (first : Z) (count : nat) (s : S) : outcome S :=
  match count with
  | O => Returns s
  | S count' => s' ← body first s; for_range body (first + 1) count' s'
  end.

(** [for (x : xs) body(x)] *)
Fixpoint for_list {A S : Type} (body : A -> S -> outcome S)
    (xs : list A) (s : S) : outcome S :=
  match xs with
  | [] => Returns s
  | x :: xs' => s' ← body x s; for_list body xs' s'
  end.

(** [std::copy(first, last, out)] of [count] values [src 0, src 1, ...]
    to [out[0], out[1], ...]. *)
Definition std_copy (src : Z -> outcome Z) (count : Z) (out : array Z)
  : outcome (array Z) :=
  for_range (fun i out => x ← src i; array_write out i x) 0 (Z.to_nat count) out.

(** Modelled from the spec: the header FileGraph.h is not part of the
    sources.  [graph.begin()] and [graph.end()] count the node ids from 0
    to [numNodes]; [neighbor_begin(N)] and [neighbor_end(N)] walk the
    destination table from [raw_neighbor_begin(N)] to
    [raw_neighbor_end(N)], converting with [le32toh]; [edgeid_begin()] and
    [nodeid_begin()] walk the two tables from their first entry. *)
Definition node_count (g : FileGraph) : nat := Z.to_nat (FileGraph.numNodes g).
Definition neighbor_range (g : FileGraph) (N : Z) : outcome (list Z) := neighbors g N.

(** Conversion of a [size_t] to [int]. *)
Definition to_int (z : Z) : Z := (z + 2 ^ 31) mod 2 ^ 32 - 2 ^ 31.

(** The edge iterators of the three pointer layouts are [EdgeInfo*]:
    [for (e = b; e != last; ++e)] visits [b], [b + step], ... and runs
    away unless [last] is one of them. *)
Definition pointer_range (b last step : Z) : outcome (list Z) :=
  if (b <=? last) && ((last - b) mod step =? 0)
  then Returns ((fun k => b + k * step) <$> seqZ 0 ((last - b) / step))
  else Undefined.

Fixpoint mapM_outcome {A B : Type} (f : A -> outcome B) (xs : list A) : outcome (list B) :=
  match xs with
  | [] => Returns []
  | x :: xs' => y ← f x; ys ← mapM_outcome f xs'; Returns (y :: ys)
  end.

(** The loop of [NodeInfo::next()], the same in the two linear layouts:
<<
  NodeInfo* ni = this;
  EdgeInfo* ei = edgeEnd();
  while (reinterpret_cast<char*>(ni) < reinterpret_cast<char*>(ei)) ++ni;
  return ni;
>>
    Pointers are byte offsets; [++ni] adds [sizeof(NodeInfo)]. *)
Fixpoint next_loop (sizeof_NodeInfo : Z) (fuel : nat) (ni ei : Z) : outcome Z :=
  match fuel with
  | O => Undefined
  | S fuel' => if ni <? ei then next_loop sizeof_NodeInfo fuel' (ni + sizeof_NodeInfo) ei
               else Returns ni
  end.

Module CSR.

(** [class LC_CSR_Graph]: [EdgeIndData], [EdgeDst], [numNodes],
    [numEdges]; a [GraphNode] is a node id. *)
Record LC_CSR_Graph := mkGraph {
  EdgeIndData : array Z;
  EdgeDst : array Z;
  numNodes : Z;
  numEdges : Z
}.

(** [structureFromFile], after the FileGraph [graph] is loaded:
<<
  numNodes = graph.size();
  numEdges = graph.sizeEdges();
  EdgeIndData = alloc(sizeof(uint64_t) * numNodes);
  EdgeDst = alloc(sizeof(uint32_t) * numEdges);
  std::copy(graph.edgeid_begin(), graph.edgeid_end(), &EdgeIndData[0]);
  std::copy(graph.nodeid_begin(), graph.nodeid_end(), &EdgeDst[0]);
>> *)
Definition structureFromFile (graph : FileGraph) : outcome LC_CSR_Graph :=
  let numNodes := size_ graph in
  let numEdges := sizeEdges graph in
  let EdgeIndData := array_alloc numNodes in
  let EdgeDst := array_alloc numEdges in
  EdgeIndData ← std_copy (outIdx_at graph) (FileGraph.numNodes graph) EdgeIndData;
  EdgeDst ← std_copy (outs_at graph) (FileGraph.numEdges graph) EdgeDst;
  Returns {| EdgeIndData := EdgeIndData; EdgeDst := EdgeDst;
             numNodes := numNodes; numEdges := numEdges |}.

Definition raw_neighbor_begin (G : LC_CSR_Graph) (N : Z) : outcome Z :=
  if N =? 0 then Returns 0 else array_read (EdgeIndData G) (N - 1).

Definition raw_neighbor_end (G : LC_CSR_Graph) (N : Z) : outcome Z :=
  array_read (EdgeIndData G) N.

Definition edge_begin (G : LC_CSR_Graph) (N : Z) : outcome Z := raw_neighbor_begin G N.
Definition edge_end (G : LC_CSR_Graph) (N : Z) : outcome Z := raw_neighbor_end G N.
Definition getEdgeDst (G : LC_CSR_Graph) (ni : Z) : outcome Z := array_read (EdgeDst G) ni.

(** [begin()], [end()]: node ids from 0 to [numNodes]. *)
Definition node (G : LC_CSR_Graph) (i : Z) : outcome Z :=
  if (0 <=? i) && (i <? numNodes G) then Returns i else Undefined.

(** The destinations seen by
    [for (e = edge_begin(N); e != edge_end(N); ++e) getEdgeDst(e)]. *)
Definition edge_dsts (G : LC_CSR_Graph) (N : Z) : outcome (list Z) :=
  b ← edge_begin G N;
  e ← edge_end G N;
  es ← pointer_range b e 1;
  mapM_outcome (getEdgeDst G) es.

(** [getEdgeIdx(src, dst)]:
<<
  for (uint64_t ii = raw_neighbor_begin(src), ee = raw_neighbor_end(src);
       ii != ee; ++ii)
    if (EdgeDst[ii] == dst) return ii;
  return ~static_cast<uint64_t>(0);
>>
    Every round reads one more element of [EdgeDst], so the loop cannot
    make more rounds than the array has elements. *)
Fixpoint getEdgeIdx_loop (fuel : nat) (G : LC_CSR_Graph) (ii ee dst : Z) : outcome Z :=
  match fuel with
  | O => Undefined
  | S fuel' =>
      if ii =? ee then Returns no_edge
      else
        d ← array_read (EdgeDst G) ii;
        if d =? dst then Returns ii
        else getEdgeIdx_loop fuel' G (ii + 1) ee dst
  end.

Definition getEdgeIdx (G : LC_CSR_Graph) (src dst : Z) : outcome Z :=
  ii ← raw_neighbor_begin G src;
  ee ← raw_neighbor_end G src;
  getEdgeIdx_loop (S (length (EdgeDst G))) G ii ee dst.

(** [hasNeighbor(src, dst)] *)
Definition hasNeighbor (G : LC_CSR_Graph) (src dst : Z) : outcome bool :=
  i ← getEdgeIdx G src dst;
  Returns (negb (i =? no_edge)).

End CSR.

Module CSRInline.

(** [struct NodeInfo { NodeTy data; EdgeInfo* edgebegin; EdgeInfo* edgeend; }]
    and [struct EdgeInfo { EdgeTy data; NodeInfo* dst; }].  A pointer
    into [NodeData] or [EdgeData] is the index of the element. *)
Record NodeInfo := mkNodeInfo { edgebegin : option Z; edgeend : option Z }.

Record LC_CSRInline_Graph := mkGraph {
  NodeData : array NodeInfo;
  EdgeData : array Z;
  numNodes : Z;
  numEdges : Z;
  endNode : Z
}.

(** The state of [structureFromFile] while it runs. *)
Record build := mkBuild {
  b_NodeData : array NodeInfo;
  b_EdgeData : array Z;
  node_ids : array Z;
  curEdge : Z
}.

(** The first loop:
<<
  NodeInfo* curNode = &NodeData[*ii];
  new (&curNode->data) NodeTy;
  node_ids[*ii] = curNode;
>> *)
Definition place_node (ii : Z) (s : build) : outcome build :=
  let curNode := ii in
  nd ← array_write (b_NodeData s) curNode {| edgebegin := None; edgeend := None |};
  ids ← array_write (node_ids s) ii curNode;
  Returns {| b_NodeData := nd; b_EdgeData := b_EdgeData s; node_ids := ids;
             curEdge := curEdge s |}.

(** The body of the inner loop of the second loop:
<<
  curEdge->dst = node_ids[*ni];
  ++curEdge;
>> *)
Definition place_edge (ni : Z) (s : build) : outcome build :=
  dst ← array_read (node_ids s) ni;
  ed ← array_write (b_EdgeData s) (curEdge s) dst;
  Returns {| b_NodeData := b_NodeData s; b_EdgeData := ed; node_ids := node_ids s;
             curEdge := curEdge s + 1 |}.

(** The second loop:
<<
  node_ids[*ii]->edgebegin = curEdge;
  for (ni = graph.neighbor_begin( *ii); ni != graph.neighbor_end( *ii); ++ni) ...
  node_ids[*ii]->edgeend = curEdge;
>> *)
Definition place_edges (graph : FileGraph) (ii : Z) (s : build) : outcome build :=
  nd ← array_read (node_ids s) ii;
  info ← array_read (b_NodeData s) nd;
  NodeData ← array_write (b_NodeData s) nd
               {| edgebegin := Some (curEdge s); edgeend := edgeend info |};
  let s := {| b_NodeData := NodeData; b_EdgeData := b_EdgeData s;
              node_ids := node_ids s; curEdge := curEdge s |} in
  nis ← neighbor_range graph ii;
  s ← for_list place_edge nis s;
  nd ← array_read (node_ids s) ii;
  info ← array_read (b_NodeData s) nd;
  NodeData ← array_write (b_NodeData s) nd
               {| edgebegin := edgebegin info; edgeend := Some (curEdge s) |};
  Returns {| b_NodeData := NodeData; b_EdgeData := b_EdgeData s;
             node_ids := node_ids s; curEdge := curEdge s |}.

Definition structureFromFile (graph : FileGraph) : outcome LC_CSRInline_Graph :=
  let numNodes := size_ graph in
  let numEdges := sizeEdges graph in
  let s := {| b_NodeData := array_alloc numNodes; b_EdgeData := array_alloc numEdges;
              node_ids := array_alloc numNodes; curEdge := 0 |} in
  s ← for_range place_node 0 (node_count graph) s;
  let endNode := numNodes in
  s ← for_range (place_edges graph) 0 (node_count graph) s;
  Returns {| NodeData := b_NodeData s; EdgeData := b_EdgeData s;
             numNodes := numNodes; numEdges := numEdges; endNode := endNode |}.

Definition edge_begin (G : LC_CSRInline_Graph) (N : Z) : outcome Z :=
  info ← array_read (NodeData G) N; deref (edgebegin info).

Definition edge_end (G : LC_CSRInline_Graph) (N : Z) : outcome Z :=
  info ← array_read (NodeData G) N; deref (edgeend info).

Definition getEdgeDst (G : LC_CSRInline_Graph) (ni : Z) : outcome Z :=
  array_read (EdgeData G) ni.

(** [begin()], [end()]: from [&NodeData[0]] to [endNode]. *)
Definition node (G : LC_CSRInline_Graph) (i : Z) : outcome Z :=
  if (0 <=? i) && (i <? endNode G) then Returns i else Undefined.

Definition edge_dsts (G : LC_CSRInline_Graph) (N : Z) : outcome (list Z) :=
  b ← edge_begin G N;
  e ← edge_end G N;
  es ← pointer_range b e 1;
  mapM_outcome (getEdgeDst G) es.

End CSRInline.

Module Linear.

Section Layout.

(** [sizeof(NodeInfo)] and [sizeof(EdgeInfo)]. *)
Variables sizeof_NodeInfo sizeof_EdgeInfo : Z.

(** The arena [Data] of [limit] bytes.  A [NodeInfo*] or [EdgeInfo*] is a
    byte offset into it; the model keeps the [numEdges] field of the node
    records and the [dst] field of the edge records that were written, by
    offset. *)
Record memory := mkMemory {
  node_numEdges : Z -> option Z;
  edge_dst : Z -> option Z;
  limit : Z
}.

Definition store_node (a n : Z) (mem : memory) : outcome memory :=
  if (0 <=? a) && (a + sizeof_NodeInfo <=? limit mem)
  then Returns {| node_numEdges := fun x => if x =? a then Some n else node_numEdges mem x;
                  edge_dst := edge_dst mem; limit := limit mem |}
  else Undefined.

Definition store_edge (a dst : Z) (mem : memory) : outcome memory :=
  if (0 <=? a) && (a + sizeof_EdgeInfo <=? limit mem)
  then Returns {| node_numEdges := node_numEdges mem;
                  edge_dst := fun x => if x =? a then Some dst else edge_dst mem x;
                  limit := limit mem |}
  else Undefined.

(** [NodeInfo::edgeBegin()]: [this + 1], as an [EdgeInfo*]. *)
Definition edgeBegin (this : Z) : Z := this + sizeof_NodeInfo.

(** [NodeInfo::edgeEnd()]: [edgeBegin() + numEdges]. *)
Definition edgeEnd (mem : memory) (this : Z) : outcome Z :=
  n ← deref (node_numEdges mem this);
  Returns (edgeBegin this + n * sizeof_EdgeInfo).

(** [NodeInfo::next()]: [ni = this; ei = edgeEnd();] and the loop. *)
Definition next (mem : memory) (this : Z) : outcome Z :=
  ei ← edgeEnd mem this;
  next_loop sizeof_NodeInfo (S (Z.to_nat (ei - this))) this ei.

(** [class LC_Linear_Graph] *)
Record LC_Linear_Graph := mkGraph {
  Data : memory;
  numNodes : Z;
  numEdges : Z;
  nodes : array Z
}.

Record build := mkBuild {
  b_Data : memory;
  b_nodes : array Z;
  curNode : Z
}.

(** The first loop:
<<
  new (&curNode->data) NodeTy;
  curNode->numEdges = graph.neighborsSize( *ii);
  nodes[*ii] = curNode;
  curNode = curNode->next();
>> *)
Definition place_node (graph : FileGraph) (ii : Z) (s : build) : outcome build :=
  n ← neighborsSize graph ii;
  mem ← store_node (curNode s) (to_int n) (b_Data s);
  nds ← array_write (b_nodes s) ii (curNode s);
  nxt ← next mem (curNode s);
  Returns {| b_Data := mem; b_nodes := nds; curNode := nxt |}.

(** The inner loop of the second loop, with its cursor [edge]:
<<
  edge->dst = nodes[*ni];
  ++edge;
>> *)
Definition place_edge (nds : array Z) (ni : Z) (s : memory * Z) : outcome (memory * Z) :=
  let '(mem, edge) := s in
  dst ← array_read nds ni;
  mem ← store_edge edge dst mem;
  Returns (mem, edge + sizeof_EdgeInfo).

(** The second loop:
<<
  EdgeInfo* edge = nodes[*ii]->edgeBegin();
  for (ni = graph.neighbor_begin( *ii); ni != graph.neighbor_end( *ii); ++ni) ...
>> *)
Definition place_edges (graph : FileGraph) (ii : Z) (s : build) : outcome build :=
  nd ← array_read (b_nodes s) ii;
  let edge := edgeBegin nd in
  nis ← neighbor_range graph ii;
  '(mem, _) ← for_list (place_edge (b_nodes s)) nis (b_Data s, edge);
  Returns {| b_Data := mem; b_nodes := b_nodes s; curNode := curNode s |}.

(** [structureFromFile]: [Data] has room for
    [sizeof(NodeInfo) * numNodes * 2 + sizeof(EdgeInfo) * numEdges] bytes. *)
Definition structureFromFile (graph : FileGraph) : outcome LC_Linear_Graph :=
  let numNodes := size_ graph in
  let numEdges := sizeEdges graph in
  let Data := {| node_numEdges := fun _ => None; edge_dst := fun _ => None;
                 limit := (sizeof_NodeInfo * numNodes * 2 + sizeof_EdgeInfo * numEdges)
                          mod 2 ^ 64 |} in
  let s := {| b_Data := Data; b_nodes := array_alloc numNodes; curNode := 0 |} in
  s ← for_range (place_node graph) 0 (node_count graph) s;
  s ← for_range (place_edges graph) 0 (node_count graph) s;
  Returns {| Data := b_Data s; numNodes := numNodes; numEdges := numEdges;
             nodes := b_nodes s |}.

Definition edge_begin (G : LC_Linear_Graph) (N : Z) : outcome Z := Returns (edgeBegin N).
Definition edge_end (G : LC_Linear_Graph) (N : Z) : outcome Z := edgeEnd (Data G) N.
Definition getEdgeDst (G : LC_Linear_Graph) (ni : Z) : outcome Z :=
  deref (edge_dst (Data G) ni).

(** [begin()], [end()]: from [nodes] to [&nodes[numNodes]]. *)
Definition node (G : LC_Linear_Graph) (i : Z) : outcome Z :=
  if i <? numNodes G then array_read (nodes G) i else Undefined.

Definition edge_dsts (G : LC_Linear_Graph) (N : Z) : outcome (list Z) :=
  b ← edge_begin G N;
  e ← edge_end G N;
  es ← pointer_range b e sizeof_EdgeInfo;
  mapM_outcome (getEdgeDst G) es.

(** [getEdgeIdx(src, dst)]:
<<
  EdgeInfo* eb = src->edgeBegin();
  EdgeInfo* ee = src->edgeEnd();
  for (; eb != ee; ++eb)
    if (eb->dst == dst) return eb;
  return 0;
>>
    The result is [None] for the null pointer.  Every round reads one
    more edge record of the arena, so the loop cannot make more rounds
    than the arena has bytes. *)
Fixpoint getEdgeIdx_loop (fuel : nat) (mem : memory) (eb ee dst : Z)
  : outcome (option Z) :=
  match fuel with
  | O => Undefined
  | S fuel' =>
      if eb =? ee then Returns None
      else
        d ← deref (edge_dst mem eb);
        if d =? dst then Returns (Some eb)
        else getEdgeIdx_loop fuel' mem (eb + sizeof_EdgeInfo) ee dst
  end.

Definition getEdgeIdx (G : LC_Linear_Graph) (src dst : Z) : outcome (option Z) :=
  let eb := edgeBegin src in
  ee ← edgeEnd (Data G) src;
  getEdgeIdx_loop (S (Z.to_nat (limit (Data G)))) (Data G) eb ee dst.

End Layout.

End Linear.

Module Linear2.

(** A pointer into the arena of a worker: the worker and the byte
    offset. *)
Definition pointer : Type := nat * Z.

(** [struct DistributeInfo] *)
Record DistributeInfo := mkDistributeInfo {
  d_numNodes : Z;
  d_numEdges : Z;
  d_begin : Z;
  d_end : Z
}.

(** The arena of a worker: the [Header] ([begin], [end], [size]) at its
    start, and behind it the node and edge records, zeroed by [memset]
    (an edge record never written has a null [dst]). *)
Record Header := mkHeader {
  h_begin : Z;
  h_end : Z;
  h_size : Z;
  node_numEdges : Z -> Z;
  edge_dst : Z -> option pointer
}.

(** [class LC_Linear2_Graph] *)
Record LC_Linear2_Graph := mkGraph {
  headers : list (option Header);
  nodes : array pointer;
  numNodes : Z;
  numEdges : Z
}.

Section Layout.

(** [sizeof(NodeInfo)], [sizeof(EdgeInfo)], [sizeof(Header)], and
    [Galois::getActiveThreads()]. *)
Variables sizeof_NodeInfo sizeof_EdgeInfo sizeof_Header : Z.
Variable activeThreads : nat.

Definition size_t (z : Z) : Z := z mod 2 ^ 64.

(** The locals of [distribute]. *)
Record dstate := mkDstate {
  ii : Z;
  curSize : Z;
  last : Z;
  nnodes : Z;
  nedges : Z;
  runningNodes : Z;
  runningEdges : Z;
  dinfo : list DistributeInfo
}.

(** The inner loop of [distribute], for [tid]:
<<
  for (; ii != ei; ++ii) {
    if (curSize >= (tid + 1) * blockSize) {
      DistributeInfo& d = dinfo.get(tid);
      d.numNodes = nnodes; d.numEdges = nedges; d.begin = last; d.end = ii;
      runningNodes += nnodes; runningEdges += nedges;
      nnodes = nedges = 0;
      last = ii;
      break;
    }
    size_t nneighbors = graph.neighborsSize( *ii);
    nedges += nneighbors;
    nnodes += 1;
    curSize += sizeof(NodeInfo) + sizeof(EdgeInfo) * nneighbors;
  }
>> *)
Fixpoint distribute_inner (fuel : nat) (graph : FileGraph) (blockSize ei : Z)
    (tid : nat) (s : dstate) : outcome dstate :=
  match fuel with
  | O => Undefined
  | S fuel' =>
      if ii s =? ei then Returns s
      else if size_t (Z.of_nat (tid + 1) * blockSize) <=? curSize s then
        if Nat.ltb tid (length (dinfo s)) then
          Returns {| ii := ii s; curSize := curSize s; last := ii s;
                     nnodes := 0; nedges := 0;
                     runningNodes := size_t (runningNodes s + nnodes s);
                     runningEdges := size_t (runningEdges s + nedges s);
                     dinfo := <[tid := {| d_numNodes := nnodes s; d_numEdges := nedges s;
                                          d_begin := last s; d_end := ii s |}]> (dinfo s) |}
        else Undefined
      else
        nneighbors ← neighborsSize graph (ii s);
        distribute_inner fuel' graph blockSize ei tid
          {| ii := ii s + 1;
             curSize := size_t (curSize s + (sizeof_NodeInfo + sizeof_EdgeInfo * nneighbors));
             last := last s;
             nnodes := size_t (nnodes s + 1); nedges := size_t (nedges s + nneighbors);
             runningNodes := runningNodes s; runningEdges := runningEdges s;
             dinfo := dinfo s |}
  end.

(** [distribute(graph, dinfo)]; the slots of [dinfo] start zeroed, and the
    loop over [tid] stops at [tid + 1 == num], where the last slot is
    filled. *)
Definition distribute (graph : FileGraph) (numNodes numEdges : Z)
  : outcome (list DistributeInfo) :=
  let total := size_t (sizeof_NodeInfo * numNodes + sizeof_EdgeInfo * numEdges) in
  let num := activeThreads in
  if Nat.eqb num 0 then Aborts else
  let blockSize := total / Z.of_nat num in
  let ei := FileGraph.numNodes graph in
  let s := {| ii := 0; curSize := 0; last := 0; nnodes := 0; nedges := 0;
              runningNodes := 0; runningEdges := 0;
              dinfo := replicate num {| d_numNodes := 0; d_numEdges := 0;
                                        d_begin := 0; d_end := 0 |} |} in
  s ← for_list (fun tid s =>
                  distribute_inner (S (Z.to_nat (ei - ii s))) graph blockSize ei tid s)
               (seq 0 (num - 1)) s;
  let tid := (num - 1)%nat in
  Returns (<[tid := {| d_numNodes := size_t (numNodes - runningNodes s);
                       d_numEdges := size_t (numEdges - runningEdges s);
                       d_begin := last s; d_end := ei |}]> (dinfo s)).

(** [NodeInfo::edgeBegin()], [edgeEnd()], [next()], as in the linear
    layout, inside one arena. *)
Definition edgeBegin (this : Z) : Z := this + sizeof_NodeInfo.

Definition edgeEnd (h : Header) (this : Z) : Z :=
  edgeBegin this + node_numEdges h this * sizeof_EdgeInfo.

Definition next (h : Header) (this : Z) : outcome Z :=
  let ei := edgeEnd h this in
  next_loop sizeof_NodeInfo (S (Z.to_nat (ei - this))) this ei.

Definition store_node (a n : Z) (h : Header) : outcome Header :=
  if (0 <=? a) && (a + sizeof_NodeInfo <=? h_size h)
  then Returns {| h_begin := h_begin h; h_end := h_end h; h_size := h_size h;
                  node_numEdges := fun x => if x =? a then n else node_numEdges h x;
                  edge_dst := edge_dst h |}
  else Undefined.

Definition store_edge (a : Z) (dst : pointer) (h : Header) : outcome Header :=
  if (0 <=? a) && (a + sizeof_EdgeInfo <=? h_size h)
  then Returns {| h_begin := h_begin h; h_end := h_end h; h_size := h_size h;
                  node_numEdges := node_numEdges h;
                  edge_dst := fun x => if x =? a then Some dst else edge_dst h x |}
  else Undefined.

Definition set_end (e : Z) (h : Header) : Header :=
  {| h_begin := h_begin h; h_end := e; h_size := h_size h;
     node_numEdges := node_numEdges h; edge_dst := edge_dst h |}.

(** The shared state of the two parallel phases. *)
Record build := mkBuild {
  b_headers : list (option Header);
  b_nodes : array pointer
}.

(** The loop of [AllocateNodes::operator()], on worker [tid] with arena
    [h]:
<<
  new (&h->end->data) NodeTy;
  h->end->numEdges = graph.neighborsSize( *ii);
  nodes[*ii] = h->end;
  h->end = h->end->next();
>> *)
Definition place_node (graph : FileGraph) (tid : nat) (ii : Z)
    (s : Header * array pointer) : outcome (Header * array pointer) :=
  let '(h, nds) := s in
  n ← neighborsSize graph ii;
  h ← store_node (h_end h) (to_int n) h;
  nds ← array_write nds ii (tid, h_end h);
  nxt ← next h (h_end h);
  Returns (set_end nxt h, nds).

(** [AllocateNodes::operator()(tid, num)]:
<<
  DistributeInfo& d = dinfo.get(tid);
  size_t size = sizeof(Header) * 2 + sizeof(NodeInfo) * d.numNodes * 2
                + sizeof(EdgeInfo) * d.numEdges;
  void *raw = MM::largeAlloc(size);
  memset(raw, 0, size);
  Header*& h = headers.get();
  h = reinterpret_cast<Header*>(raw);
  h->size = size;
  h->begin = h->end = reinterpret_cast<NodeInfo*>(h + 1);
  if (!d.numNodes) return;
  for (ii = d.begin; ii != d.end; ++ii) ...
>> *)
Definition AllocateNodes (graph : FileGraph) (dinfo : list DistributeInfo)
    (tid : nat) (s : build) : outcome build :=
  d ← deref (dinfo !! tid);
  let size := size_t (sizeof_Header * 2 + sizeof_NodeInfo * d_numNodes d * 2
                      + sizeof_EdgeInfo * d_numEdges d) in
  if negb (Nat.ltb tid (length (b_headers s))) then Undefined else
  let h := {| h_begin := sizeof_Header; h_end := sizeof_Header; h_size := size;
              node_numEdges := fun _ => 0; edge_dst := fun _ => None |} in
  if d_numNodes d =? 0 then
    Returns {| b_headers := <[tid := Some h]> (b_headers s); b_nodes := b_nodes s |}
  else
    if d_end d <? d_begin d then Undefined else
    '(h, nds) ← for_range (place_node graph tid) (d_begin d)
                  (Z.to_nat (d_end d - d_begin d)) (h, b_nodes s);
    Returns {| b_headers := <[tid := Some h]> (b_headers s); b_nodes := nds |}.

(** The inner loop of [AllocateEdges::operator()], with its cursor
    [edge], a pointer into the arena of worker [w]:
<<
  edge->dst = nodes[*ni];
  ++edge;
>> *)
Definition place_edge (nds : array pointer) (w : nat) (ni : Z)
    (s : list (option Header) * Z) : outcome (list (option Header) * Z) :=
  let '(hs, edge) := s in
  dst ← array_read nds ni;
  h ← deref (mjoin (hs !! w));
  h ← store_edge edge dst h;
  Returns (<[w := Some h]> hs, edge + sizeof_EdgeInfo).

(** [AllocateEdges::operator()(tid, num)]:
<<
  DistributeInfo& d = dinfo.get(tid);
  if (!d.numNodes) return;
  for (ii = d.begin; ii != d.end; ++ii) {
    EdgeInfo* edge = nodes[*ii]->edgeBegin();
    for (ni = graph.neighbor_begin( *ii); ni != graph.neighbor_end( *ii); ++ni) ...
  }
>> *)
Definition place_edges (graph : FileGraph) (nds : array pointer) (ii : Z)
    (hs : list (option Header)) : outcome (list (option Header)) :=
  '(w, nd) ← array_read nds ii;
  let edge := edgeBegin nd in
  nis ← neighbor_range graph ii;
  '(hs, _) ← for_list (place_edge nds w) nis (hs, edge);
  Returns hs.

Definition AllocateEdges (graph : FileGraph) (dinfo : list DistributeInfo)
    (tid : nat) (s : build) : outcome build :=
  d ← deref (dinfo !! tid);
  if d_numNodes d =? 0 then Returns s
  else
    if d_end d <? d_begin d then Undefined else
    hs ← for_range (place_edges graph (b_nodes s)) (d_begin d)
           (Z.to_nat (d_end d - d_begin d)) (b_headers s);
    Returns {| b_headers := hs; b_nodes := b_nodes s |}.

(** [Galois::on_each(f)] runs [f(tid, num)] on every active worker.  The
    workers of one phase touch disjoint parts of the state; the model
    runs them one after the other, in the order [order]. *)
Definition on_each (f : nat -> build -> outcome build) (order : list nat) (s : build)
  : outcome build :=
  for_list f order s.

(** [structureFromFile]:
<<
  numNodes = graph.size();
  numEdges = graph.sizeEdges();
  PerCPU<DistributeInfo> dinfo;
  distribute(graph, dinfo);
  nodes = alloc(sizeof(NodeInfo* ) * numNodes);
  Galois::on_each(AllocateNodes(dinfo, headers, nodes, graph));
  Galois::on_each(AllocateEdges(dinfo, nodes, graph));
>> *)
Definition structureFromFile (order1 order2 : list nat) (graph : FileGraph)
  : outcome LC_Linear2_Graph :=
  let numNodes := size_ graph in
  let numEdges := sizeEdges graph in
  dinfo ← distribute graph numNodes numEdges;
  let s := {| b_headers := replicate activeThreads None;
              b_nodes := array_alloc numNodes |} in
  s ← on_each (AllocateNodes graph dinfo) order1 s;
  s ← on_each (AllocateEdges graph dinfo) order2 s;
  Returns {| headers := b_headers s; nodes := b_nodes s;
             numNodes := numNodes; numEdges := numEdges |}.

Definition arena (G : LC_Linear2_Graph) (w : nat) : outcome Header :=
  deref (mjoin (headers G !! w)).

Definition edge_begin (G : LC_Linear2_Graph) (N : pointer) : outcome pointer :=
  Returns (N.1, edgeBegin N.2).

Definition edge_end (G : LC_Linear2_Graph) (N : pointer) : outcome pointer :=
  h ← arena G N.1; Returns (N.1, edgeEnd h N.2).

(** [getEdgeDst(ni)]: [ni->dst], a [GraphNode] that is null when the
    record was never written. *)
Definition getEdgeDst (G : LC_Linear2_Graph) (ni : pointer) : outcome (option pointer) :=
  h ← arena G ni.1; Returns (edge_dst h ni.2).

(** [begin()], [end()]: from [nodes] to [&nodes[numNodes]]. *)
Definition node (G : LC_Linear2_Graph) (i : Z) : outcome pointer :=
  if i <? numNodes G then array_read (nodes G) i else Undefined.

Definition edge_dsts (G : LC_Linear2_Graph) (N : pointer) : outcome (list (option pointer)) :=
  b ← edge_begin G N;
  e ← edge_end G N;
  es ← pointer_range b.2 e.2 sizeof_EdgeInfo;
  mapM_outcome (fun a => getEdgeDst G (N.1, a)) es.

End Layout.

End Linear2.

(** *** Loops and arrays *)

Lemma for_range_invariant {S : Type} (P : Z -> S -> Prop)
    (body : Z -> S -> outcome S) (count : nat) (first : Z) (s : S) :
  P first s ->
  (forall i s, first <= i < first + Z.of_nat count -> P i s ->
     exists s', body i s = Returns s' /\ P (i + 1) s') ->
  exists s', for_range body first count s = Returns s' /\ P (first + Z.of_nat count) s'.
Proof.
  revert first s. induction count as [|count IH]; intros first s HP Hstep.
  - exists s. split; [reflexivity|]. by rewrite Z.add_0_r.
  - destruct (Hstep first s) as (s1 & Hb & HP1); [lia | done |].
    destruct (IH (first + 1) s1 HP1) as (s2 & Hr & HP2).
    { intros i s' Hi. apply Hstep. lia. }
    exists s2. cbn [for_range]. rewrite Hb. cbn [mbind outcome_bind].
    split; [exact Hr|]. replace (first + Z.of_nat (Datatypes.S count)) with (first + 1 + Z.of_nat count) by lia.
    exact HP2.
Qed.

Lemma for_list_invariant {A S : Type} (P : nat -> S -> Prop)
    (body : A -> S -> outcome S) (xs : list A) (s : S) :
  P 0%nat s ->
  (forall k x s, xs !! k = Some x -> P k s ->
     exists s', body x s = Returns s' /\ P (Datatypes.S k) s') ->
  exists s', for_list body xs s = Returns s' /\ P (length xs) s'.
Proof.
  revert P s. induction xs as [|x xs IH]; intros P s HP Hstep.
  - by exists s.
  - destruct (Hstep 0%nat x s) as (s1 & Hb & HP1); [done | done |].
    destruct (IH (fun k => P (Datatypes.S k)) s1 HP1) as (s2 & Hr & HP2).
    { intros k y s' Hk. by apply (Hstep (Datatypes.S k)). }
    exists s2. cbn [for_list]. rewrite Hb. by split.
Qed.

Lemma array_read_Returns {A : Type} (l : array A) (i : Z) (x : A) :
  0 <= i -> l !! Z.to_nat i = Some (Some x) -> array_read l i = Returns x.
Proof.
  intros Hi Hl. unfold array_read. destruct (Z.leb_spec 0 i); [|lia]. by rewrite Hl.
Qed.

Lemma array_write_Returns {A : Type} (l : array A) (i : Z) (x : A) :
  0 <= i < Z.of_nat (length l) ->
  array_write l i x = Returns (<[Z.to_nat i := Some x]> l).
Proof.
  intros Hi. unfold array_write.
  destruct (Z.leb_spec 0 i), (Z.ltb_spec i (Z.of_nat (length l))); try lia. reflexivity.
Qed.

Lemma array_write_spec {A : Type} (l : array A) (i : Z) (x : A) :
  0 <= i < Z.of_nat (length l) ->
  exists l', array_write l i x = Returns l'
    /\ length l' = length l
    /\ array_read l' i = Returns x
    /\ forall j, j <> i -> array_read l' j = array_read l j.
Proof.
  intros Hi. exists (<[Z.to_nat i := Some x]> l).
  split; [by apply array_write_Returns|]. split; [apply length_insert|]. split.
  - apply array_read_Returns; [lia|]. apply list_lookup_insert_eq. lia.
  - intros j Hj. unfold array_read. destruct (Z.leb_spec 0 j); [|reflexivity].
    rewrite list_lookup_insert_ne by lia. reflexivity.
Qed.

Lemma array_read_range {A : Type} (l : array A) (i : Z) (x : A) :
  array_read l i = Returns x -> 0 <= i < Z.of_nat (length l).
Proof.
  unfold array_read. destruct (Z.leb_spec 0 i); [|discriminate].
  destruct (l !! Z.to_nat i) eqn:Hl; [|discriminate].
  apply lookup_lt_Some in Hl. lia.
Qed.

Lemma length_array_alloc {A : Type} (n : Z) :
  0 <= n -> Z.of_nat (length (array_alloc n : array A)) = n.
Proof. intros Hn. unfold array_alloc. rewrite length_replicate. lia. Qed.

Lemma mapM_outcome_Returns {A B : Type} (f : A -> outcome B) (h : A -> B) (xs : list A) :
  (forall x, x ∈ xs -> f x = Returns (h x)) ->
  mapM_outcome f xs = Returns (h <$> xs).
Proof.
  induction xs as [|x xs IH]; intros H; [reflexivity|].
  cbn [mapM_outcome]. rewrite H by (apply elem_of_cons; by left). cbn [mbind outcome_bind].
  rewrite IH by (intros y Hy; apply H; apply elem_of_cons; by right). reflexivity.
Qed.

Lemma pointer_range_Returns (b step c : Z) :
  0 < step -> 0 <= c ->
  pointer_range b (b + c * step) step = Returns ((fun k => b + k * step) <$> seqZ 0 c).
Proof.
  intros Hs Hc. unfold pointer_range.
  replace (b + c * step - b) with (c * step) by lia.
  rewrite Z.mod_mul, Z.div_mul by lia.
  destruct (Z.leb_spec b (b + c * step)); [reflexivity | nia].
Qed.

(** A walk over [c] edge records, [step] bytes apart from [b] on, whose
    [k]-th destination is [h k]. *)
Lemma edge_walk {B : Type} (getDst : Z -> outcome B) (h : Z -> B) (b step c : Z) :
  0 < step -> 0 <= c ->
  (forall k, 0 <= k < c -> getDst (b + k * step) = Returns (h k)) ->
  (es ← pointer_range b (b + c * step) step; mapM_outcome getDst es)
  = Returns (h <$> seqZ 0 c).
Proof.
  intros Hs Hc Hd. rewrite pointer_range_Returns by done. cbn [mbind outcome_bind].
  rewrite (mapM_outcome_Returns _ (fun a => h ((a - b) / step))).
  - rewrite <- list_fmap_compose. f_equal. apply list_fmap_ext.
    intros _ k _. cbn. f_equal. replace (b + k * step - b) with (k * step) by lia.
    apply Z.div_mul. lia.
  - intros a (k & -> & Hk)%list_elem_of_fmap. apply elem_of_seqZ in Hk.
    rewrite Hd by lia. f_equal. f_equal.
    replace (b + k * step - b) with (k * step) by lia. symmetry. apply Z.div_mul. lia.
Qed.

Lemma next_loop_spec (sN : Z) (fuel : nat) (ni ei : Z) :
  0 < sN -> Z.max 0 (ei - ni) < Z.of_nat fuel ->
  exists r, next_loop sN fuel ni ei = Returns r
    /\ ni <= r /\ ei <= r /\ r < Z.max ni ei + sN
    /\ (ei <= ni -> r = ni).
Proof.
  intros Hs. revert ni. induction fuel as [|fuel IH]; intros ni Hf.
  - lia.
  - cbn [next_loop]. destruct (Z.ltb_spec ni ei).
    + destruct (IH (ni + sN)) as (r & Hr & H1 & H2 & H3 & H4); [lia|].
      exists r. split; [exact Hr|]. lia.
    + exists ni. split; [reflexivity|]. lia.
Qed.

(** The value of the loop of [next()]: the first address [ni + k *
    sizeof(NodeInfo)] at or behind [ei]. *)
Definition next_addr (sN ni ei : Z) : Z :=
  if ni <? ei then ni + sN * ((ei - ni + sN - 1) / sN) else ni.

Lemma next_addr_step (sN ni ei : Z) :
  0 < sN -> ni < ei -> next_addr sN ni ei = next_addr sN (ni + sN) ei.
Proof.
  intros Hs Hlt. unfold next_addr.
  destruct (Z.ltb_spec ni ei); [|lia].
  destruct (Z.ltb_spec (ni + sN) ei).
  - replace (ei - ni + sN - 1) with (ei - (ni + sN) + sN - 1 + 1 * sN) by lia.
    rewrite Z.div_add by lia. lia.
  - assert ((ei - ni + sN - 1) / sN = 1); [|lia].
    symmetry. apply (Z.div_unique _ _ 1 (ei - ni - 1)); lia.
Qed.

Lemma next_loop_value (sN : Z) (fuel : nat) (ni ei : Z) :
  0 < sN -> Z.max 0 (ei - ni) < Z.of_nat fuel ->
  next_loop sN fuel ni ei = Returns (next_addr sN ni ei).
Proof.
  intros Hs. revert ni. induction fuel as [|fuel IH]; intros ni Hf; [lia|].
  cbn [next_loop]. destruct (Z.ltb_spec ni ei).
  - rewrite IH by lia. by rewrite <- next_addr_step.
  - unfold next_addr. destruct (Z.ltb_spec ni ei); [lia | reflexivity].
Qed.

Lemma next_addr_bounds (sN ni ei : Z) :
  0 < sN -> ni <= next_addr sN ni ei /\ ei <= next_addr sN ni ei
            /\ next_addr sN ni ei < Z.max ni ei + sN.
Proof.
  intros Hs.
  destruct (next_loop_spec sN (S (Z.to_nat (ei - ni))) ni ei) as (r & Hr & Hb);
    [done | lia |].
  rewrite next_loop_value in Hr by lia. injection Hr as <-. lia.
Qed.

Lemma std_copy_spec (src : Z -> outcome Z) (f : Z -> Z) (count : Z) (out : array Z) :
  0 <= count -> count = Z.of_nat (length out) ->
  (forall i, 0 <= i < count -> src i = Returns (f i)) ->
  exists out', std_copy src count out = Returns out'
    /\ forall i, 0 <= i < count -> array_read out' i = Returns (f i).
Proof.
  intros Hc Hlen Hsrc. unfold std_copy.
  destruct (for_range_invariant
              (fun i o => length o = length out
                          /\ forall j, 0 <= j < i -> o !! Z.to_nat j = Some (Some (f j)))
              (fun i out => x ← src i; array_write out i x)
              (Z.to_nat count) 0 out) as (out' & Hr & Hl & Hout).
  - split; [done | lia].
  - intros i o Hi [Hl Ho]. rewrite Hsrc by lia. cbn [mbind outcome_bind].
    rewrite array_write_Returns by lia. eexists. split; [reflexivity|].
    split; [rewrite length_insert; exact Hl|].
    intros j Hj. destruct (decide (j = i)) as [->|Hne].
    + apply list_lookup_insert_eq. lia.
    + rewrite list_lookup_insert_ne by lia. apply Ho. lia.
  - exists out'. split; [done|]. intros i Hi.
    apply array_read_Returns; [lia|]. apply Hout. lia.
Qed.

(** *** The four layouts of a valid graph *)

Section Equivalence.

(** A valid graph with mapping [m], small enough for the 32-bit counts of
    [FileGraph::size()] and [FileGraph::sizeEdges()]. *)
Variable graph : FileGraph.
Variable m : region.
Hypothesis Htab : tables graph m.
Hypothesis Hnodes32 : FileGraph.numNodes graph < 2 ^ 32.
Hypothesis Hedges32 : FileGraph.numEdges graph < 2 ^ 32.

Local Abbreviation n := (FileGraph.numNodes graph).
Local Abbreviation E := (FileGraph.numEdges graph).
Local Abbreviation off := (offset_of m).
Local Abbreviation fe := (first_edge m).
Local Abbreviation dst := (dest_of m (FileGraph.numNodes graph)).

(** The out-degree of node [i]. *)
Definition deg (i : Z) : Z := off i - fe i.

(** The destinations of node [i], as the FileGraph lists them. *)
Definition dests (i : Z) : list Z := dst <$> seqZ (fe i) (deg i).

Lemma size_small : size_ graph = n.
Proof. unfold size_. pose proof (tb_nodes graph m Htab). apply Z.mod_small. lia. Qed.

Lemma sizeEdges_small : sizeEdges graph = E.
Proof. unfold sizeEdges. pose proof (tb_edges graph m Htab). apply Z.mod_small. lia. Qed.

Lemma fe_succ (i : Z) : 0 <= i -> fe (i + 1) = off i.
Proof.
  intros Hi. unfold first_edge. destruct (Z.eqb_spec (i + 1) 0); [lia|].
  f_equal. lia.
Qed.

Lemma fe_last : 0 < n -> fe n = E.
Proof.
  intros Hpos. unfold first_edge. destruct (Z.eqb_spec n 0) as [Hz|Hz]; [lia|].
  by apply (tb_last graph m Htab).
Qed.

Lemma deg_range (i : Z) :
  0 <= i < n -> 0 <= fe i /\ 0 <= deg i /\ fe i + deg i = off i /\ off i <= E.
Proof. intros Hi. destruct (tb_range graph m Htab i Hi). unfold deg. lia. Qed.

Lemma neighborsSize_deg (i : Z) : 0 <= i < n -> neighborsSize graph i = Returns (deg i).
Proof.
  intros Hi. pose proof (deg_range i Hi). pose proof (tb_edges graph m Htab).
  unfold neighborsSize, FileGraph.raw_neighbor_end.
  rewrite (tb_off graph m Htab i Hi).
  assert (Hb : FileGraph.raw_neighbor_begin graph i = Returns (fe i)).
  { unfold FileGraph.raw_neighbor_begin, first_edge. destruct (Z.eqb_spec i 0); [done|].
    apply (tb_off graph m Htab). lia. }
  rewrite Hb. cbn [mbind outcome_bind]. f_equal. apply Z.mod_small. unfold deg in *. lia.
Qed.

Lemma neighbor_range_dests (i : Z) :
  0 <= i < n -> neighbor_range graph i = Returns (dests i).
Proof. intros Hi. unfold neighbor_range, dests, deg. by apply tables_neighbors. Qed.

Lemma dests_lookup (i : Z) (k : nat) (d : Z) :
  0 <= i < n -> dests i !! k = Some d ->
  Z.of_nat k < deg i /\ d = dst (fe i + Z.of_nat k) /\ 0 <= d < n.
Proof.
  intros Hi Hk. pose proof (deg_range i Hi). unfold dests in Hk.
  rewrite list_lookup_fmap in Hk.
  destruct (seqZ (fe i) (deg i) !! k) as [x|] eqn:Hx; [|discriminate].
  apply lookup_seqZ in Hx as [-> Hlt]. injection Hk as <-.
  split; [done|]. split; [done|]. apply (tb_dst_range graph m Htab). lia.
Qed.

Lemma length_dests (i : Z) : 0 <= i < n -> Z.of_nat (length (dests i)) = deg i.
Proof.
  intros Hi. pose proof (deg_range i Hi). unfold dests.
  rewrite length_fmap, length_seqZ. lia.
Qed.

(** The destinations, through a map [h] from node ids to node handles. *)
Lemma dests_handles {B : Type} (h : Z -> B) (i : Z) :
  (fun k => h (dst (fe i + k))) <$> seqZ 0 (deg i) = h <$> dests i.
Proof.
  unfold dests.
  assert (seqZ (fe i) (deg i) = Z.add (fe i) <$> seqZ 0 (deg i)) as ->.
  { rewrite fmap_add_seqZ. f_equal. lia. }
  by rewrite <- !list_fmap_compose.
Qed.

(** **** CSR *)

Lemma csr_layout :
  exists G, CSR.structureFromFile graph = Returns G
    /\ forall N, 0 <= N < n ->
         CSR.node G N = Returns N /\ CSR.edge_dsts G N = Returns (dests N).
Proof.
  pose proof (tb_nodes graph m Htab) as Hn. pose proof (tb_edges graph m Htab) as He.
  unfold CSR.structureFromFile. rewrite size_small, sizeEdges_small.
  destruct (std_copy_spec (outIdx_at graph) off n (array_alloc n)) as (idx & Hidx & Hoff);
    [lia | by rewrite length_array_alloc by lia | apply (tb_off graph m Htab) |].
  destruct (std_copy_spec (outs_at graph) dst E (array_alloc E)) as (ds & Hds & Hdst);
    [lia | by rewrite length_array_alloc by lia | apply (tb_dst graph m Htab) |].
  rewrite Hidx. cbn [mbind outcome_bind]. rewrite Hds. cbn [mbind outcome_bind].
  eexists. split; [reflexivity|]. intros N HN.
  destruct (deg_range N HN) as (Hf & Hd & Hfd & HoE).
  split.
  - unfold CSR.node. cbn [CSR.numNodes].
    destruct (Z.leb_spec 0 N), (Z.ltb_spec N n); try lia. reflexivity.
  - unfold CSR.edge_dsts, CSR.edge_begin, CSR.edge_end, CSR.raw_neighbor_begin,
      CSR.raw_neighbor_end, CSR.getEdgeDst. cbn [CSR.EdgeIndData CSR.EdgeDst].
    assert (Hb : (if N =? 0 then Returns 0 else array_read idx (N - 1)) = Returns (fe N)).
    { unfold first_edge. destruct (Z.eqb_spec N 0); [done|]. apply Hoff. lia. }
    rewrite Hb, Hoff by lia. cbn [mbind outcome_bind].
    replace (off N) with (fe N + deg N * 1) by lia.
    rewrite (edge_walk _ (fun k => dst (fe N + k))); [| lia | lia |].
    + f_equal. rewrite (dests_handles (fun x => x)). apply list_fmap_id.
    + intros k Hk. rewrite Z.mul_1_r. apply Hdst. lia.
Qed.

(** **** CSR with inline edge records *)

(** After the first loop has placed [i] nodes. *)
Definition inline_nodes_placed (i : Z) (s : CSRInline.build) : Prop :=
  Z.of_nat (length (CSRInline.b_NodeData s)) = n
  /\ Z.of_nat (length (CSRInline.node_ids s)) = n
  /\ Z.of_nat (length (CSRInline.b_EdgeData s)) = E
  /\ CSRInline.curEdge s = 0
  /\ forall j, 0 <= j < i ->
       array_read (CSRInline.node_ids s) j = Returns j
       /\ exists info, array_read (CSRInline.b_NodeData s) j = Returns info.

(** After the second loop has laid out the edges of [i] nodes. *)
Definition inline_edges_placed (i : Z) (s : CSRInline.build) : Prop :=
  Z.of_nat (length (CSRInline.b_NodeData s)) = n
  /\ Z.of_nat (length (CSRInline.b_EdgeData s)) = E
  /\ CSRInline.curEdge s = fe i
  /\ (forall j, 0 <= j < n -> array_read (CSRInline.node_ids s) j = Returns j)
  /\ (forall j, 0 <= j < n ->
        exists info, array_read (CSRInline.b_NodeData s) j = Returns info)
  /\ (forall j, 0 <= j < i ->
        array_read (CSRInline.b_NodeData s) j
        = Returns {| CSRInline.edgebegin := Some (fe j);
                     CSRInline.edgeend := Some (off j) |})
  /\ forall k, 0 <= k < fe i ->
       array_read (CSRInline.b_EdgeData s) k = Returns (dst k).

Lemma inline_place_node (i : Z) (s : CSRInline.build) :
  0 <= i < n -> inline_nodes_placed i s ->
  exists s', CSRInline.place_node i s = Returns s' /\ inline_nodes_placed (i + 1) s'.
Proof.
  intros Hi (Hl1 & Hl2 & Hl3 & Hc & Hj). unfold CSRInline.place_node.
  destruct (array_write_spec (CSRInline.b_NodeData s) i
              {| CSRInline.edgebegin := None; CSRInline.edgeend := None |})
    as (nd & -> & Hnl & Hnr & Hnf); [lia|].
  destruct (array_write_spec (CSRInline.node_ids s) i i)
    as (ids & -> & Hil & Hir & Hif); [lia|].
  cbn [mbind outcome_bind]. eexists. split; [reflexivity|].
  unfold inline_nodes_placed. cbn [CSRInline.b_NodeData CSRInline.node_ids
                                   CSRInline.b_EdgeData CSRInline.curEdge].
  split; [lia|]. split; [lia|]. split; [done|]. split; [done|].
  intros j Hj'. destruct (decide (j = i)) as [->|Hne].
  - split; [done|]. by eexists.
  - rewrite Hif, Hnf by done. apply Hj. lia.
Qed.

Lemma inline_place_edges (i : Z) (s : CSRInline.build) :
  0 <= i < n -> inline_edges_placed i s ->
  exists s', CSRInline.place_edges graph i s = Returns s'
             /\ inline_edges_placed (i + 1) s'.
Proof.
  intros Hi (Hl1 & Hl3 & Hc & Hids & Hnd & Hdone & Hed).
  destruct (deg_range i Hi) as (Hf & Hd & Hfd & HoE).
  unfold CSRInline.place_edges.
  rewrite Hids by done. cbn [mbind outcome_bind].
  destruct (Hnd i Hi) as [info ->]. cbn [mbind outcome_bind].
  destruct (array_write_spec (CSRInline.b_NodeData s) i
              {| CSRInline.edgebegin := Some (CSRInline.curEdge s);
                 CSRInline.edgeend := CSRInline.edgeend info |})
    as (nd1 & -> & Hnl & Hnr & Hnf); [lia|].
  cbn [mbind outcome_bind]. rewrite neighbor_range_dests by done.
  cbn [mbind outcome_bind].
  destruct (for_list_invariant
              (fun t s' =>
                 CSRInline.b_NodeData s' = nd1
                 /\ CSRInline.node_ids s' = CSRInline.node_ids s
                 /\ Z.of_nat (length (CSRInline.b_EdgeData s')) = E
                 /\ CSRInline.curEdge s' = fe i + Z.of_nat t
                 /\ forall k, 0 <= k < fe i + Z.of_nat t ->
                      array_read (CSRInline.b_EdgeData s') k = Returns (dst k))
              CSRInline.place_edge (dests i)
              {| CSRInline.b_NodeData := nd1;
                 CSRInline.b_EdgeData := CSRInline.b_EdgeData s;
                 CSRInline.node_ids := CSRInline.node_ids s;
                 CSRInline.curEdge := CSRInline.curEdge s |})
    as (s2 & -> & Hs2n & Hs2i & Hs2l & Hs2c & Hs2e).
  - cbn. repeat split; try done; try lia. intros k Hk. apply Hed. lia.
  - intros t x s' Hx (Hn' & Hi' & Hl' & Hc' & He').
    destruct (dests_lookup i t x Hi Hx) as (Ht & -> & Hrange).
    unfold CSRInline.place_edge. rewrite Hi', Hids by done. cbn [mbind outcome_bind].
    destruct (array_write_spec (CSRInline.b_EdgeData s') (CSRInline.curEdge s')
                (dst (fe i + Z.of_nat t)))
      as (ed & -> & Hel & Her & Hef); [lia|].
    cbn [mbind outcome_bind]. eexists. split; [reflexivity|].
    cbn [CSRInline.b_NodeData CSRInline.node_ids CSRInline.b_EdgeData CSRInline.curEdge].
    split; [done|]. split; [done|]. split; [lia|]. split; [lia|].
    intros k Hk. destruct (decide (k = fe i + Z.of_nat t)) as [->|Hne].
    + rewrite Hc' in Her. exact Her.
    + rewrite Hef by lia. apply He'. lia.
  - cbn [mbind outcome_bind]. rewrite length_dests in Hs2c, Hs2e by done.
    rewrite Hs2i, Hids by done. cbn [mbind outcome_bind].
    rewrite Hs2n, Hnr. cbn [mbind outcome_bind CSRInline.edgebegin].
    destruct (array_write_spec nd1 i
                {| CSRInline.edgebegin := Some (CSRInline.curEdge s);
                   CSRInline.edgeend := Some (CSRInline.curEdge s2) |})
      as (nd2 & -> & Hnl2 & Hnr2 & Hnf2); [lia|].
    cbn [mbind outcome_bind CSRInline.edgebegin]. eexists. split; [reflexivity|].
    unfold inline_edges_placed.
    cbn [CSRInline.b_NodeData CSRInline.node_ids CSRInline.b_EdgeData CSRInline.curEdge].
    rewrite fe_succ by lia.
    split; [lia|]. split; [lia|]. split; [lia|]. split; [done|].
    split.
    { intros j Hj. destruct (decide (j = i)) as [->|Hne]; [by eexists|].
      rewrite Hnf2, Hnf by done. by apply Hnd. }
    split.
    { intros j Hj. destruct (decide (j = i)) as [->|Hne].
      - rewrite Hnr2, Hc, Hs2c. do 3 f_equal. lia.
      - rewrite Hnf2, Hnf by done. apply Hdone. lia. }
    intros k Hk. apply Hs2e. lia.
Qed.

Lemma inline_layout :
  exists G, CSRInline.structureFromFile graph = Returns G
    /\ forall N, 0 <= N < n ->
         CSRInline.node G N = Returns N
         /\ CSRInline.edge_dsts G N = Returns (dests N).
Proof.
  pose proof (tb_nodes graph m Htab) as Hn. pose proof (tb_edges graph m Htab) as He.
  unfold CSRInline.structureFromFile, node_count. rewrite size_small, sizeEdges_small.
  destruct (for_range_invariant inline_nodes_placed CSRInline.place_node (Z.to_nat n) 0
              {| CSRInline.b_NodeData := array_alloc n;
                 CSRInline.b_EdgeData := array_alloc E;
                 CSRInline.node_ids := array_alloc n;
                 CSRInline.curEdge := 0 |})
    as (s1 & -> & Hl1 & Hl2 & Hl3 & Hc1 & Hj1).
  { unfold inline_nodes_placed.
    cbn [CSRInline.b_NodeData CSRInline.node_ids CSRInline.b_EdgeData CSRInline.curEdge].
    rewrite !length_array_alloc by lia.
    do 4 (split; [done|]). intros j Hj. lia. }
  { intros i s Hi. apply inline_place_node. lia. }
  cbn [mbind outcome_bind].
  destruct (for_range_invariant inline_edges_placed (CSRInline.place_edges graph)
              (Z.to_nat n) 0 s1)
    as (s2 & -> & Hm1 & Hm3 & Hc2 & Hids & Hnd & Hdone & Hed).
  { unfold inline_edges_placed. split; [done|]. split; [done|]. split; [done|].
    split; [intros j Hj; apply Hj1; lia|].
    split; [intros j Hj; apply Hj1; lia|].
    split; [intros j Hj; lia|]. unfold first_edge. cbn. intros k Hk. lia. }
  { intros i s Hi. apply inline_place_edges. lia. }
  cbn [mbind outcome_bind]. eexists. split; [reflexivity|]. intros N HN.
  destruct (deg_range N HN) as (Hf & Hd & Hfd & HoE).
  split.
  - unfold CSRInline.node. cbn [CSRInline.endNode].
    destruct (Z.leb_spec 0 N), (Z.ltb_spec N n); try lia. reflexivity.
  - unfold CSRInline.edge_dsts, CSRInline.edge_begin, CSRInline.edge_end,
      CSRInline.getEdgeDst. cbn [CSRInline.NodeData CSRInline.EdgeData].
    rewrite Hdone by lia. cbn [mbind outcome_bind deref CSRInline.edgebegin
                                CSRInline.edgeend].
    replace (off N) with (fe N + deg N * 1) by lia.
    rewrite (edge_walk _ (fun k => dst (fe N + k))); [| lia | lia |].
    + f_equal. rewrite (dests_handles (fun x => x)). apply list_fmap_id.
    + intros k Hk. rewrite Z.mul_1_r. apply Hed.
      rewrite Z2Nat.id by lia. rewrite Z.add_0_l, fe_last by lia. lia.
Qed.

(** **** The two linear layouts: where the records go *)

(** [sizeof(NodeInfo)] and [sizeof(EdgeInfo)]; out-degrees that fit the
    [int numEdges] of a node record; a footprint that fits [size_t]. *)
Variables sN sE : Z.
Hypothesis sN_pos : 0 < sN.
Hypothesis sE_pos : 0 < sE.
Hypothesis Hdeg31 : forall i, 0 <= i < n -> deg i < 2 ^ 31.

(** The address of the [k]-th node of a run of nodes [start], [start + 1],
    ... laid out from [base] on: each node record is followed by its edge
    records, and the next node record starts at the first multiple of
    [sizeof(NodeInfo)] from the node at or behind them. *)
Fixpoint place (base start : Z) (k : nat) : Z :=
  match k with
  | O => base
  | S k' =>
      let a := place base start k' in
      next_addr sN a (a + sN + deg (start + Z.of_nat k') * sE)
  end.

Lemma place_succ (base start : Z) (k : nat) :
  0 <= start -> start + Z.of_nat k < n ->
  place base start k + sN + deg (start + Z.of_nat k) * sE <= place base start (S k)
  /\ place base start (S k)
     < place base start k + 2 * sN + deg (start + Z.of_nat k) * sE.
Proof.
  intros Hs Hk. cbn [place].
  destruct (deg_range (start + Z.of_nat k)) as (_ & Hd & _); [lia|].
  pose proof (next_addr_bounds sN (place base start k)
                (place base start k + sN + deg (start + Z.of_nat k) * sE) sN_pos).
  nia.
Qed.

Lemma place_lt (base start : Z) (j k : nat) :
  0 <= start -> start + Z.of_nat k <= n -> (j < k)%nat ->
  place base start j + sN + deg (start + Z.of_nat j) * sE <= place base start k.
Proof.
  intros Hs Hk Hjk. induction k as [|k IH]; [lia|].
  destruct (place_succ base start k) as [Hlo _]; [lia | lia |].
  destruct (decide (j = k)) as [->|Hne]; [done|].
  destruct (deg_range (start + Z.of_nat k)) as (_ & Hd & _); [lia|].
  assert (place base start j + sN + deg (start + Z.of_nat j) * sE <= place base start k)
    by (apply IH; lia).
  nia.
Qed.

Lemma place_upper (base start : Z) (k : nat) :
  0 <= start -> start + Z.of_nat k <= n ->
  base <= place base start k
  /\ place base start k
     <= base + 2 * sN * Z.of_nat k + sE * (fe (start + Z.of_nat k) - fe start).
Proof.
  intros Hs Hk. induction k as [|k IH].
  - cbn [place]. rewrite Z.add_0_r. lia.
  - destruct (place_succ base start k) as [Hlo Hhi]; [lia | lia |].
    destruct IH as [IH1 IH2]; [lia|].
    destruct (deg_range (start + Z.of_nat k)) as (_ & Hd & Hfd & _); [lia|].
    replace (start + Z.of_nat (S k)) with (start + Z.of_nat k + 1) by lia.
    rewrite fe_succ by lia. split; [nia|]. nia.
Qed.

Lemma place_inj (base start : Z) (j k : nat) :
  0 <= start -> start + Z.of_nat j <= n -> start + Z.of_nat k <= n ->
  place base start j = place base start k -> j = k.
Proof.
  intros Hs Hj Hk Heq.
  destruct (lt_eq_lt_dec j k) as [[Hlt|Heq']|Hlt]; [|done|].
  - pose proof (place_lt base start j k Hs Hk Hlt).
    destruct (deg_range (start + Z.of_nat j)) as (_ & Hd & _); [lia|]. nia.
  - pose proof (place_lt base start k j Hs Hj Hlt).
    destruct (deg_range (start + Z.of_nat k)) as (_ & Hd & _); [lia|]. nia.
Qed.

Lemma to_int_deg (i : Z) : 0 <= i < n -> to_int (deg i) = deg i.
Proof.
  intros Hi. destruct (deg_range i Hi) as (_ & Hd & _). pose proof (Hdeg31 i Hi).
  unfold to_int. rewrite Z.mod_small by lia. lia.
Qed.

(** The address of node [i] in a run that starts with node [start] at
    [base]. *)
Definition addr (base start i : Z) : Z := place base start (Z.to_nat (i - start)).

Lemma addr_start (base start : Z) : addr base start start = base.
Proof. unfold addr. by rewrite Z.sub_diag. Qed.

Lemma addr_succ (base start i : Z) :
  start <= i ->
  addr base start (i + 1)
  = next_addr sN (addr base start i) (addr base start i + sN + deg i * sE).
Proof.
  intros Hi. unfold addr.
  replace (Z.to_nat (i + 1 - start)) with (S (Z.to_nat (i - start))) by lia.
  cbn [place]. do 4 f_equal. lia.
Qed.

Lemma addr_lt (base start j k : Z) :
  0 <= start <= j -> j < k <= n ->
  addr base start j + sN + deg j * sE <= addr base start k.
Proof.
  intros Hj Hk. unfold addr.
  pose proof (place_lt base start (Z.to_nat (j - start)) (Z.to_nat (k - start))) as H.
  replace (start + Z.of_nat (Z.to_nat (j - start))) with j in H by lia.
  apply H; lia.
Qed.

Lemma addr_upper (base start i : Z) :
  0 <= start <= i -> i <= n ->
  base <= addr base start i
  /\ addr base start i <= base + 2 * sN * (i - start) + sE * (fe i - fe start).
Proof.
  intros Hs Hi. unfold addr.
  pose proof (place_upper base start (Z.to_nat (i - start))) as H.
  replace (start + Z.of_nat (Z.to_nat (i - start))) with i in H by lia.
  rewrite Z2Nat.id in H by lia. apply H; lia.
Qed.

Lemma addr_inj (base start j k : Z) :
  0 <= start <= j -> j < n -> start <= k < n ->
  addr base start j = addr base start k -> j = k.
Proof.
  intros Hj Hjn Hk Heq. unfold addr in Heq.
  apply place_inj in Heq; lia.
Qed.

Lemma fe_mono (j k : Z) : 0 <= j <= k -> k <= n -> fe j <= fe k.
Proof.
  intros Hj Hk.
  assert (H : forall d : nat, j + Z.of_nat d <= n -> fe j <= fe (j + Z.of_nat d)).
  { induction d as [|d IH]; intros Hd; [rewrite Z.add_0_r; lia|].
    replace (j + Z.of_nat (S d)) with (j + Z.of_nat d + 1) by lia.
    rewrite fe_succ by lia. destruct (deg_range (j + Z.of_nat d)); lia. }
  specialize (H (Z.to_nat (k - j))). rewrite Z2Nat.id in H by lia.
  replace (j + (k - j)) with k in H by lia. apply H. lia.
Qed.

Lemma fe_le_E (i : Z) : 0 <= i <= n -> 0 <= fe i <= E.
Proof.
  intros Hi. destruct (decide (i = n)) as [->|Hne].
  - destruct (decide (n = 0)) as [Hz|Hz].
    + rewrite Hz. unfold first_edge. cbn. pose proof (tb_edges graph m Htab). lia.
    + rewrite fe_last by lia. pose proof (tb_edges graph m Htab). lia.
  - destruct (deg_range i) as (? & ? & ? & ?); lia.
Qed.

(** **** The linear layout *)

(** [sizeof(Header)] of the second linear layout, and a footprint that
    fits [size_t]. *)
Variable sH : Z.
Hypothesis sH_pos : 0 < sH.
Hypothesis Hfoot : sH * 2 + sN * n * 2 + sE * E < 2 ^ 64.

Local Abbreviation lin := (addr 0 0).

Definition lin_nodes_placed (i : Z) (s : Linear.build) : Prop :=
  Linear.curNode s = lin i
  /\ Z.of_nat (length (Linear.b_nodes s)) = n
  /\ Linear.limit (Linear.b_Data s) = sN * n * 2 + sE * E
  /\ forall j, 0 <= j < i ->
       array_read (Linear.b_nodes s) j = Returns (lin j)
       /\ Linear.node_numEdges (Linear.b_Data s) (lin j) = Some (deg j).

Definition lin_edges_placed (nds : list (option Z)) (i : Z) (s : Linear.build) : Prop :=
  Linear.b_nodes s = nds
  /\ Linear.limit (Linear.b_Data s) = sN * n * 2 + sE * E
  /\ (forall j, 0 <= j < n ->
        Linear.node_numEdges (Linear.b_Data s) (lin j) = Some (deg j))
  /\ forall j t, 0 <= j < i -> 0 <= t < deg j ->
       Linear.edge_dst (Linear.b_Data s) (lin j + sN + t * sE)
       = Some (lin (dst (fe j + t))).

Lemma lin_fits (i : Z) :
  0 <= i < n -> 0 <= lin i /\ lin i + sN + deg i * sE <= sN * n * 2 + sE * E.
Proof.
  intros Hi. destruct (addr_upper 0 0 i) as [Hlo Hhi]; [lia | lia |].
  destruct (deg_range i Hi) as (Hf & Hd & Hfd & HoE).
  assert (fe 0 = 0) by reflexivity. split; [lia|]. nia.
Qed.

Lemma lin_place_node (i : Z) (s : Linear.build) :
  0 <= i < n -> lin_nodes_placed i s ->
  exists s', Linear.place_node sN sE graph i s = Returns s'
             /\ lin_nodes_placed (i + 1) s'.
Proof.
  intros Hi (Hc & Hl & Hlim & Hj). unfold Linear.place_node.
  destruct (lin_fits i Hi) as [Hlo Hhi].
  destruct (deg_range i Hi) as (Hf & Hd & Hfd & HoE).
  rewrite neighborsSize_deg by done. cbn [mbind outcome_bind].
  rewrite to_int_deg, Hc by done. unfold Linear.store_node. rewrite Hlim.
  destruct (Z.leb_spec 0 (lin i)); [|lia].
  destruct (Z.leb_spec (lin i + sN) (sN * n * 2 + sE * E)); [|nia].
  cbn [andb mbind outcome_bind].
  destruct (array_write_spec (Linear.b_nodes s) i (lin i))
    as (nds & -> & Hnl & Hnr & Hnf); [lia|].
  cbn [mbind outcome_bind]. unfold Linear.next, Linear.edgeEnd, Linear.edgeBegin.
  cbn [Linear.node_numEdges]. rewrite Z.eqb_refl. cbn [deref mbind outcome_bind].
  rewrite next_loop_value by (try done; nia).
  cbn [mbind outcome_bind]. eexists. split; [reflexivity|].
  unfold lin_nodes_placed.
  cbn [Linear.curNode Linear.b_nodes Linear.b_Data Linear.limit Linear.node_numEdges].
  split; [by rewrite addr_succ by lia|]. split; [lia|]. split; [done|].
  intros j Hj'. destruct (decide (j = i)) as [->|Hne].
  - split; [done|]. by rewrite Z.eqb_refl.
  - rewrite Hnf by done. destruct (Hj j) as [H1 H2]; [lia|]. split; [done|].
    destruct (Z.eqb_spec (lin j) (lin i)) as [Heq|]; [|done].
    apply addr_inj in Heq; lia.
Qed.

Lemma lin_place_edges (nds : list (option Z)) (i : Z) (s : Linear.build) :
  (forall j, 0 <= j < n -> array_read nds j = Returns (lin j)) ->
  0 <= i < n -> lin_edges_placed nds i s ->
  exists s', Linear.place_edges sN sE graph i s = Returns s'
             /\ lin_edges_placed nds (i + 1) s'.
Proof.
  intros Hnds Hi (Hn & Hlim & Hnode & Hedge).
  destruct (lin_fits i Hi) as [Hlo Hhi].
  destruct (deg_range i Hi) as (Hf & Hd & Hfd & HoE).
  unfold Linear.place_edges. rewrite Hn, Hnds by done. cbn [mbind outcome_bind].
  rewrite neighbor_range_dests by done. cbn [mbind outcome_bind].
  destruct (for_list_invariant
              (fun t (st : Linear.memory * Z) =>
                 st.2 = lin i + sN + Z.of_nat t * sE
                 /\ Linear.limit st.1 = sN * n * 2 + sE * E
                 /\ Linear.node_numEdges st.1 = Linear.node_numEdges (Linear.b_Data s)
                 /\ (forall j t', 0 <= j < i -> 0 <= t' < deg j ->
                       Linear.edge_dst st.1 (lin j + sN + t' * sE)
                       = Some (lin (dst (fe j + t'))))
                 /\ forall t', 0 <= t' < Z.of_nat t ->
                      Linear.edge_dst st.1 (lin i + sN + t' * sE)
                      = Some (lin (dst (fe i + t'))))
              (Linear.place_edge sE nds) (dests i)
              (Linear.b_Data s, Linear.edgeBegin sN (lin i)))
    as ([mem e] & -> & He & Hml & Hmn & Hme & Hmi).
  - cbn [fst snd]. unfold Linear.edgeBegin.
    split; [lia|]. split; [done|]. split; [done|]. split; [done|]. intros t' Ht'. lia.
  - intros t x [mem e] Hx (He & Hml & Hmn & Hme & Hmi). cbn [fst snd] in *.
    destruct (dests_lookup i t x Hi Hx) as (Ht & -> & Hrange).
    unfold Linear.place_edge. rewrite Hnds by done. cbn [mbind outcome_bind].
    unfold Linear.store_edge. rewrite Hml, He.
    destruct (Z.leb_spec 0 (lin i + sN + Z.of_nat t * sE)); [|nia].
    destruct (Z.leb_spec (lin i + sN + Z.of_nat t * sE + sE) (sN * n * 2 + sE * E));
      [|nia].
    cbn [andb mbind outcome_bind]. eexists. split; [reflexivity|].
    cbn [fst snd Linear.limit Linear.node_numEdges Linear.edge_dst].
    split; [lia|]. split; [done|]. split; [done|]. split.
    + intros j t' Hj Ht'.
      destruct (Z.eqb_spec (lin j + sN + t' * sE) (lin i + sN + Z.of_nat t * sE))
        as [Heq|_]; [|by apply Hme].
      pose proof (addr_lt 0 0 j i ltac:(lia) ltac:(lia)). nia.
    + intros t' Ht'.
      destruct (Z.eqb_spec (lin i + sN + t' * sE) (lin i + sN + Z.of_nat t * sE))
        as [Heq|Hne].
      * assert (t' = Z.of_nat t) as -> by nia. done.
      * apply Hmi. assert (t' <> Z.of_nat t) by (intros ->; lia). lia.
  - cbn [fst snd] in *. cbn [mbind outcome_bind]. eexists. split; [reflexivity|].
    unfold lin_edges_placed. cbn [Linear.b_nodes Linear.b_Data].
    split; [done|]. split; [done|]. split; [by rewrite Hmn|].
    intros j t Hj Ht. destruct (decide (j = i)) as [->|Hne].
    + apply Hmi. rewrite length_dests by done. lia.
    + apply Hme; lia.
Qed.

Lemma linear_layout :
  exists G, Linear.structureFromFile sN sE graph = Returns G
    /\ (forall i j, 0 <= i < n -> 0 <= j < n -> lin i = lin j -> i = j)
    /\ forall N, 0 <= N < n ->
         Linear.node G N = Returns (lin N)
         /\ Linear.edge_dsts sN sE G (lin N) = Returns (lin <$> dests N).
Proof.
  pose proof (tb_nodes graph m Htab) as Hn. pose proof (tb_edges graph m Htab) as He.
  unfold Linear.structureFromFile, node_count. rewrite size_small, sizeEdges_small.
  rewrite (Z.mod_small (sN * n * 2 + sE * E)) by nia.
  destruct (for_range_invariant lin_nodes_placed (Linear.place_node sN sE graph)
              (Z.to_nat n) 0
              {| Linear.b_Data := {| Linear.node_numEdges := fun _ => None;
                                     Linear.edge_dst := fun _ => None;
                                     Linear.limit := sN * n * 2 + sE * E |};
                 Linear.b_nodes := array_alloc n;
                 Linear.curNode := 0 |})
    as (s1 & -> & Hc1 & Hl1 & Hlim1 & Hj1).
  { unfold lin_nodes_placed. cbn [Linear.curNode Linear.b_nodes Linear.b_Data Linear.limit].
    rewrite length_array_alloc by lia.
    split; [by rewrite addr_start|]. do 2 (split; [done|]). intros j Hj. lia. }
  { intros i s Hi. apply lin_place_node. lia. }
  cbn [mbind outcome_bind].
  rewrite Z.add_0_l, Z2Nat.id in Hj1 by lia.
  destruct (for_range_invariant (lin_edges_placed (Linear.b_nodes s1))
              (Linear.place_edges sN sE graph) (Z.to_nat n) 0 s1)
    as (s2 & -> & Hn2 & Hlim2 & Hnode2 & Hedge2).
  { unfold lin_edges_placed. split; [done|]. split; [done|].
    split; [intros j Hj; by apply Hj1|]. intros j t Hj. lia. }
  { intros i s Hi. apply lin_place_edges; [intros j Hj; by apply Hj1 | lia]. }
  cbn [mbind outcome_bind]. rewrite Z.add_0_l, Z2Nat.id in Hedge2 by lia.
  eexists. split; [reflexivity|]. split.
  { intros i j Hi Hj Heq. apply addr_inj in Heq; lia. }
  intros N HN. destruct (deg_range N HN) as (Hf & Hd & Hfd & HoE).
  split.
  - unfold Linear.node. cbn [Linear.numNodes Linear.nodes].
    destruct (Z.ltb_spec N n); [|lia]. rewrite Hn2. by apply Hj1.
  - unfold Linear.edge_dsts, Linear.edge_begin, Linear.edge_end, Linear.edgeEnd,
      Linear.getEdgeDst. cbn [Linear.Data mbind outcome_bind].
    rewrite Hnode2 by done. cbn [deref mbind outcome_bind].
    rewrite (edge_walk _ (fun k => lin (dst (fe N + k)))); [| lia | lia |].
    + f_equal. apply (dests_handles lin).
    + intros k Hk. unfold Linear.edgeBegin. rewrite Hedge2 by lia. reflexivity.
Qed.

(** **** The second linear layout: dividing the nodes among the workers *)

Variable num : nat.
Hypothesis num_pos : (0 < num)%nat.

Local Abbreviation zero_info :=
  {| Linear2.d_numNodes := 0; Linear2.d_numEdges := 0;
     Linear2.d_begin := 0; Linear2.d_end := 0 |}.

Lemma fe_n : fe n = E.
Proof.
  pose proof (tb_nodes graph m Htab) as Hn. pose proof (tb_edges graph m Htab) as He.
  destruct (decide (n = 0)) as [Hz|Hz]; [|apply fe_last; lia].
  rewrite Hz. change (fe 0) with 0.
  destruct (decide (E = 0)) as [|HE]; [done|].
  destruct (tb_dst_range graph m Htab 0); lia.
Qed.

(** A slot of [dinfo] describes a range of nodes with its node and edge
    counts. *)
Definition slot_ok (d : Linear2.DistributeInfo) : Prop :=
  0 <= Linear2.d_begin d <= Linear2.d_end d /\ Linear2.d_end d <= n
  /\ Linear2.d_numNodes d = Linear2.d_end d - Linear2.d_begin d
  /\ Linear2.d_numEdges d = fe (Linear2.d_end d) - fe (Linear2.d_begin d).

Definition in_slot (d : Linear2.DistributeInfo) (i : Z) : Prop :=
  Linear2.d_begin d <= i < Linear2.d_end d.

(** The ranges of the slots are disjoint and cover the nodes below [hi]. *)
Record partition (dinfo : list Linear2.DistributeInfo) (hi : Z) : Prop := {
  pt_slot : forall t d, dinfo !! t = Some d -> slot_ok d /\ Linear2.d_end d <= hi;
  pt_cover : forall i, 0 <= i < hi -> exists t d, dinfo !! t = Some d /\ in_slot d i;
  pt_disjoint : forall t t' d d' i,
      dinfo !! t = Some d -> dinfo !! t' = Some d' ->
      in_slot d i -> in_slot d' i -> t = t'
}.

(** The locals of [distribute] when the slots below [t] are filled. *)
Record distributing (t : nat) (s : Linear2.dstate) : Prop := {
  ds_range : 0 <= Linear2.last s <= Linear2.ii s /\ Linear2.ii s <= n;
  ds_nnodes : Linear2.nnodes s = Linear2.ii s - Linear2.last s;
  ds_nedges : Linear2.nedges s = fe (Linear2.ii s) - fe (Linear2.last s);
  ds_runningNodes : Linear2.runningNodes s = Linear2.last s;
  ds_runningEdges : Linear2.runningEdges s = fe (Linear2.last s);
  ds_length : length (Linear2.dinfo s) = num;
  ds_partition : partition (Linear2.dinfo s) (Linear2.last s);
  ds_zero : forall t', (t <= t' < num)%nat -> Linear2.dinfo s !! t' = Some zero_info
}.

Lemma size_t_small (z : Z) : 0 <= z < 2 ^ 64 -> Linear2.size_t z = z.
Proof. intros Hz. unfold Linear2.size_t. by apply Z.mod_small. Qed.

Lemma partition_fill (dinfo : list Linear2.DistributeInfo) (t : nat)
    (d : Linear2.DistributeInfo) (lo : Z) :
  partition dinfo lo -> dinfo !! t = Some zero_info ->
  slot_ok d -> Linear2.d_begin d = lo ->
  partition (<[t := d]> dinfo) (Linear2.d_end d).
Proof.
  intros [Hslot Hcover Hdisj] Hz Hd Hb.
  assert (Ht : (t < length dinfo)%nat) by (by eapply lookup_lt_Some).
  destruct Hd as (Hd1 & Hd2 & Hd3 & Hd4).
  split.
  - intros t' d' [(<- & <- & _) | (Hne & Hl)]%list_lookup_insert_Some.
    + split; [done | lia].
    + destruct (Hslot t' d' Hl) as [Hok Hend]. split; [done | lia].
  - intros i Hi. destruct (Z.lt_ge_cases i lo) as [Hlt|Hge].
    + destruct (Hcover i) as (t' & d' & Hl & Hin); [lia|].
      exists t', d'. split; [|done]. rewrite list_lookup_insert_ne; [done|].
      intros <-. rewrite Hz in Hl. injection Hl as <-. unfold in_slot in Hin. cbn in Hin. lia.
    + exists t, d. split; [by apply list_lookup_insert_eq|]. unfold in_slot. lia.
  - intros t1 t2 d1 d2 i H1 H2 Hi1 Hi2. unfold in_slot in *.
    apply list_lookup_insert_Some in H1 as [(<- & <- & _) | (Hne1 & H1)];
      apply list_lookup_insert_Some in H2 as [(<- & <- & _) | (Hne2 & H2)]; try done.
    + destruct (Hslot t2 d2 H2) as [_ Hend]. lia.
    + destruct (Hslot t1 d1 H1) as [_ Hend]. lia.
    + by apply (Hdisj t1 t2 d1 d2 i).
Qed.

Lemma distribute_inner_spec (blockSize : Z) (t : nat) (fuel : nat) (s : Linear2.dstate) :
  (t < num)%nat -> distributing t s -> n - Linear2.ii s < Z.of_nat fuel ->
  exists s', Linear2.distribute_inner sN sE fuel graph blockSize n t s = Returns s'
             /\ distributing (S t) s'.
Proof.
  intros Ht. revert s. induction fuel as [|fuel IH]; intros s Hs Hf.
  { destruct Hs. lia. }
  pose proof (tb_nodes graph m Htab) as Hn. pose proof (tb_edges graph m Htab) as He.
  pose proof Hs as [[Hr1 Hr2] Hnn Hne Hrn Hre Hlen Hpart Hzero].
  assert (Hfi : 0 <= fe (Linear2.ii s) <= E) by (apply fe_le_E; lia).
  assert (Hfl : 0 <= fe (Linear2.last s) <= fe (Linear2.ii s))
    by (split; [apply fe_le_E; lia | apply fe_mono; lia]).
  cbn [Linear2.distribute_inner]. destruct (Z.eqb_spec (Linear2.ii s) n) as [Hend|Hnend].
  { exists s. split; [reflexivity|]. split; try done. intros t' Ht'. apply Hzero. lia. }
  destruct (Linear2.size_t _ <=? Linear2.curSize s).
  - destruct (Nat.ltb_spec t (length (Linear2.dinfo s))); [|lia].
    eexists. split; [reflexivity|].
    split; cbn [Linear2.ii Linear2.last Linear2.nnodes Linear2.nedges
                Linear2.runningNodes Linear2.runningEdges Linear2.dinfo].
    + lia.
    + lia.
    + lia.
    + rewrite Hrn, Hnn, size_t_small by lia. lia.
    + rewrite Hre, Hne, size_t_small by lia. lia.
    + by rewrite length_insert.
    + apply (partition_fill _ _
               {| Linear2.d_numNodes := Linear2.nnodes s;
                  Linear2.d_numEdges := Linear2.nedges s;
                  Linear2.d_begin := Linear2.last s;
                  Linear2.d_end := Linear2.ii s |} (Linear2.last s));
        [done | apply Hzero; lia | | done].
      unfold slot_ok. cbn. lia.
    + intros t' Ht'. rewrite list_lookup_insert_ne by lia. apply Hzero. lia.
  - rewrite neighborsSize_deg by lia. cbn [mbind outcome_bind].
    destruct (deg_range (Linear2.ii s)) as (_ & Hd & Hfd & HoE); [lia|].
    apply IH; [|cbn; lia].
    split; cbn [Linear2.ii Linear2.last Linear2.nnodes Linear2.nedges
                Linear2.runningNodes Linear2.runningEdges Linear2.dinfo]; try done.
    + lia.
    + rewrite Hnn. rewrite size_t_small by lia. lia.
    + rewrite Hne, fe_succ by lia. rewrite size_t_small by lia. lia.
Qed.

Lemma distribute_spec :
  exists dinfo, Linear2.distribute sN sE num graph n E = Returns dinfo
    /\ length dinfo = num /\ partition dinfo n.
Proof.
  pose proof (tb_nodes graph m Htab) as Hn. pose proof (tb_edges graph m Htab) as He.
  unfold Linear2.distribute. destruct (Nat.eqb_spec num 0) as [Hz|Hz]; [lia|].
  set (blockSize := Linear2.size_t (sN * n + sE * E) / Z.of_nat num).
  destruct (for_list_invariant
              (fun k s => distributing k s)
              (fun tid s =>
                 Linear2.distribute_inner sN sE (S (Z.to_nat (n - Linear2.ii s)))
                   graph blockSize n tid s)
              (seq 0 (num - 1))
              {| Linear2.ii := 0; Linear2.curSize := 0; Linear2.last := 0;
                 Linear2.nnodes := 0; Linear2.nedges := 0;
                 Linear2.runningNodes := 0; Linear2.runningEdges := 0;
                 Linear2.dinfo := replicate num zero_info |})
    as (s & -> & Hs).
  - split; cbn; try done; try lia.
    + apply length_replicate.
    + split.
      * intros t d [-> _]%lookup_replicate. unfold slot_ok. cbn. change (fe 0) with 0. lia.
      * intros i Hi. lia.
      * intros t t' d d' i [-> _]%lookup_replicate _ Hi. unfold in_slot in Hi. cbn in Hi. lia.
    + intros t' Ht'. apply lookup_replicate_2. lia.
  - intros k tid s Hk Hs. apply lookup_seq in Hk as [-> Hk]. cbn [Nat.add].
    apply distribute_inner_spec; [lia | done | lia].
  - rewrite length_seq in Hs. cbn [mbind outcome_bind].
    pose proof Hs as [[Hr1 Hr2] Hnn Hne Hrn Hre Hlen Hpart Hzero].
    assert (Hfl : 0 <= fe (Linear2.last s) <= E) by (apply fe_le_E; lia).
    eexists. split; [reflexivity|]. split; [by rewrite length_insert|].
    rewrite Hrn, Hre, !size_t_small by lia.
    apply (partition_fill _ _
             {| Linear2.d_numNodes := n - Linear2.last s;
                Linear2.d_numEdges := E - fe (Linear2.last s);
                Linear2.d_begin := Linear2.last s;
                Linear2.d_end := n |} (Linear2.last s));
      [done | apply Hzero; lia | | done].
    unfold slot_ok. cbn. rewrite fe_n. lia.
Qed.

(** **** The second linear layout: the node records *)

Section Workers.

(** The slots that [distribute] filled. *)
Variable dinfo : list Linear2.DistributeInfo.
Hypothesis Hdinfo_length : length dinfo = num.
Hypothesis Hdinfo : partition dinfo n.

(** The address of node [i] in the arena of the worker whose slot is [d],
    and the size of that arena. *)
Definition l2 (d : Linear2.DistributeInfo) (i : Z) : Z :=
  addr sH (Linear2.d_begin d) i.

Definition arena_size (d : Linear2.DistributeInfo) : Z :=
  sH * 2 + sN * Linear2.d_numNodes d * 2 + sE * Linear2.d_numEdges d.

#[local] Instance in_slot_dec (d : Linear2.DistributeInfo) (i : Z) : Decision (in_slot d i).
Proof. unfold in_slot. apply _. Defined.

(** The handle of node [i]: the worker whose slot holds it, and its
    address in that worker's arena. *)
Definition handle (i : Z) : Linear2.pointer :=
  match list_find (fun d => in_slot d i) dinfo with
  | Some (t, d) => (t, l2 d i)
  | None => (0%nat, 0)
  end.

Lemma handle_slot (t : nat) (d : Linear2.DistributeInfo) (i : Z) :
  dinfo !! t = Some d -> in_slot d i -> handle i = (t, l2 d i).
Proof.
  intros Hd Hi. unfold handle.
  destruct (list_find (fun d => in_slot d i) dinfo) as [[t' d']|] eqn:Hf.
  - apply list_find_Some in Hf as (Hd' & Hi' & _).
    assert (t = t') as <- by (by apply (pt_disjoint dinfo n Hdinfo t t' d d' i)).
    assert (d' = d) as -> by congruence. reflexivity.
  - apply list_find_None in Hf. rewrite Forall_forall in Hf.
    exfalso. apply (Hf d); [by eapply list_elem_of_lookup_2 | done].
Qed.

Lemma handle_inj (i j : Z) : 0 <= i < n -> 0 <= j < n -> handle i = handle j -> i = j.
Proof.
  intros Hi Hj Heq.
  destruct (pt_cover dinfo n Hdinfo i Hi) as (t & d & Hd & Hin).
  destruct (pt_cover dinfo n Hdinfo j Hj) as (t' & d' & Hd' & Hin').
  rewrite (handle_slot t d i Hd Hin), (handle_slot t' d' j Hd' Hin') in Heq.
  injection Heq as <- Heq. assert (d' = d) as -> by congruence.
  destruct (pt_slot dinfo n Hdinfo t d Hd) as [(Hb & He & _) _].
  unfold l2, in_slot in *. apply addr_inj in Heq; lia.
Qed.

Lemma l2_fits (d : Linear2.DistributeInfo) (i : Z) :
  slot_ok d -> in_slot d i ->
  0 <= l2 d i /\ l2 d i + sN + deg i * sE <= arena_size d
  /\ arena_size d < 2 ^ 64.
Proof.
  intros (Hb & He & Hnn & Hne) Hi. unfold in_slot in Hi. unfold l2, arena_size.
  destruct (addr_upper sH (Linear2.d_begin d) i) as [Hlo Hhi]; [lia | lia |].
  destruct (deg_range i) as (Hf & Hd & Hfd & HoE); [lia|].
  pose proof (fe_mono (i + 1) (Linear2.d_end d) ltac:(lia) ltac:(lia)) as Hm.
  rewrite fe_succ in Hm by lia.
  pose proof (fe_le_E (Linear2.d_end d) ltac:(lia)).
  pose proof (fe_le_E (Linear2.d_begin d) ltac:(lia)).
  pose proof (tb_nodes graph m Htab). rewrite Hnn, Hne.
  split; [lia|]. split; nia.
Qed.

Lemma arena_size_fits (d : Linear2.DistributeInfo) :
  slot_ok d -> 0 <= arena_size d < 2 ^ 64.
Proof.
  intros (Hb & He & Hnn & Hne). unfold arena_size. rewrite Hnn, Hne.
  pose proof (fe_mono (Linear2.d_begin d) (Linear2.d_end d) ltac:(lia) ltac:(lia)).
  pose proof (fe_le_E (Linear2.d_end d) ltac:(lia)).
  pose proof (fe_le_E (Linear2.d_begin d) ltac:(lia)).
  pose proof (tb_nodes graph m Htab). split; nia.
Qed.

(** Worker [t] has laid out its node records. *)
Definition nodes_done (t : nat) (s : Linear2.build) : Prop :=
  forall d, dinfo !! t = Some d ->
    exists h, Linear2.b_headers s !! t = Some (Some h)
      /\ Linear2.h_size h = arena_size d
      /\ forall i, in_slot d i ->
           array_read (Linear2.b_nodes s) i = Returns (t, l2 d i)
           /\ Linear2.node_numEdges h (l2 d i) = deg i.

Lemma l2_place_node (t : nat) (d : Linear2.DistributeInfo) (nds0 : list (option Linear2.pointer))
    (i : Z) (st : Linear2.Header * list (option Linear2.pointer)) :
  slot_ok d -> in_slot d i ->
  (Linear2.h_end st.1 = l2 d i
   /\ Linear2.h_size st.1 = arena_size d
   /\ Z.of_nat (length st.2) = n
   /\ (forall j, Linear2.d_begin d <= j < i ->
         array_read st.2 j = Returns (t, l2 d j)
         /\ Linear2.node_numEdges st.1 (l2 d j) = deg j)
   /\ forall j, ~ in_slot d j -> array_read st.2 j = array_read nds0 j) ->
  exists st', Linear2.place_node sN sE graph t i st = Returns st'
    /\ Linear2.h_end st'.1 = l2 d (i + 1)
    /\ Linear2.h_size st'.1 = arena_size d
    /\ Z.of_nat (length st'.2) = n
    /\ (forall j, Linear2.d_begin d <= j < i + 1 ->
          array_read st'.2 j = Returns (t, l2 d j)
          /\ Linear2.node_numEdges st'.1 (l2 d j) = deg j)
    /\ forall j, ~ in_slot d j -> array_read st'.2 j = array_read nds0 j.
Proof.
  intros Hok Hi. destruct st as [h nds]. cbn [fst snd].
  intros (Hend & Hsize & Hlen & Hdone & Hframe).
  destruct (l2_fits d i Hok Hi) as (Hlo & Hhi & _).
  pose proof Hok as (Hb & He & _). pose proof Hi as Hi'. unfold in_slot in Hi'.
  destruct (deg_range i) as (Hf & Hd & Hfd & HoE); [lia|].
  unfold Linear2.place_node. rewrite neighborsSize_deg by lia.
  cbn [mbind outcome_bind]. rewrite to_int_deg by lia.
  unfold Linear2.store_node. rewrite Hend, Hsize.
  destruct (Z.leb_spec 0 (l2 d i)); [|lia].
  destruct (Z.leb_spec (l2 d i + sN) (arena_size d)); [|nia].
  cbn [andb mbind outcome_bind Linear2.h_end].
  destruct (array_write_spec nds i (t, Linear2.h_end h))
    as (nds' & Hw & Hnl & Hnr & Hnf); [lia|].
  rewrite Hend in *. rewrite Hw. cbn [mbind outcome_bind].
  unfold Linear2.next, Linear2.edgeEnd, Linear2.edgeBegin.
  cbn [Linear2.node_numEdges Linear2.h_end]. rewrite Z.eqb_refl.
  rewrite next_loop_value by (try done; nia).
  cbn [mbind outcome_bind]. eexists. split; [reflexivity|].
  cbn [fst snd Linear2.set_end Linear2.h_end Linear2.h_size Linear2.node_numEdges].
  split; [unfold l2; by rewrite addr_succ by lia|].
  split; [done|]. split; [lia|]. split.
  - intros j Hj. destruct (decide (j = i)) as [->|Hne].
    + split; [done|]. by rewrite Z.eqb_refl.
    + rewrite Hnf by done. destruct (Hdone j) as [H1 H2]; [lia|]. split; [done|].
      destruct (Z.eqb_spec (l2 d j) (l2 d i)) as [Heq|]; [|done].
      unfold l2 in Heq. apply addr_inj in Heq; lia.
  - intros j Hj. rewrite Hnf; [by apply Hframe|]. intros ->. by apply Hj.
Qed.

Lemma allocate_nodes_step (t : nat) (s : Linear2.build) :
  (t < num)%nat ->
  length (Linear2.b_headers s) = num -> Z.of_nat (length (Linear2.b_nodes s)) = n ->
  exists s', Linear2.AllocateNodes sN sE sH graph dinfo t s = Returns s'
    /\ length (Linear2.b_headers s') = num
    /\ Z.of_nat (length (Linear2.b_nodes s')) = n
    /\ nodes_done t s'
    /\ (forall t', t' <> t -> Linear2.b_headers s' !! t' = Linear2.b_headers s !! t')
    /\ forall d j, dinfo !! t = Some d -> ~ in_slot d j ->
         array_read (Linear2.b_nodes s') j = array_read (Linear2.b_nodes s) j.
Proof.
  intros Ht Hlh Hln.
  destruct (lookup_lt_is_Some_2 dinfo t) as [d Hd]; [lia|].
  destruct (pt_slot dinfo n Hdinfo t d Hd) as [Hok _].
  pose proof Hok as (Hb & He & Hnn & Hne).
  pose proof (arena_size_fits d Hok) as Hsz.
  unfold Linear2.AllocateNodes. rewrite Hd. cbn [deref mbind outcome_bind].
  destruct (Nat.ltb_spec t (length (Linear2.b_headers s))); [|lia]. cbn [negb].
  fold (arena_size d). rewrite size_t_small by done.
  destruct (Z.eqb_spec (Linear2.d_numNodes d) 0) as [Hz|Hnz].
  - eexists. split; [reflexivity|]. cbn [Linear2.b_headers Linear2.b_nodes].
    split; [by rewrite length_insert|]. split; [done|]. split.
    { intros d' Hd'. assert (d' = d) as -> by congruence.
      eexists. split; [apply list_lookup_insert_eq; lia|]. split; [reflexivity|].
      intros i Hi. unfold in_slot in Hi. lia. }
    split; [intros t' Ht'; by rewrite list_lookup_insert_ne|]. done.
  - destruct (Z.ltb_spec (Linear2.d_end d) (Linear2.d_begin d)); [lia|].
    destruct (for_range_invariant
                (fun i (st : Linear2.Header * list (option Linear2.pointer)) =>
                   Linear2.h_end st.1 = l2 d i
                   /\ Linear2.h_size st.1 = arena_size d
                   /\ Z.of_nat (length st.2) = n
                   /\ (forall j, Linear2.d_begin d <= j < i ->
                         array_read st.2 j = Returns (t, l2 d j)
                         /\ Linear2.node_numEdges st.1 (l2 d j) = deg j)
                   /\ forall j, ~ in_slot d j ->
                        array_read st.2 j = array_read (Linear2.b_nodes s) j)
                (Linear2.place_node sN sE graph t)
                (Z.to_nat (Linear2.d_end d - Linear2.d_begin d)) (Linear2.d_begin d)
                ({| Linear2.h_begin := sH; Linear2.h_end := sH;
                    Linear2.h_size := arena_size d;
                    Linear2.node_numEdges := fun _ => 0;
                    Linear2.edge_dst := fun _ => None |}, Linear2.b_nodes s))
      as ([h nds] & -> & Hend & Hsize & Hlen & Hdone & Hframe).
    + cbn [fst snd Linear2.h_end Linear2.h_size].
      split; [unfold l2; by rewrite addr_start|]. split; [done|]. split; [done|].
      split; [intros j Hj; lia | done].
    + intros i st Hi Hinv.
      destruct (l2_place_node t d (Linear2.b_nodes s) i st Hok) as (st' & Hr & Hst');
        [unfold in_slot; lia | done |].
      by exists st'.
    + cbn [fst snd] in *. cbn [mbind outcome_bind]. eexists. split; [reflexivity|].
      cbn [Linear2.b_headers Linear2.b_nodes].
      split; [by rewrite length_insert|]. split; [done|]. split.
      { intros d' Hd'. assert (d' = d) as -> by congruence.
        exists h. split; [apply list_lookup_insert_eq; lia|]. split; [done|].
        intros i Hi. apply Hdone. unfold in_slot in Hi. lia. }
      split; [intros t' Ht'; by rewrite list_lookup_insert_ne|].
      intros d' j Hd' Hj. assert (d' = d) as -> by congruence. by apply Hframe.
Qed.

Lemma nodes_done_frame (t t' : nat) (s s' : Linear2.build) :
  t' <> t -> nodes_done t' s ->
  Linear2.b_headers s' !! t' = Linear2.b_headers s !! t' ->
  (forall d j, dinfo !! t = Some d -> ~ in_slot d j ->
     array_read (Linear2.b_nodes s') j = array_read (Linear2.b_nodes s) j) ->
  (t < num)%nat ->
  nodes_done t' s'.
Proof.
  intros Hne Hdone Hh Hn Ht d' Hd'.
  destruct (Hdone d' Hd') as (h & Hh' & Hsize & Hi).
  destruct (lookup_lt_is_Some_2 dinfo t) as [d Hd]; [lia|].
  exists h. split; [by rewrite Hh|]. split; [done|].
  intros i Hin. rewrite (Hn d i Hd); [by apply Hi|].
  intros Hin'. apply Hne. by apply (pt_disjoint dinfo n Hdinfo t' t d' d i).
Qed.

Lemma allocate_nodes_phase (order : list nat) (s : Linear2.build) :
  (forall t, t ∈ order -> (t < num)%nat) ->
  length (Linear2.b_headers s) = num -> Z.of_nat (length (Linear2.b_nodes s)) = n ->
  exists s', Linear2.on_each (Linear2.AllocateNodes sN sE sH graph dinfo) order s
             = Returns s'
    /\ length (Linear2.b_headers s') = num
    /\ Z.of_nat (length (Linear2.b_nodes s')) = n
    /\ forall t, t ∈ order -> nodes_done t s'.
Proof.
  intros Horder Hlh Hln. unfold Linear2.on_each.
  destruct (for_list_invariant
              (fun k s' =>
                 length (Linear2.b_headers s') = num
                 /\ Z.of_nat (length (Linear2.b_nodes s')) = n
                 /\ forall j t, (j < k)%nat -> order !! j = Some t -> nodes_done t s')
              (Linear2.AllocateNodes sN sE sH graph dinfo) order s)
    as (s' & Hr & Hlh' & Hln' & Hdone).
  - split; [done|]. split; [done|]. intros j t Hj. lia.
  - intros k t s1 Hk (Hl1 & Hl2 & Hd1).
    assert (Ht : (t < num)%nat) by (apply Horder; by eapply list_elem_of_lookup_2).
    destruct (allocate_nodes_step t s1 Ht Hl1 Hl2)
      as (s2 & Hr & Hl1' & Hl2' & Hdone & Hfh & Hfn).
    exists s2. split; [done|]. split; [done|]. split; [done|].
    intros j t' Hj Hjt. destruct (decide (t' = t)) as [->|Hne]; [done|].
    apply (nodes_done_frame t t' s1 s2); try done.
    + apply (Hd1 j); [|done]. destruct (decide (j = k)) as [->|]; [congruence | lia].
    + by apply Hfh.
  - exists s'. split; [done|]. split; [done|]. split; [done|].
    intros t [j Hj]%list_elem_of_lookup_1. apply (Hdone j); [|done].
    by eapply lookup_lt_Some.
Qed.

(** **** The second linear layout: the edge records *)

Definition arena_ok (d : Linear2.DistributeInfo) (h : Linear2.Header) : Prop :=
  Linear2.h_size h = arena_size d
  /\ forall i, in_slot d i -> Linear2.node_numEdges h (l2 d i) = deg i.

(** The edge records of the nodes of the slot before [i], and the first
    [k] of node [i], name their destinations. *)
Definition edges_upto (d : Linear2.DistributeInfo) (h : Linear2.Header) (i k : Z) : Prop :=
  (forall j k', Linear2.d_begin d <= j < i -> 0 <= k' < deg j ->
     Linear2.edge_dst h (l2 d j + sN + k' * sE) = Some (handle (dst (fe j + k'))))
  /\ forall k', 0 <= k' < k ->
       Linear2.edge_dst h (l2 d i + sN + k' * sE) = Some (handle (dst (fe i + k'))).

Definition edges_placed (t : nat) (d : Linear2.DistributeInfo)
    (hs0 : list (option Linear2.Header)) (i k : Z) (hs : list (option Linear2.Header))
  : Prop :=
  (forall t', t' <> t -> hs !! t' = hs0 !! t')
  /\ exists h, hs !! t = Some (Some h) /\ arena_ok d h /\ edges_upto d h i k.

Lemma l2_place_edge (t : nat) (d : Linear2.DistributeInfo)
    (nds : list (option Linear2.pointer)) (hs0 : list (option Linear2.Header))
    (i : Z) (k : nat) (x : Z) (st : list (option Linear2.Header) * Z) :
  (forall j, 0 <= j < n -> array_read nds j = Returns (handle j)) ->
  slot_ok d -> in_slot d i -> dests i !! k = Some x ->
  st.2 = l2 d i + sN + Z.of_nat k * sE ->
  edges_placed t d hs0 i (Z.of_nat k) st.1 ->
  exists st', Linear2.place_edge sE nds t x st = Returns st'
    /\ st'.2 = l2 d i + sN + Z.of_nat (S k) * sE
    /\ edges_placed t d hs0 i (Z.of_nat (S k)) st'.1.
Proof.
  intros Hnds Hok Hi Hx He (Hframe & h & Hh & [Hsize Hnum] & Hbefore & Hhere).
  destruct st as [hs e]. cbn [fst snd] in *.
  destruct (l2_fits d i Hok Hi) as (Hlo & Hhi & _).
  pose proof Hok as (Hb & Hend & _). pose proof Hi as Hi'. unfold in_slot in Hi'.
  destruct (deg_range i) as (Hf & Hd & Hfd & HoE); [lia|].
  destruct (dests_lookup i k x) as (Hk & -> & Hrange); [lia | done |].
  unfold Linear2.place_edge. rewrite Hnds by done. cbn [mbind outcome_bind].
  rewrite Hh. change (mjoin (Some (Some h))) with (Some h). cbn [deref mbind outcome_bind].
  unfold Linear2.store_edge. rewrite Hsize, He.
  destruct (Z.leb_spec 0 (l2 d i + sN + Z.of_nat k * sE)); [|nia].
  destruct (Z.leb_spec (l2 d i + sN + Z.of_nat k * sE + sE) (arena_size d)); [|nia].
  cbn [andb mbind outcome_bind]. eexists. split; [reflexivity|]. cbn [fst snd].
  split; [lia|]. split.
  { intros t' Ht'. rewrite list_lookup_insert_ne by done. by apply Hframe. }
  eexists. split; [apply list_lookup_insert_eq; by eapply lookup_lt_Some|].
  split; [by split|].
  unfold edges_upto. cbn [Linear2.edge_dst]. split.
  - intros j k' Hj Hk'.
    destruct (Z.eqb_spec (l2 d j + sN + k' * sE) (l2 d i + sN + Z.of_nat k * sE))
      as [Heq|_]; [|by apply Hbefore].
    pose proof (addr_lt sH (Linear2.d_begin d) j i ltac:(lia) ltac:(lia)).
    unfold l2 in Heq. nia.
  - intros k' Hk'.
    destruct (Z.eqb_spec (l2 d i + sN + k' * sE) (l2 d i + sN + Z.of_nat k * sE))
      as [Heq|Hne].
    + assert (k' = Z.of_nat k) as -> by nia. done.
    + apply Hhere. assert (k' <> Z.of_nat k) by (intros ->; lia). lia.
Qed.

Lemma l2_place_edges (t : nat) (d : Linear2.DistributeInfo)
    (nds : list (option Linear2.pointer)) (hs0 hs : list (option Linear2.Header)) (i : Z) :
  (forall j, 0 <= j < n -> array_read nds j = Returns (handle j)) ->
  dinfo !! t = Some d -> in_slot d i ->
  edges_placed t d hs0 i 0 hs ->
  exists hs', Linear2.place_edges sN sE graph nds i hs = Returns hs'
    /\ edges_placed t d hs0 (i + 1) 0 hs'.
Proof.
  intros Hnds Hd Hi Hinv.
  destruct (pt_slot dinfo n Hdinfo t d Hd) as [Hok _].
  pose proof Hok as (Hb & Hend & _). pose proof Hi as Hi'. unfold in_slot in Hi'.
  unfold Linear2.place_edges. rewrite Hnds, (handle_slot t d i Hd Hi) by lia.
  cbn [mbind outcome_bind]. rewrite neighbor_range_dests by lia.
  cbn [mbind outcome_bind].
  destruct (for_list_invariant
              (fun k (st : list (option Linear2.Header) * Z) =>
                 st.2 = l2 d i + sN + Z.of_nat k * sE
                 /\ edges_placed t d hs0 i (Z.of_nat k) st.1)
              (Linear2.place_edge sE nds t) (dests i)
              (hs, Linear2.edgeBegin sN (l2 d i)))
    as ([hs' e] & -> & _ & Hframe & h & Hh & Hah & Hbefore & Hhere).
  - cbn [fst snd]. unfold Linear2.edgeBegin. split; [lia | done].
  - intros k x st Hx [He Hp]. by apply (l2_place_edge t d nds hs0 i k x st).
  - cbn [fst snd] in *. cbn [mbind outcome_bind]. exists hs'. split; [reflexivity|].
    split; [done|]. exists h. split; [done|]. split; [done|]. split.
    + intros j k' Hj Hk'. destruct (decide (j = i)) as [->|Hne].
      * apply Hhere. rewrite length_dests by lia. lia.
      * apply Hbefore; lia.
    + intros k' Hk'. lia.
Qed.

Definition arenas_ok (s : Linear2.build) : Prop :=
  forall t d, dinfo !! t = Some d ->
    exists h, Linear2.b_headers s !! t = Some (Some h) /\ arena_ok d h.

(** Worker [t] has written the edge records of its nodes. *)
Definition edges_done (t : nat) (s : Linear2.build) : Prop :=
  forall d h, dinfo !! t = Some d -> Linear2.b_headers s !! t = Some (Some h) ->
    forall i k, in_slot d i -> 0 <= k < deg i ->
      Linear2.edge_dst h (l2 d i + sN + k * sE) = Some (handle (dst (fe i + k))).

Lemma allocate_edges_step (t : nat) (s : Linear2.build) :
  (t < num)%nat -> arenas_ok s ->
  (forall j, 0 <= j < n -> array_read (Linear2.b_nodes s) j = Returns (handle j)) ->
  exists s', Linear2.AllocateEdges sN sE graph dinfo t s = Returns s'
    /\ Linear2.b_nodes s' = Linear2.b_nodes s
    /\ arenas_ok s' /\ edges_done t s'
    /\ forall t', t' <> t -> Linear2.b_headers s' !! t' = Linear2.b_headers s !! t'.
Proof.
  intros Ht Hars Hnds.
  destruct (lookup_lt_is_Some_2 dinfo t) as [d Hd]; [lia|].
  destruct (pt_slot dinfo n Hdinfo t d Hd) as [Hok _].
  pose proof Hok as (Hb & He & Hnn & Hne).
  unfold Linear2.AllocateEdges. rewrite Hd. cbn [deref mbind outcome_bind].
  destruct (Z.eqb_spec (Linear2.d_numNodes d) 0) as [Hz|Hnz].
  - exists s. split; [reflexivity|]. split; [done|]. split; [done|]. split; [|done].
    intros d' h Hd' _ i k Hi. assert (d' = d) as -> by congruence.
    unfold in_slot in Hi. lia.
  - destruct (Z.ltb_spec (Linear2.d_end d) (Linear2.d_begin d)); [lia|].
    destruct (Hars t d Hd) as (h0 & Hh0 & Hah0).
    destruct (for_range_invariant
                (fun i hs => edges_placed t d (Linear2.b_headers s) i 0 hs)
                (Linear2.place_edges sN sE graph (Linear2.b_nodes s))
                (Z.to_nat (Linear2.d_end d - Linear2.d_begin d)) (Linear2.d_begin d)
                (Linear2.b_headers s))
      as (hs & -> & Hframe & h & Hh & Hah & Hbefore & _).
    + split; [done|]. exists h0. split; [done|]. split; [done|].
      split; intros; lia.
    + intros i hs Hi. apply (l2_place_edges t d); [done | done |]. unfold in_slot. lia.
    + cbn [mbind outcome_bind]. eexists. split; [reflexivity|].
      cbn [Linear2.b_headers Linear2.b_nodes]. split; [done|]. split; [|split; [|done]].
      * intros t' d' Hd'. destruct (decide (t' = t)) as [->|Hne'].
        -- assert (d' = d) as -> by congruence. by exists h.
        -- rewrite Hframe by done. by apply Hars.
      * intros d' h' Hd' Hh' i k Hi Hk. assert (d' = d) as -> by congruence.
        cbn [Linear2.b_headers] in Hh'. rewrite Hh in Hh'. injection Hh' as <-.
        apply Hbefore; [|done]. unfold in_slot in Hi. lia.
Qed.

Lemma allocate_edges_phase (order : list nat) (s : Linear2.build) :
  (forall t, t ∈ order -> (t < num)%nat) -> arenas_ok s ->
  (forall j, 0 <= j < n -> array_read (Linear2.b_nodes s) j = Returns (handle j)) ->
  exists s', Linear2.on_each (Linear2.AllocateEdges sN sE graph dinfo) order s
             = Returns s'
    /\ Linear2.b_nodes s' = Linear2.b_nodes s
    /\ arenas_ok s'
    /\ forall t, t ∈ order -> edges_done t s'.
Proof.
  intros Horder Hars Hnds. unfold Linear2.on_each.
  destruct (for_list_invariant
              (fun k s' =>
                 Linear2.b_nodes s' = Linear2.b_nodes s
                 /\ arenas_ok s'
                 /\ forall j t, (j < k)%nat -> order !! j = Some t -> edges_done t s')
              (Linear2.AllocateEdges sN sE graph dinfo) order s)
    as (s' & Hr & Hn' & Hars' & Hdone).
  - split; [done|]. split; [done|]. intros j t Hj. lia.
  - intros k t s1 Hk (Hn1 & Hars1 & Hd1).
    assert (Ht : (t < num)%nat) by (apply Horder; by eapply list_elem_of_lookup_2).
    destruct (allocate_edges_step t s1 Ht Hars1)
      as (s2 & Hr & Hn2 & Hars2 & Hdone & Hfh); [by rewrite Hn1|].
    exists s2. split; [done|]. split; [congruence|]. split; [done|].
    intros j t' Hj Hjt. destruct (decide (t' = t)) as [->|Hne]; [done|].
    intros d h Hd Hh. rewrite Hfh in Hh by done. apply (Hd1 j t'); try done.
    destruct (decide (j = k)) as [->|]; [congruence | lia].
  - exists s'. split; [done|]. split; [done|]. split; [done|].
    intros t [j Hj]%list_elem_of_lookup_1. apply (Hdone j); [|done].
    by eapply lookup_lt_Some.
Qed.

End Workers.

Lemma linear2_layout (order1 order2 : list nat) :
  order1 ≡ₚ seq 0 num -> order2 ≡ₚ seq 0 num ->
  exists G (hd : Z -> Linear2.pointer),
    Linear2.structureFromFile sN sE sH num order1 order2 graph = Returns G
    /\ (forall i j, 0 <= i < n -> 0 <= j < n -> hd i = hd j -> i = j)
    /\ forall N, 0 <= N < n ->
         Linear2.node G N = Returns (hd N)
         /\ Linear2.edge_dsts sN sE G (hd N) = Returns ((Some ∘ hd) <$> dests N).
Proof.
  intros Hp1 Hp2.
  pose proof (tb_nodes graph m Htab) as Hn. pose proof (tb_edges graph m Htab) as He.
  unfold Linear2.structureFromFile. rewrite size_small, sizeEdges_small.
  destruct distribute_spec as (dinfo & -> & Hlen & Hpart). cbn [mbind outcome_bind].
  assert (Hin : forall order t, order ≡ₚ seq 0 num -> t ∈ order <-> (t < num)%nat).
  { intros order t Hp. rewrite Hp, elem_of_seq. lia. }
  destruct (allocate_nodes_phase dinfo Hlen Hpart order1
              {| Linear2.b_headers := replicate num None;
                 Linear2.b_nodes := array_alloc n |})
    as (s1 & -> & Hlh1 & Hln1 & Hdone1).
  { intros t Ht. by apply (Hin order1). }
  { apply length_replicate. }
  { cbn [Linear2.b_nodes]. apply length_array_alloc. lia. }
  cbn [mbind outcome_bind].
  assert (Hnds1 : forall j, 0 <= j < n ->
            array_read (Linear2.b_nodes s1) j = Returns (handle dinfo j)).
  { intros j Hj. destruct (pt_cover dinfo n Hpart j Hj) as (t & d & Hd & Hi).
    assert (Ht : t ∈ order1).
    { apply (Hin order1); [done|]. apply lookup_lt_Some in Hd. lia. }
    destruct (Hdone1 t Ht d Hd) as (h & _ & _ & Hi').
    rewrite (handle_slot dinfo Hpart t d j Hd Hi). by apply Hi'. }
  assert (Hars1 : arenas_ok dinfo s1).
  { intros t d Hd.
    assert (Ht : t ∈ order1).
    { apply (Hin order1); [done|]. apply lookup_lt_Some in Hd. lia. }
    destruct (Hdone1 t Ht d Hd) as (h & Hh & Hsize & Hi).
    exists h. split; [done|]. split; [done|]. intros i Hin'. by apply Hi. }
  destruct (allocate_edges_phase dinfo Hlen Hpart order2 s1)
    as (s2 & -> & Hn2 & Hars2 & Hdone2); [|done|done|].
  { intros t Ht. by apply (Hin order2). }
  cbn [mbind outcome_bind]. eexists. exists (handle dinfo). split; [reflexivity|].
  split; [intros i j Hi Hj Heq; by eapply (handle_inj dinfo)|].
  intros N HN. destruct (deg_range N HN) as (Hf & Hd & Hfd & HoE).
  destruct (pt_cover dinfo n Hpart N HN) as (t & d & Hdt & Hi).
  destruct (Hars2 t d Hdt) as (h & Hh & Hsize & Hnum).
  split.
  - unfold Linear2.node. cbn [Linear2.numNodes Linear2.nodes].
    destruct (Z.ltb_spec N n); [|lia]. rewrite Hn2. by apply Hnds1.
  - rewrite (handle_slot dinfo Hpart t d N Hdt Hi).
    unfold Linear2.edge_dsts, Linear2.edge_begin, Linear2.edge_end, Linear2.edgeEnd,
      Linear2.getEdgeDst, Linear2.arena.
    cbn [Linear2.headers fst snd mbind outcome_bind]. rewrite Hh.
    change (mjoin (Some (Some h))) with (Some h). cbn [deref mbind outcome_bind fst snd].
    rewrite Hnum by done.
    rewrite (edge_walk _ (fun k => Some (handle dinfo (dst (fe N + k)))));
      [| lia | lia |].
    + f_equal. apply (dests_handles (Some ∘ handle dinfo)).
    + intros k Hk. unfold Linear2.edgeBegin. cbn [fst snd]. f_equal. apply (Hdone2 t); try done.
      apply (Hin order2); [done|]. apply lookup_lt_Some in Hdt. lia.
Qed.

(** **** More of the CSR layout: [getEdgeIdx] and [hasNeighbor] *)

Lemma csr_tables :
  exists G, CSR.structureFromFile graph = Returns G
    /\ (forall i, 0 <= i < n -> array_read (CSR.EdgeIndData G) i = Returns (off i))
    /\ (forall k, 0 <= k < E -> array_read (CSR.EdgeDst G) k = Returns (dst k)).
Proof.
  clear sN_pos sE_pos Hdeg31 sH_pos Hfoot num_pos.
  pose proof (tb_nodes graph m Htab) as Hn. pose proof (tb_edges graph m Htab) as He.
  unfold CSR.structureFromFile. rewrite size_small, sizeEdges_small.
  destruct (std_copy_spec (outIdx_at graph) off n (array_alloc n)) as (idx & Hidx & Hoff);
    [lia | by rewrite length_array_alloc by lia | apply (tb_off graph m Htab) |].
  destruct (std_copy_spec (outs_at graph) dst E (array_alloc E)) as (ds & Hds & Hdst);
    [lia | by rewrite length_array_alloc by lia | apply (tb_dst graph m Htab) |].
  rewrite Hidx. cbn [mbind outcome_bind]. rewrite Hds. cbn [mbind outcome_bind].
  eexists. split; [reflexivity|]. by split.
Qed.

(** The two loops of [getEdgeIdx], on the same range. *)
Lemma csr_getEdgeIdx_loop (G : CSR.LC_CSR_Graph) (d ee : Z) :
  (forall k, 0 <= k < E -> array_read (CSR.EdgeDst G) k = Returns (dst k)) ->
  ee <= E ->
  forall (c fuel1 fuel2 : nat) (ii : Z),
    ii + Z.of_nat c = ee -> 0 <= ii -> (c < fuel1)%nat -> (c < fuel2)%nat ->
    CSR.getEdgeIdx_loop fuel1 G ii ee d = FileGraph.getEdgeIdx_loop fuel2 graph ii ee d.
Proof.
  clear sN_pos sE_pos Hdeg31 sH_pos Hfoot num_pos.
  intros Hdst HeE. induction c as [|c IH]; intros fuel1 fuel2 ii Hc Hii Hf1 Hf2;
    (destruct fuel1 as [|fuel1]; [lia|]); (destruct fuel2 as [|fuel2]; [lia|]);
    cbn [CSR.getEdgeIdx_loop FileGraph.getEdgeIdx_loop].
  - destruct (Z.eqb_spec ii ee); [reflexivity | lia].
  - destruct (Z.eqb_spec ii ee); [lia|].
    rewrite Hdst, (tb_dst graph m Htab) by lia. cbn [mbind outcome_bind].
    destruct (dst ii =? d); [reflexivity|]. apply IH; lia.
Qed.

Lemma csr_getEdgeIdx :
  exists G, CSR.structureFromFile graph = Returns G
    /\ forall src d, 0 <= src < n ->
         CSR.getEdgeIdx G src d = FileGraph.getEdgeIdx graph src d
         /\ CSR.hasNeighbor G src d = FileGraph.hasNeighbor graph src d
         /\ exists r, FileGraph.getEdgeIdx graph src d = Returns r.
Proof.
  clear sN_pos sE_pos Hdeg31 sH_pos Hfoot num_pos.
  destruct csr_tables as (G & HG & Hoff & Hdst). exists G. split; [exact HG|].
  intros src d Hsrc. destruct (deg_range src Hsrc) as (Hf & Hd & Hfd & HoE).
  pose proof (tb_edges graph m Htab) as He.
  assert (Hb : FileGraph.raw_neighbor_begin graph src = Returns (fe src)).
  { unfold FileGraph.raw_neighbor_begin, first_edge. destruct (Z.eqb_spec src 0); [done|].
    apply (tb_off graph m Htab). lia. }
  assert (Hb' : CSR.raw_neighbor_begin G src = Returns (fe src)).
  { unfold CSR.raw_neighbor_begin, first_edge. destruct (Z.eqb_spec src 0); [done|].
    apply Hoff. lia. }
  assert (Hlen : deg src <= Z.of_nat (length (CSR.EdgeDst G))).
  { destruct (decide (E = 0)) as [Hz|Hz]; [lia|].
    pose proof (array_read_range _ _ _ (Hdst (E - 1) ltac:(lia))). lia. }
  assert (Heq : CSR.getEdgeIdx G src d = FileGraph.getEdgeIdx graph src d).
  { unfold CSR.getEdgeIdx, FileGraph.getEdgeIdx, CSR.raw_neighbor_end,
      FileGraph.raw_neighbor_end.
    rewrite Hb, Hb', Hoff, (tb_off graph m Htab) by done. cbn [mbind outcome_bind].
    apply (csr_getEdgeIdx_loop G d (off src) Hdst HoE (Z.to_nat (deg src))); [lia | lia | lia |].
    pose proof (tb_fits graph m Htab). rewrite (tb_length graph m Htab). lia. }
  split; [exact Heq|]. split; [unfold CSR.hasNeighbor, FileGraph.hasNeighbor; by rewrite Heq|].
  unfold FileGraph.getEdgeIdx, FileGraph.raw_neighbor_end.
  rewrite Hb, (tb_off graph m Htab) by done. cbn [mbind outcome_bind].
  destruct (getEdgeIdx_loop_spec graph d (S (Z.to_nat (masterLength graph)))
              (fe src) (off src)) as (r & Hr & _).
  - lia.
  - pose proof (tb_fits graph m Htab). rewrite (tb_length graph m Htab). lia.
  - intros i Hi. eexists. apply (tb_dst graph m Htab). lia.
  - by exists r.
Qed.

(** **** More of the linear layout: the arena, and [getEdgeIdx] *)

Lemma linear_memory :
  sN * n * 2 + sE * E < 2 ^ 64 ->
  exists G, Linear.structureFromFile sN sE graph = Returns G
    /\ Linear.numNodes G = n
    /\ Linear.limit (Linear.Data G) = sN * n * 2 + sE * E
    /\ (forall j, 0 <= j < n -> array_read (Linear.nodes G) j = Returns (addr 0 0 j))
    /\ (forall j, 0 <= j < n ->
          Linear.node_numEdges (Linear.Data G) (addr 0 0 j) = Some (deg j))
    /\ (forall j t, 0 <= j < n -> 0 <= t < deg j ->
          Linear.edge_dst (Linear.Data G) (addr 0 0 j + sN + t * sE)
          = Some (addr 0 0 (dst (fe j + t)))).
Proof.
  clear sH_pos Hfoot num_pos.
  intros Hsmall.
  pose proof (tb_nodes graph m Htab) as Hn. pose proof (tb_edges graph m Htab) as He.
  unfold Linear.structureFromFile, node_count. rewrite size_small, sizeEdges_small.
  rewrite (Z.mod_small (sN * n * 2 + sE * E)) by nia.
  destruct (for_range_invariant lin_nodes_placed (Linear.place_node sN sE graph)
              (Z.to_nat n) 0
              {| Linear.b_Data := {| Linear.node_numEdges := fun _ => None;
                                     Linear.edge_dst := fun _ => None;
                                     Linear.limit := sN * n * 2 + sE * E |};
                 Linear.b_nodes := array_alloc n;
                 Linear.curNode := 0 |})
    as (s1 & -> & Hc1 & Hl1 & Hlim1 & Hj1).
  { unfold lin_nodes_placed. cbn [Linear.curNode Linear.b_nodes Linear.b_Data Linear.limit].
    rewrite length_array_alloc by lia.
    split; [by rewrite addr_start|]. do 2 (split; [done|]). intros j Hj. lia. }
  { intros i s Hi. apply lin_place_node. lia. }
  cbn [mbind outcome_bind].
  rewrite Z.add_0_l, Z2Nat.id in Hj1 by lia.
  destruct (for_range_invariant (lin_edges_placed (Linear.b_nodes s1))
              (Linear.place_edges sN sE graph) (Z.to_nat n) 0 s1)
    as (s2 & -> & Hn2 & Hlim2 & Hnode2 & Hedge2).
  { unfold lin_edges_placed. split; [done|]. split; [done|].
    split; [intros j Hj; by apply Hj1|]. intros j t Hj. lia. }
  { intros i s Hi. apply lin_place_edges; [intros j Hj; by apply Hj1 | lia]. }
  cbn [mbind outcome_bind]. rewrite Z.add_0_l, Z2Nat.id in Hedge2 by lia.
  eexists. split; [reflexivity|]. cbn [Linear.numNodes Linear.Data Linear.nodes].
  split; [done|]. split; [done|].
  split; [intros j Hj; rewrite Hn2; by apply Hj1|].
  split; [done|]. intros j t Hj Ht. apply Hedge2; lia.
Qed.

(** The loop of [getEdgeIdx] over the edge records of one node, whose
    destinations are [l]. *)
Lemma linear_getEdgeIdx_loop (mem : Linear.memory) (d : Z) (l : list Z) :
  forall (b : Z) (fuel : nat),
    (forall k x, l !! k = Some x -> Linear.edge_dst mem (b + Z.of_nat k * sE) = Some x) ->
    (length l < fuel)%nat ->
    exists r,
      Linear.getEdgeIdx_loop sE fuel mem b (b + Z.of_nat (length l) * sE) d = Returns r
      /\ ((r = None /\ Forall (fun x => x <> d) l)
          \/ exists k : nat, r = Some (b + Z.of_nat k * sE) /\ l !! k = Some d
                             /\ Forall (fun x => x <> d) (take k l)).
Proof.
  clear sH_pos Hfoot num_pos.
  induction l as [|x l IH]; intros b fuel Hl Hf;
    (destruct fuel as [|fuel]; [cbn in Hf; lia|]); cbn [Linear.getEdgeIdx_loop length].
  - rewrite Z.mul_0_l, Z.add_0_r, Z.eqb_refl. exists None. split; [done|]. by left.
  - destruct (Z.eqb_spec b (b + Z.of_nat (S (length l)) * sE)); [nia|].
    pose proof (Hl 0%nat x eq_refl) as H0. rewrite Z.mul_0_l, Z.add_0_r in H0.
    rewrite H0. cbn [deref mbind outcome_bind].
    destruct (Z.eqb_spec x d) as [->|Hne].
    + exists (Some b). split; [done|]. right. exists 0%nat.
      split; [f_equal; lia|]. split; [done|]. cbn. constructor.
    + destruct (IH (b + sE) fuel) as (r & Hr & Hcase).
      { intros k y Hy. replace (b + sE + Z.of_nat k * sE) with (b + Z.of_nat (S k) * sE)
          by lia. by apply Hl. }
      { cbn in Hf. lia. }
      replace (b + Z.of_nat (S (length l)) * sE)
        with (b + sE + Z.of_nat (length l) * sE) by lia.
      exists r. split; [exact Hr|].
      destruct Hcase as [[-> Hall] | (k & -> & Hk & Hall)].
      * left. split; [done|]. by constructor.
      * right. exists (S k). split; [f_equal; lia|]. split; [done|].
        cbn [take]. by constructor.
Qed.

Lemma linear_getEdgeIdx :
  sN * n * 2 + sE * E < 2 ^ 64 ->
  exists G, Linear.structureFromFile sN sE graph = Returns G
    /\ forall src d, 0 <= src < n -> 0 <= d < n ->
         exists r, Linear.getEdgeIdx sN sE G (addr 0 0 src) (addr 0 0 d) = Returns r
           /\ ((r = None /\ d ∉ dests src)
               \/ exists k : nat,
                    r = Some (Linear.edgeBegin sN (addr 0 0 src) + Z.of_nat k * sE)
                    /\ dests src !! k = Some d /\ d ∉ take k (dests src)).
Proof.
  clear sH_pos Hfoot num_pos.
  intros Hsmall.
  destruct (linear_memory Hsmall) as (G & HG & Hnn & Hlim & Hnodes & Hnum & Hedge).
  exists G. split; [exact HG|]. intros src d Hsrc Hd.
  destruct (deg_range src Hsrc) as (Hf & Hdeg & Hfd & HoE).
  destruct (lin_fits src Hsrc) as [Hlo Hhi].
  pose proof (length_dests src Hsrc) as Hlen.
  unfold Linear.getEdgeIdx, Linear.edgeEnd. rewrite Hnum by done.
  cbn [deref mbind outcome_bind].
  destruct (linear_getEdgeIdx_loop (Linear.Data G) (addr 0 0 d) (addr 0 0 <$> dests src)
              (Linear.edgeBegin sN (addr 0 0 src)) (S (Z.to_nat (Linear.limit (Linear.Data G)))))
    as (r & Hr & Hcase).
  { intros k x Hx. rewrite list_lookup_fmap in Hx.
    destruct (dests src !! k) as [y|] eqn:Hy; [|discriminate]. injection Hx as <-.
    destruct (dests_lookup src k y Hsrc Hy) as (Hk & -> & _).
    unfold Linear.edgeBegin. apply Hedge; lia. }
  { rewrite length_fmap, Hlim. nia. }
  rewrite length_fmap, Hlen in Hr. exists r. split; [exact Hr|].
  assert (Hinj : forall l, Forall (fun x => 0 <= x < n) l ->
            Forall (fun x => x <> addr 0 0 d) (addr 0 0 <$> l) -> d ∉ l).
  { intros l Hl Hall Hin. rewrite Forall_fmap, Forall_forall in Hall.
    by apply (Hall d Hin). }
  assert (Hrange : Forall (fun x => 0 <= x < n) (dests src)).
  { apply Forall_forall. intros x [k Hk]%list_elem_of_lookup_1.
    by destruct (dests_lookup src k x Hsrc Hk) as (_ & _ & ?). }
  destruct Hcase as [[-> Hall] | (k & -> & Hk & Hall)].
  - left. split; [done|]. by apply Hinj.
  - right. exists k. split; [done|].
    rewrite list_lookup_fmap in Hk.
    destruct (dests src !! k) as [y|] eqn:Hy; [|discriminate]. injection Hk as Hk.
    destruct (dests_lookup src k y Hsrc Hy) as (_ & _ & Hyr).
    apply addr_inj in Hk; [|lia..]. subst y. split; [done|].
    rewrite <- fmap_take in Hall. apply Hinj; [|done].
    by apply Forall_take.
Qed.

Lemma place_aligned (base start : Z) (k : nat) :
  exists q, 0 <= q /\ place base start k = base + sN * q.
Proof.
  clear sH_pos Hfoot num_pos.
  induction k as [|k (q & Hq & IH)]; [exists 0; cbn; lia|].
  cbn [place]. rewrite IH. unfold next_addr.
  set (ei := base + sN * q + sN + deg (start + Z.of_nat k) * sE).
  destruct (Z.ltb_spec (base + sN * q) ei).
  - exists (q + (ei - (base + sN * q) + sN - 1) / sN). split; [|lia].
    assert (0 <= (ei - (base + sN * q) + sN - 1) / sN); [|lia].
    apply Z.div_pos; lia.
  - by exists q.
Qed.

(** The node records of the linear layout, in the arena. *)
Lemma linear_records :
  sN * n * 2 + sE * E < 2 ^ 64 ->
  exists G, Linear.structureFromFile sN sE graph = Returns G
    /\ forall N, 0 <= N < n ->
         Linear.node G N = Returns (addr 0 0 N)
         /\ Linear.edge_end sN sE G (addr 0 0 N)
            = Returns (addr 0 0 N + sN + deg N * sE)
         /\ 0 <= addr 0 0 N
         /\ addr 0 0 N + sN + deg N * sE <= Linear.limit (Linear.Data G)
         /\ (N = 0 -> addr 0 0 N = 0)
         /\ addr 0 0 N mod sN = 0
         /\ forall N', N < N' < n ->
              addr 0 0 N + sN + deg N * sE <= addr 0 0 N'
              /\ (N' = N + 1 -> addr 0 0 N' < addr 0 0 N + sN + deg N * sE + sN).
Proof.
  clear sH_pos Hfoot num_pos.
  intros Hsmall.
  destruct (linear_memory Hsmall) as (G & HG & Hnn & Hlim & Hnodes & Hnum & Hedge).
  exists G. split; [exact HG|]. intros N HN.
  destruct (lin_fits N HN) as [Hlo Hhi].
  split.
  { unfold Linear.node. rewrite Hnn. destruct (Z.ltb_spec N n); [|lia]. by apply Hnodes. }
  split.
  { unfold Linear.edge_end, Linear.edgeEnd, Linear.edgeBegin. by rewrite Hnum. }
  split; [done|]. split; [by rewrite Hlim|].
  split; [intros ->; apply addr_start|].
  split.
  { unfold addr. destruct (place_aligned 0 0 (Z.to_nat (N - 0))) as (q & _ & ->).
    rewrite Z.add_0_l, Z.mul_comm. apply Z_mod_mult. }
  intros N' HN'. split; [apply addr_lt; lia|].
  intros ->. rewrite addr_succ by lia.
  destruct (deg_range N HN) as (_ & Hd & _).
  pose proof (next_addr_bounds sN (addr 0 0 N) (addr 0 0 N + sN + deg N * sE) sN_pos).
  nia.
Qed.

(** **** The second linear layout: where the records lie *)

Lemma linear2_placement (order1 order2 : list nat) :
  order1 ≡ₚ seq 0 num -> order2 ≡ₚ seq 0 num ->
  exists dinfo G,
    Linear2.distribute sN sE num graph n E = Returns dinfo
    /\ Linear2.structureFromFile sN sE sH num order1 order2 graph = Returns G
    /\ forall t d, dinfo !! t = Some d ->
         exists h, Linear2.arena G t = Returns h
           /\ Linear2.h_size h
              = sH * 2 + sN * Linear2.d_numNodes d * 2 + sE * Linear2.d_numEdges d
           /\ forall N, in_slot d N ->
                exists a, Linear2.node G N = Returns (t, a)
                  /\ sH <= a
                  /\ Linear2.edge_end sN sE G (t, a) = Returns (t, a + sN + deg N * sE)
                  /\ a + sN + deg N * sE <= Linear2.h_size h.
Proof.
  intros Hp1 Hp2.
  pose proof (tb_nodes graph m Htab) as Hn. pose proof (tb_edges graph m Htab) as He.
  unfold Linear2.structureFromFile. rewrite size_small, sizeEdges_small.
  destruct distribute_spec as (dinfo & Hdist & Hlen & Hpart). rewrite Hdist.
  cbn [mbind outcome_bind].
  assert (Hin : forall order t, order ≡ₚ seq 0 num -> t ∈ order <-> (t < num)%nat).
  { intros order t Hp. rewrite Hp, elem_of_seq. lia. }
  destruct (allocate_nodes_phase dinfo Hlen Hpart order1
              {| Linear2.b_headers := replicate num None;
                 Linear2.b_nodes := array_alloc n |})
    as (s1 & -> & Hlh1 & Hln1 & Hdone1).
  { intros t Ht. by apply (Hin order1). }
  { apply length_replicate. }
  { cbn [Linear2.b_nodes]. apply length_array_alloc. lia. }
  cbn [mbind outcome_bind].
  assert (Hnds1 : forall j, 0 <= j < n ->
            array_read (Linear2.b_nodes s1) j = Returns (handle dinfo j)).
  { intros j Hj. destruct (pt_cover dinfo n Hpart j Hj) as (t & d & Hd & Hi).
    assert (Ht : t ∈ order1).
    { apply (Hin order1); [done|]. apply lookup_lt_Some in Hd. lia. }
    destruct (Hdone1 t Ht d Hd) as (h & _ & _ & Hi').
    rewrite (handle_slot dinfo Hpart t d j Hd Hi). by apply Hi'. }
  assert (Hars1 : arenas_ok dinfo s1).
  { intros t d Hd.
    assert (Ht : t ∈ order1).
    { apply (Hin order1); [done|]. apply lookup_lt_Some in Hd. lia. }
    destruct (Hdone1 t Ht d Hd) as (h & Hh & Hsize & Hi).
    exists h. split; [done|]. split; [done|]. intros i Hin'. by apply Hi. }
  destruct (allocate_edges_phase dinfo Hlen Hpart order2 s1)
    as (s2 & -> & Hn2 & Hars2 & Hdone2); [|done|done|].
  { intros t Ht. by apply (Hin order2). }
  cbn [mbind outcome_bind]. exists dinfo. eexists. split; [reflexivity|].
  split; [reflexivity|].
  intros t d Hdt. destruct (Hars2 t d Hdt) as (h & Hh & Hsize & Hnum).
  destruct (pt_slot dinfo n Hpart t d Hdt) as [Hok Hhi].
  exists h. split.
  { unfold Linear2.arena. cbn [Linear2.headers]. by rewrite Hh. }
  split; [exact Hsize|].
  intros N HN. exists (l2 d N).
  assert (HNn : 0 <= N < n).
  { destruct Hok as (Hb & He' & _). unfold in_slot in HN. lia. }
  destruct (l2_fits dinfo Hlen d N Hok HN) as (Hlo & Hfit & _).
  split.
  { unfold Linear2.node. cbn [Linear2.numNodes Linear2.nodes].
    destruct (Z.ltb_spec N n); [|lia]. rewrite Hn2, (Hnds1 N HNn).
    by rewrite (handle_slot dinfo Hpart t d N Hdt HN). }
  split.
  { destruct Hok as (Hb & He' & _). unfold in_slot in HN. unfold l2.
    destruct (addr_upper sH (Linear2.d_begin d) N); lia. }
  split.
  { unfold Linear2.edge_end, Linear2.arena, Linear2.edgeEnd, Linear2.edgeBegin.
    cbn [Linear2.headers fst snd]. rewrite Hh.
    change (mjoin (Some (Some h))) with (Some h). cbn [deref mbind outcome_bind].
    by rewrite Hnum. }
  rewrite Hsize. exact Hfit.
Qed.

End Equivalence.

(** *** The four layouts expose the adjacency of the FileGraph (C2) *)

(** The four layouts are built from [graph], and for every node id [N]
    the walk from [edge_begin] to [edge_end] through [getEdgeDst] yields,
    in each layout, the destinations that the FileGraph lists for [N], in
    the same order.  A [GraphNode] of the CSR layout is the node id, one of
    the inline layout is the index of the node record; the two linear
    layouts hand out pointers, [h3 N] and [h4 N] for the node [N], and
    different nodes have different pointers. *)
Definition same_topology (sN sE sH : Z) (num : nat) (order1 order2 : list nat)
    (graph : FileGraph) : Prop :=
  exists (G1 : CSR.LC_CSR_Graph) (G2 : CSRInline.LC_CSRInline_Graph)
         (G3 : Linear.LC_Linear_Graph) (G4 : Linear2.LC_Linear2_Graph)
         (h3 : Z -> Z) (h4 : Z -> Linear2.pointer),
    CSR.structureFromFile graph = Returns G1
    /\ CSRInline.structureFromFile graph = Returns G2
    /\ Linear.structureFromFile sN sE graph = Returns G3
    /\ Linear2.structureFromFile sN sE sH num order1 order2 graph = Returns G4
    /\ (forall i j, 0 <= i < numNodes graph -> 0 <= j < numNodes graph ->
          h3 i = h3 j -> i = j)
    /\ (forall i j, 0 <= i < numNodes graph -> 0 <= j < numNodes graph ->
          h4 i = h4 j -> i = j)
    /\ forall N, 0 <= N < numNodes graph ->
         exists ds,
           neighbors graph N = Returns ds
           /\ CSR.node G1 N = Returns N
           /\ CSR.edge_dsts G1 N = Returns ds
           /\ CSRInline.node G2 N = Returns N
           /\ CSRInline.edge_dsts G2 N = Returns ds
           /\ Linear.node G3 N = Returns (h3 N)
           /\ Linear.edge_dsts sN sE G3 (h3 N) = Returns (h3 <$> ds)
           /\ Linear2.node G4 N = Returns (h4 N)
           /\ Linear2.edge_dsts sN sE G4 (h4 N) = Returns ((Some ∘ h4) <$> ds).

(** A valid image of [2 ^ 32] nodes without edges: the header, and an
    offset table of zeros. *)
Definition big_image : region :=
  {| bytes := fun a =>
       if a <? 32
       then bytes (region_of_list (le_encode 8 1 ++ le_encode 8 0
                                   ++ le_encode 8 (2 ^ 32) ++ le_encode 8 0)) a
       else "000"%byte;
     size := 32 + 8 * 2 ^ 32 |}.

Definition big_graph : FileGraph := loaded_from FileGraph_ctor 3 big_image.

Definition example_graph : FileGraph := loaded_from FileGraph_ctor 3 example_image.

Definition example_order1 : list nat := [1; 0; 2]%nat.
Definition example_order2 : list nat := [2; 1; 0]%nat.

Lemma for_range_Undefined {S : Type} (body : Z -> S -> outcome S)
    (first : Z) (count : nat) (s : S) :
  count <> 0%nat -> body first s = Undefined -> for_range body first count s = Undefined.
Proof.
  intros Hc Hb. destruct count as [|count]; [done|].
  cbn [for_range]. by rewrite Hb.
Qed.

Lemma big_numNodes : numNodes big_graph = 2 ^ 32.
Proof. vm_compute. reflexivity. Qed.

Lemma big_numEdges : numEdges big_graph = 0.
Proof. vm_compute. reflexivity. Qed.

Lemma big_word (a : Z) : 32 <= a -> word_at big_image a 8 = 0.
Proof.
  intros Ha. unfold word_at.
  rewrite (map_ext_in _ (fun _ => 0)); [reflexivity|].
  intros i _. cbn [bytes big_image].
  destruct (Z.ltb_spec (a + Z.of_nat i) 32); [lia | reflexivity].
Qed.

Lemma big_outIdx (N : Z) : 0 <= N < 2 ^ 32 -> outIdx_at big_graph N = Returns 0.
Proof.
  intros HN. unfold outIdx_at.
  change (masterMapping big_graph) with (Some big_image).
  change (outIdx big_graph) with 32. cbv beta iota.
  rewrite le64_in_range by (cbn [size big_image]; lia).
  cbn [deref]. f_equal. apply big_word. lia.
Qed.

Lemma big_valid : valid true big_graph.
Proof.
  split.
  - apply (loaded_from_file true (set_contents "big.gr" big_image example_fs)
             FileGraph_ctor "big.gr").
    rewrite (structureFromFile_header true _ _ _ big_image);
      [| reflexivity | reflexivity | cbn [size big_image]; lia].
    assert (word_at big_image 0 8 = 1) as -> by (vm_compute; reflexivity).
    reflexivity.
  - split.
    + intros N HN. rewrite big_numNodes in HN. exists 0. by apply big_outIdx.
    + intros N o o' HN HN'. rewrite big_numNodes in HN'.
      rewrite !big_outIdx by lia. intros [= <-] [= <-]. lia.
    + intros _. rewrite big_numNodes, big_numEdges. apply big_outIdx. lia.
    + intros e He. rewrite big_numEdges in He. lia.
Qed.

Lemma example_degrees (N d : Z) :
  0 <= N < 4 -> neighborsSize example_graph N = Returns d -> d < 2 ^ 31.
Proof.
  intros HN Hd.
  assert (H0 : neighborsSize example_graph 0 = Returns 2) by (vm_compute; reflexivity).
  assert (H1 : neighborsSize example_graph 1 = Returns 1) by (vm_compute; reflexivity).
  assert (H2 : neighborsSize example_graph 2 = Returns 1) by (vm_compute; reflexivity).
  assert (H3 : neighborsSize example_graph 3 = Returns 0) by (vm_compute; reflexivity).
  assert (HN' : N = 0 \/ N = 1 \/ N = 2 \/ N = 3) by lia.
  destruct HN' as [-> | [-> | [-> | ->]]]; [rewrite H0 in Hd | rewrite H1 in Hd
    | rewrite H2 in Hd | rewrite H3 in Hd]; injection Hd as <-; lia.
Qed.

(** C2, as amended: for every valid FileGraph with fewer than [2 ^ 32]
    nodes and fewer than [2 ^ 32] edges, whose nodes have fewer than
    [2 ^ 31] neighbours each, and whose records fit the address space, on
    at least one worker, the four layouts that [structureFromFile] builds
    expose the same topology: for every node, the walk from [edge_begin]
    to [edge_end] through [getEdgeDst] yields the destinations that the
    FileGraph lists, in the same order, in every layout; the workers of
    the fourth layout may run in any order. *)
Theorem layouts_expose_same_topology (assertions : bool) (graph : FileGraph)
    (sN sE sH : Z) (num : nat) (order1 order2 : list nat) :
  valid assertions graph ->
  numNodes graph < 2 ^ 32 -> numEdges graph < 2 ^ 32 ->
  (forall N d, 0 <= N < numNodes graph -> neighborsSize graph N = Returns d -> d < 2 ^ 31) ->
  0 < sN -> 0 < sE -> 0 < sH ->
  sH * 2 + sN * numNodes graph * 2 + sE * numEdges graph < 2 ^ 64 ->
  (0 < num)%nat -> order1 ≡ₚ seq 0 num -> order2 ≡ₚ seq 0 num ->
  same_topology sN sE sH num order1 order2 graph.
Proof.
  intros Hvalid Hn32 He32 Hdeg HsN HsE HsH Hfoot Hnum Hp1 Hp2.
  destruct (valid_tables assertions graph Hvalid) as [m Htab].
  assert (Hdeg31 : forall i, 0 <= i < numNodes graph -> deg m i < 2 ^ 31).
  { intros i Hi. apply (Hdeg i); [done|]. by apply (neighborsSize_deg graph m). }
  destruct (csr_layout graph m Htab Hn32 He32) as (G1 & HG1 & H1).
  destruct (inline_layout graph m Htab Hn32 He32) as (G2 & HG2 & H2).
  destruct (linear_layout graph m Htab Hn32 He32 sN sE HsN HsE Hdeg31 sH HsH Hfoot)
    as (G3 & HG3 & Hinj3 & H3).
  destruct (linear2_layout graph m Htab Hn32 He32 sN sE HsN HsE Hdeg31 sH HsH Hfoot
              num Hnum order1 order2 Hp1 Hp2) as (G4 & h4 & HG4 & Hinj4 & H4).
  exists G1, G2, G3, G4, (addr m sN sE 0 0), h4.
  do 4 (split; [done|]). split; [done|]. split; [done|].
  intros N HN. exists (dests graph m N).
  destruct (H1 N HN) as [? ?]. destruct (H2 N HN) as [? ?].
  destruct (H3 N HN) as [? ?]. destruct (H4 N HN) as [? ?].
  split; [by apply (neighbor_range_dests graph m)|]. done.
Qed.

Lemma layouts_expose_same_topology_witness :
  same_topology 24 8 24 3 example_order1 example_order2 example_graph.
Proof.
  apply (layouts_expose_same_topology true).
  - exact example_valid.
  - vm_compute. reflexivity.
  - vm_compute. reflexivity.
  - intros N d HN. change (numNodes example_graph) with 4 in HN.
    by apply (example_degrees N).
  - lia.
  - lia.
  - lia.
  - vm_compute. reflexivity.
  - lia.
  - apply (bool_decide_unpack _). vm_compute. exact I.
  - apply (bool_decide_unpack _). vm_compute. exact I.
Defined.

(** C2, as stated, fails for a valid FileGraph of [2 ^ 32] nodes:
    [graph.size()] returns [unsigned int], so the CSR layout allocates an
    offset array of no elements, and [std::copy] writes the [2 ^ 32]
    offsets behind it. *)
Lemma layouts_overrun_on_four_billion_nodes :
  valid true big_graph
  /\ numNodes big_graph = 2 ^ 32
  /\ CSR.structureFromFile big_graph = Undefined
  /\ forall sN sE sH num order1 order2,
       ~ same_topology sN sE sH num order1 order2 big_graph.
Proof.
  assert (Hcsr : CSR.structureFromFile big_graph = Undefined).
  { unfold CSR.structureFromFile, size_, std_copy. rewrite big_numNodes.
    rewrite Z_mod_same_full.
    pose proof (Z.pow_pos_nonneg 2 32 ltac:(lia) ltac:(lia)) as Hpos.
    rewrite (for_range_Undefined _ 0 (Z.to_nat (2 ^ 32))); [reflexivity | lia |].
    rewrite big_outIdx by lia. reflexivity. }
  split; [exact big_valid|]. split; [exact big_numNodes|]. split; [exact Hcsr|].
  intros sN sE sH num order1 order2 (G1 & _ & _ & _ & _ & _ & HG1 & _).
  rewrite Hcsr in HG1. discriminate.
Qed.

(** *** Lookups in the layouts, and the placement of the records *)

Lemma valid_degrees (assertions : bool) (graph : FileGraph) (m : region) :
  tables graph m -> numEdges graph < 2 ^ 32 ->
  (forall N d, 0 <= N < numNodes graph -> neighborsSize graph N = Returns d -> d < 2 ^ 31) ->
  forall i, 0 <= i < numNodes graph -> deg m i < 2 ^ 31.
Proof.
  intros Htab He32 Hdeg i Hi. apply (Hdeg i); [done|].
  by apply (neighborsSize_deg graph m).
Qed.

(** X13: for a valid FileGraph with fewer than [2 ^ 32] nodes and edges,
    the CSR layout is built, and on every node [getEdgeIdx] returns the
    edge index that [getEdgeIdx] of the FileGraph returns (the first edge
    of the node with that destination, or [~0]), and [hasNeighbor] gives
    the answer of the FileGraph. *)
Theorem csr_getEdgeIdx_agrees (assertions : bool) (graph : FileGraph) :
  valid assertions graph ->
  numNodes graph < 2 ^ 32 -> numEdges graph < 2 ^ 32 ->
  exists G, CSR.structureFromFile graph = Returns G
    /\ forall src dst, 0 <= src < numNodes graph ->
         CSR.getEdgeIdx G src dst = getEdgeIdx graph src dst
         /\ CSR.hasNeighbor G src dst = hasNeighbor graph src dst
         /\ exists r, getEdgeIdx graph src dst = Returns r.
Proof.
  intros Hvalid Hn32 He32.
  destruct (valid_tables assertions graph Hvalid) as [m Htab].
  exact (csr_getEdgeIdx graph m Htab Hn32 He32).
Qed.

Lemma csr_getEdgeIdx_agrees_witness :
  exists G, CSR.structureFromFile example_graph = Returns G
    /\ forall src dst, 0 <= src < numNodes example_graph ->
         CSR.getEdgeIdx G src dst = getEdgeIdx example_graph src dst
         /\ CSR.hasNeighbor G src dst = hasNeighbor example_graph src dst
         /\ exists r, getEdgeIdx example_graph src dst = Returns r.
Proof.
  apply (csr_getEdgeIdx_agrees true);
    [exact example_valid | vm_compute; reflexivity | vm_compute; reflexivity].
Defined.

(** X14: for a valid FileGraph within the limits of the linear layout,
    [getEdgeIdx(src, dst)] on the node records of two nodes returns the
    address of the first edge record of [src] whose destination is
    [dst], which is the record of the first edge to [dst] in the
    FileGraph's list for [src], and the null pointer when [src] has no
    edge to [dst]. *)
Theorem linear_getEdgeIdx_first_record (assertions : bool) (graph : FileGraph)
    (sN sE : Z) :
  valid assertions graph ->
  numNodes graph < 2 ^ 32 -> numEdges graph < 2 ^ 32 ->
  (forall N d, 0 <= N < numNodes graph -> neighborsSize graph N = Returns d -> d < 2 ^ 31) ->
  0 < sN -> 0 < sE ->
  sN * numNodes graph * 2 + sE * numEdges graph < 2 ^ 64 ->
  exists G (h : Z -> Z),
    Linear.structureFromFile sN sE graph = Returns G
    /\ (forall N, 0 <= N < numNodes graph -> Linear.node G N = Returns (h N))
    /\ forall src dst, 0 <= src < numNodes graph -> 0 <= dst < numNodes graph ->
         exists ds r,
           neighbors graph src = Returns ds
           /\ Linear.getEdgeIdx sN sE G (h src) (h dst) = Returns r
           /\ ((r = None /\ dst ∉ ds)
               \/ exists k : nat,
                    r = Some (Linear.edgeBegin sN (h src) + Z.of_nat k * sE)
                    /\ ds !! k = Some dst /\ dst ∉ take k ds).
Proof.
  intros Hvalid Hn32 He32 Hdeg HsN HsE Hfoot.
  destruct (valid_tables assertions graph Hvalid) as [m Htab].
  pose proof (valid_degrees assertions graph m Htab He32 Hdeg) as Hdeg31.
  destruct (linear_getEdgeIdx graph m Htab Hn32 He32 sN sE HsN HsE Hdeg31 Hfoot)
    as (G & HG & Hget).
  destruct (linear_records graph m Htab Hn32 He32 sN sE HsN HsE Hdeg31 Hfoot)
    as (G' & HG' & Hrec).
  assert (G' = G) as -> by congruence.
  exists G, (addr m sN sE 0 0). split; [exact HG|].
  split; [intros N HN; by destruct (Hrec N HN)|].
  intros src dst Hsrc Hdst. destruct (Hget src dst Hsrc Hdst) as (r & Hr & Hcase).
  exists (dests graph m src), r.
  split; [by apply (neighbor_range_dests graph m)|]. by split.
Qed.

Lemma linear_getEdgeIdx_first_record_witness :
  exists G (h : Z -> Z),
    Linear.structureFromFile 24 8 example_graph = Returns G
    /\ (forall N, 0 <= N < numNodes example_graph -> Linear.node G N = Returns (h N))
    /\ forall src dst, 0 <= src < numNodes example_graph ->
         0 <= dst < numNodes example_graph ->
         exists ds r,
           neighbors example_graph src = Returns ds
           /\ Linear.getEdgeIdx 24 8 G (h src) (h dst) = Returns r
           /\ ((r = None /\ dst ∉ ds)
               \/ exists k : nat,
                    r = Some (Linear.edgeBegin 24 (h src) + Z.of_nat k * 8)
                    /\ ds !! k = Some dst /\ dst ∉ take k ds).
Proof.
  apply (linear_getEdgeIdx_first_record true);
    [exact example_valid | vm_compute; reflexivity | vm_compute; reflexivity
    | intros N d HN; change (numNodes example_graph) with 4 in HN;
      by apply (example_degrees N)
    | lia | lia | vm_compute; reflexivity].
Defined.

(** X15: for a valid FileGraph within the limits of the linear layout,
    the node records lie in the arena in the order of the node ids: the
    first at its start, each at a multiple of [sizeof(NodeInfo)],
    followed by the edge records of the node; the record of a node
    starts behind the edge records of every earlier node, fewer than
    [sizeof(NodeInfo)] bytes behind those of its predecessor, and the
    edge records of every node end inside the arena. *)
Theorem linear_records_packed (assertions : bool) (graph : FileGraph) (sN sE : Z) :
  valid assertions graph ->
  numNodes graph < 2 ^ 32 -> numEdges graph < 2 ^ 32 ->
  (forall N d, 0 <= N < numNodes graph -> neighborsSize graph N = Returns d -> d < 2 ^ 31) ->
  0 < sN -> 0 < sE ->
  sN * numNodes graph * 2 + sE * numEdges graph < 2 ^ 64 ->
  exists G (h : Z -> Z),
    Linear.structureFromFile sN sE graph = Returns G
    /\ Linear.limit (Linear.Data G) = sN * numNodes graph * 2 + sE * numEdges graph
    /\ forall N, 0 <= N < numNodes graph ->
         exists d,
           neighborsSize graph N = Returns d
           /\ Linear.node G N = Returns (h N)
           /\ Linear.edge_begin sN G (h N) = Returns (h N + sN)
           /\ Linear.edge_end sN sE G (h N) = Returns (h N + sN + d * sE)
           /\ 0 <= h N /\ h N mod sN = 0 /\ (N = 0 -> h N = 0)
           /\ h N + sN + d * sE <= Linear.limit (Linear.Data G)
           /\ forall N', N < N' < numNodes graph ->
                h N + sN + d * sE <= h N'
                /\ (N' = N + 1 -> h N' < h N + sN + d * sE + sN).
Proof.
  intros Hvalid Hn32 He32 Hdeg HsN HsE Hfoot.
  destruct (valid_tables assertions graph Hvalid) as [m Htab].
  pose proof (valid_degrees assertions graph m Htab He32 Hdeg) as Hdeg31.
  destruct (linear_records graph m Htab Hn32 He32 sN sE HsN HsE Hdeg31 Hfoot)
    as (G & HG & Hrec).
  destruct (linear_memory graph m Htab Hn32 He32 sN sE HsN HsE Hdeg31 Hfoot)
    as (G' & HG' & _ & Hlim & _).
  assert (G' = G) as -> by congruence.
  exists G, (addr m sN sE 0 0). split; [exact HG|]. split; [exact Hlim|].
  intros N HN. exists (deg m N).
  destruct (Hrec N HN) as (H1 & H2 & H3 & H4 & H5 & H6 & H7).
  split; [by apply (neighborsSize_deg graph m)|].
  split; [exact H1|]. split; [reflexivity|]. split; [exact H2|].
  split; [exact H3|]. split; [exact H6|]. split; [exact H5|].
  split; [exact H4 | exact H7].
Qed.

Lemma linear_records_packed_witness :
  exists G (h : Z -> Z),
    Linear.structureFromFile 24 8 example_graph = Returns G
    /\ Linear.limit (Linear.Data G)
       = 24 * numNodes example_graph * 2 + 8 * numEdges example_graph
    /\ forall N, 0 <= N < numNodes example_graph ->
         exists d,
           neighborsSize example_graph N = Returns d
           /\ Linear.node G N = Returns (h N)
           /\ Linear.edge_begin 24 G (h N) = Returns (h N + 24)
           /\ Linear.edge_end 24 8 G (h N) = Returns (h N + 24 + d * 8)
           /\ 0 <= h N /\ h N mod 24 = 0 /\ (N = 0 -> h N = 0)
           /\ h N + 24 + d * 8 <= Linear.limit (Linear.Data G)
           /\ forall N', N < N' < numNodes example_graph ->
                h N + 24 + d * 8 <= h N'
                /\ (N' = N + 1 -> h N' < h N + 24 + d * 8 + 24).
Proof.
  apply (linear_records_packed true);
    [exact example_valid | vm_compute; reflexivity | vm_compute; reflexivity
    | intros N d HN; change (numNodes example_graph) with 4 in HN;
      by apply (example_degrees N)
    | lia | lia | vm_compute; reflexivity].
Defined.

(** X16: for a valid FileGraph with fewer than [2 ^ 32] nodes and edges
    and at least one worker, [distribute] fills one slot per worker;
    every slot is a range of node ids with its node count and the number
    of edges of these nodes, and every node lies in the range of exactly
    one slot. *)
Theorem distribute_partitions_nodes (assertions : bool) (graph : FileGraph)
    (sN sE : Z) (num : nat) :
  valid assertions graph ->
  numNodes graph < 2 ^ 32 -> numEdges graph < 2 ^ 32 -> (0 < num)%nat ->
  exists dinfo,
    Linear2.distribute sN sE num graph (size_ graph) (sizeEdges graph) = Returns dinfo
    /\ length dinfo = num
    /\ (forall t d, dinfo !! t = Some d ->
          0 <= Linear2.d_begin d <= Linear2.d_end d
          /\ Linear2.d_end d <= numNodes graph
          /\ Linear2.d_numNodes d = Linear2.d_end d - Linear2.d_begin d
          /\ exists eb ee,
               edge_begin graph (Linear2.d_begin d) = Returns eb
               /\ edge_begin graph (Linear2.d_end d) = Returns ee
               /\ Linear2.d_numEdges d = ee - eb)
    /\ forall N, 0 <= N < numNodes graph ->
         exists t d, dinfo !! t = Some d
           /\ Linear2.d_begin d <= N < Linear2.d_end d
           /\ forall t' d', dinfo !! t' = Some d' ->
                Linear2.d_begin d' <= N < Linear2.d_end d' -> t' = t.
Proof.
  intros Hvalid Hn32 He32 Hnum.
  destruct (valid_tables assertions graph Hvalid) as [m Htab].
  destruct (distribute_spec graph m Htab Hn32 He32 sN sE num Hnum)
    as (dinfo & Hd & Hlen & Hpart).
  exists dinfo. rewrite (size_small graph m Htab Hn32), (sizeEdges_small graph m Htab He32).
  split; [exact Hd|]. split; [exact Hlen|]. split.
  - intros t d Htd. destruct (pt_slot graph m dinfo _ Hpart t d Htd)
      as [(Hb & He & Hnn & Hne) _].
    do 3 (split; [done|]).
    exists (first_edge m (Linear2.d_begin d)), (first_edge m (Linear2.d_end d)).
    split; [apply (tables_edge_begin graph m Htab); lia|].
    split; [apply (tables_edge_begin graph m Htab); lia | done].
  - intros N HN. destruct (pt_cover graph m dinfo _ Hpart N HN) as (t & d & Htd & Hin).
    exists t, d. split; [done|]. split; [done|].
    intros t' d' Htd' Hin'. by apply (pt_disjoint graph m dinfo _ Hpart t' t d' d N).
Qed.

Lemma distribute_partitions_nodes_witness :
  exists dinfo,
    Linear2.distribute 24 8 3 example_graph (size_ example_graph) (sizeEdges example_graph)
    = Returns dinfo
    /\ length dinfo = 3%nat
    /\ (forall t d, dinfo !! t = Some d ->
          0 <= Linear2.d_begin d <= Linear2.d_end d
          /\ Linear2.d_end d <= numNodes example_graph
          /\ Linear2.d_numNodes d = Linear2.d_end d - Linear2.d_begin d
          /\ exists eb ee,
               edge_begin example_graph (Linear2.d_begin d) = Returns eb
               /\ edge_begin example_graph (Linear2.d_end d) = Returns ee
               /\ Linear2.d_numEdges d = ee - eb)
    /\ forall N, 0 <= N < numNodes example_graph ->
         exists t d, dinfo !! t = Some d
           /\ Linear2.d_begin d <= N < Linear2.d_end d
           /\ forall t' d', dinfo !! t' = Some d' ->
                Linear2.d_begin d' <= N < Linear2.d_end d' -> t' = t.
Proof.
  apply (distribute_partitions_nodes true);
    [exact example_valid | vm_compute; reflexivity | vm_compute; reflexivity | lia].
Defined.

(** X18: for a valid FileGraph within the limits of the second linear
    layout, in whatever order the workers run the two phases, every
    worker has an arena of [sizeof(Header) * 2 + sizeof(NodeInfo) *
    numNodes * 2 + sizeof(EdgeInfo) * numEdges] bytes for the counts of
    its slot, and the record of every node of the slot lies in that
    arena, behind the header, with its edge records ending inside the
    arena. *)
Theorem linear2_records_in_owner_arena (assertions : bool) (graph : FileGraph)
    (sN sE sH : Z) (num : nat) (order1 order2 : list nat) :
  valid assertions graph ->
  numNodes graph < 2 ^ 32 -> numEdges graph < 2 ^ 32 ->
  (forall N d, 0 <= N < numNodes graph -> neighborsSize graph N = Returns d -> d < 2 ^ 31) ->
  0 < sN -> 0 < sE -> 0 < sH ->
  sH * 2 + sN * numNodes graph * 2 + sE * numEdges graph < 2 ^ 64 ->
  (0 < num)%nat -> order1 ≡ₚ seq 0 num -> order2 ≡ₚ seq 0 num ->
  exists dinfo G,
    Linear2.distribute sN sE num graph (size_ graph) (sizeEdges graph) = Returns dinfo
    /\ Linear2.structureFromFile sN sE sH num order1 order2 graph = Returns G
    /\ forall t d, dinfo !! t = Some d ->
         exists h, Linear2.arena G t = Returns h
           /\ Linear2.h_size h
              = sH * 2 + sN * Linear2.d_numNodes d * 2 + sE * Linear2.d_numEdges d
           /\ forall N, Linear2.d_begin d <= N < Linear2.d_end d ->
                exists a dg,
                  neighborsSize graph N = Returns dg
                  /\ Linear2.node G N = Returns (t, a)
                  /\ sH <= a
                  /\ Linear2.edge_end sN sE G (t, a) = Returns (t, a + sN + dg * sE)
                  /\ a + sN + dg * sE <= Linear2.h_size h.
Proof.
  intros Hvalid Hn32 He32 Hdeg HsN HsE HsH Hfoot Hnum Hp1 Hp2.
  destruct (valid_tables assertions graph Hvalid) as [m Htab].
  pose proof (valid_degrees assertions graph m Htab He32 Hdeg) as Hdeg31.
  destruct (linear2_placement graph m Htab Hn32 He32 sN sE HsN HsE Hdeg31 sH HsH Hfoot
              num Hnum order1 order2 Hp1 Hp2) as (dinfo & G & Hdist & HG & Hplace).
  destruct (distribute_spec graph m Htab Hn32 He32 sN sE num Hnum)
    as (dinfo' & Hdist' & _ & Hpart).
  assert (dinfo' = dinfo) as -> by congruence.
  exists dinfo, G.
  rewrite (size_small graph m Htab Hn32), (sizeEdges_small graph m Htab He32).
  split; [exact Hdist|]. split; [exact HG|].
  intros t d Hdt. destruct (Hplace t d Hdt) as (h & Hh & Hsize & Hrec).
  exists h. split; [exact Hh|]. split; [exact Hsize|].
  intros N HN. destruct (Hrec N HN) as (a & Hnode & Ha & Hend & Hfit).
  destruct (pt_slot graph m dinfo _ Hpart t d Hdt) as [(Hb & He & _) _].
  exists a, (deg m N). split; [|done].
  apply (neighborsSize_deg graph m); [done | done | lia].
Qed.

Lemma linear2_records_in_owner_arena_witness :
  exists dinfo G,
    Linear2.distribute 24 8 3 example_graph (size_ example_graph) (sizeEdges example_graph)
    = Returns dinfo
    /\ Linear2.structureFromFile 24 8 24 3 example_order1 example_order2 example_graph
       = Returns G
    /\ forall t d, dinfo !! t = Some d ->
         exists h, Linear2.arena G t = Returns h
           /\ Linear2.h_size h
              = 24 * 2 + 24 * Linear2.d_numNodes d * 2 + 8 * Linear2.d_numEdges d
           /\ forall N, Linear2.d_begin d <= N < Linear2.d_end d ->
                exists a dg,
                  neighborsSize example_graph N = Returns dg
                  /\ Linear2.node G N = Returns (t, a)
                  /\ 24 <= a
                  /\ Linear2.edge_end 24 8 G (t, a) = Returns (t, a + 24 + dg * 8)
                  /\ a + 24 + dg * 8 <= Linear2.h_size h.
Proof.
  apply (linear2_records_in_owner_arena true).
  - exact example_valid.
  - vm_compute. reflexivity.
  - vm_compute. reflexivity.
  - intros N d HN. change (numNodes example_graph) with 4 in HN.
    by apply (example_degrees N).
  - lia.
  - lia.
  - lia.
  - vm_compute. reflexivity.
  - lia.
  - apply (bool_decide_unpack _). vm_compute. exact I.
  - apply (bool_decide_unpack _). vm_compute. exact I.
Defined.

(** An arena with one node record at address 48 that has three edges. *)
Definition example_node_memory : Linear.memory :=
  {| Linear.node_numEdges := fun a => if a =? 48 then Some 3 else None;
     Linear.edge_dst := fun _ => None; Linear.limit := 1024 |}.

(** X17: [NodeInfo::next()] of the linear layouts returns the first
    address at or behind the end of the edge records of the node that is a
    whole number of node records away from the node: it lies less than
    [sizeof(NodeInfo)] behind that end; for a node whose edge count is
    not negative it lies behind the node. *)
Theorem next_rounds_up (sN sE : Z) (mem : Linear.memory) (this d : Z) :
  0 < sN -> Linear.node_numEdges mem this = Some d ->
  let ei := this + sN + d * sE in
  exists r, Linear.next sN sE mem this = Returns r
    /\ this <= r /\ ei <= r /\ r < Z.max this ei + sN
    /\ (r - this) mod sN = 0
    /\ (0 <= d -> 0 <= sE -> this < r).
Proof.
  intros HsN Hd ei. unfold Linear.next, Linear.edgeEnd, Linear.edgeBegin. rewrite Hd.
  cbn [deref mbind outcome_bind]. fold ei.
  rewrite next_loop_value by lia.
  pose proof (next_addr_bounds sN this ei HsN) as (H1 & H2 & H3).
  exists (next_addr sN this ei). split; [reflexivity|]. do 3 (split; [done|]).
  split.
  - unfold next_addr. destruct (this <? ei).
    + replace (this + sN * ((ei - this + sN - 1) / sN) - this)
        with ((ei - this + sN - 1) / sN * sN) by lia.
      apply Z_mod_mult.
    + by rewrite Z.sub_diag.
  - intros Hd0 HsE. unfold ei in *. nia.
Qed.

Lemma next_rounds_up_witness :
  exists r, Linear.next 24 8 example_node_memory 48 = Returns r
    /\ 48 <= r /\ 48 + 24 + 3 * 8 <= r /\ r < Z.max 48 (48 + 24 + 3 * 8) + 24
    /\ (r - 48) mod 24 = 0
    /\ (0 <= 3 -> 0 <= 8 -> 48 < r).
Proof.
  apply (next_rounds_up 24 8 example_node_memory 48 3); [lia | reflexivity].
Defined.

End LCGraph.
